(** * ARM64 simulator: a shallow embedding of the execution engine and
      of the two-pass assembler, with the properties of its specification.

    The embedding follows the second [ARM64Simulator] class of the
    repository (the one with I/O callbacks) and [ARM64Parser].
    BigInt values are [Z]; JavaScript Numbers that hold integers are [Z]
    as well, with the rounding of [Number(bigint)] written out.  The
    register file (a JS object keyed by register name) is a
    [gmap string Z]; the sparse memory (a JS [Map] keyed by address) is a
    [gmap Z Z].  A thrown [Error] is a result [Throw] that keeps the
    state as the throwing code left it. *)

From Stdlib Require Import ZArith Lia List Bool Ascii.
From stdpp Require Import gmap strings list fin_maps pretty.

Local Open Scope Z_scope.

(** ** JavaScript numeric conversions *)

Module JS.

(** [Number(b)] for a BigInt [b]: the nearest double, ties to even.  A
    double has 53 significant bits, so magnitudes below [2^53] are kept.
    (Magnitudes from [2^1024] on, which give [Infinity], are outside the
    model.) *)
Definition Number (b : Z) : Z :=
  let a := Z.abs b in
  if a <? 2 ^ 53 then b
  else
    let e := Z.log2 a - 52 in
    let q := a / 2 ^ e in
    let r := a mod 2 ^ e in
    let half := 2 ^ (e - 1) in
    let q' := if r <? half then q
              else if half <? r then q + 1
              else if Z.even q then q else q + 1 in
    Z.sgn b * (q' * 2 ^ e).

(** Number arithmetic on integer-valued doubles: the exact result,
    rounded. *)
Definition nadd (a b : Z) : Z := Number (a + b).
Definition nsub (a b : Z) : Z := Number (a - b).

(** [x << 0] and [x >> 0] (ToInt32) and [x >>> 0] (ToUint32). *)
Definition ToInt32 (x : Z) : Z := (x + 2 ^ 31) mod 2 ^ 32 - 2 ^ 31.
Definition ToUint32 (x : Z) : Z := x mod 2 ^ 32.

(** [x || d] on a BigInt or Number that may be [undefined]: zero is falsy. *)
Definition or_default (x : option Z) (d : Z) : Z :=
  match x with
  | Some v => if v =? 0 then d else v
  | None => d
  end.

End JS.

(** ** Data model *)

(** What [parseRegister] returns: one of the strings ['sp'], ['lr'],
    ['pc'], or an object [{type, num, name}] with [name] the letter
    followed by [num]. *)
Inductive RegType := x_type | w_type.

Inductive Register :=
| RSp | RLr | RPc
| RObj (type : RegType) (num : nat).

Definition xname (num : nat) : string := "x" +:+ pretty num.
Definition wname (num : nat) : string := "w" +:+ pretty num.

Definition reg_name (type : RegType) (num : nat) : string :=
  match type with x_type => xname num | w_type => wname num end.

Definition is_w (r : option Register) : bool :=
  match r with Some (RObj w_type _) => true | _ => false end.

Definition is_sp (r : Register) : bool :=
  match r with RSp => true | _ => false end.

Record Flags := mkFlags { flag_N : bool; flag_Z : bool; flag_C : bool; flag_V : bool }.

Record Region := mkRegion
  { r_key : string; r_start : Z; r_end : Z; r_name : string; r_readonly : bool }.

Record StackFrame := mkFrame { f_id : Z; f_sp : Z; f_size : Z; f_top : Z }.

Inductive OffsetType := ot_scaled | ot_register | ot_immediate.

(** The record built by [parseInstruction]; absent properties are [None]. *)
Record Parsed := mkParsed
  { opcode : string;
    dest : option Register;
    src : option Register;
    src1 : option Register;
    src2 : option Register;
    immediate : option Z;
    label : option string;
    labelOp : option string;
    base : option Register;
    offsetReg : option Register;
    shift : option Z;
    offsetType : option OffsetType;
    offset : option Z }.

Definition parsed0 (op : string) : Parsed :=
  mkParsed op None None None None None None None None None None None None.

Record Instruction := mkInstruction
  { original : string; address : Z; parsed : option Parsed }.

Record Symbol := mkSymbol
  { sym_address : Z; sym_section : string; sym_type : string; sym_isGlobal : bool }.

Inductive Error :=
| ZeroPageAccess (addr : Z)
| OutOfBounds (addr : Z)
| NotInAnyRegion (addr : Z)
| CrossesRegionBoundary (addr endAddr : Z)
| WriteToReadOnly (addr : Z)
| StackHeapCollision (spv addr : Z)
| UnmappedRegion (addr : Z)
| MovNotEncodable (value : Z)
| InvalidInstruction (what : string)
| LabelNotFound (name : string)
| StackNotMultipleOf16 (value : Z)
| StackMisaligned (newSP : Z)
| StackOverflowNegative
| TypeError
| DuplicateLabel (name : string)
| InvalidStringLiteral (rest : string)
| CannotParseValue (valueStr : string)
| Unsupported (opcode : string).

Record Simulator := mkSim
  { registers : gmap string Z;
    memory : gmap Z Z;
    heapPtr : Z;
    symbolTable : gmap string Symbol;
    flags : Flags;
    instructions : list Instruction;
    currentInstructionIndex : Z;
    changedRegisters : gset string;
    changedMemory : gset Z;
    stackFrames : list StackFrame;
    nextFrameId : Z;
    entryPointAddress : Z;
    entryPointLabel : option string;
    entryFunctionEndIndex : Z }.

Definition set_registers (f : gmap string Z -> gmap string Z) (s : Simulator) :=
  mkSim (f (registers s)) (memory s) (heapPtr s) (symbolTable s) (flags s)
    (instructions s) (currentInstructionIndex s) (changedRegisters s)
    (changedMemory s) (stackFrames s) (nextFrameId s) (entryPointAddress s)
    (entryPointLabel s) (entryFunctionEndIndex s).

Definition set_memory (f : gmap Z Z -> gmap Z Z) (s : Simulator) :=
  mkSim (registers s) (f (memory s)) (heapPtr s) (symbolTable s) (flags s)
    (instructions s) (currentInstructionIndex s) (changedRegisters s)
    (changedMemory s) (stackFrames s) (nextFrameId s) (entryPointAddress s)
    (entryPointLabel s) (entryFunctionEndIndex s).

Definition set_flags (f : Flags) (s : Simulator) :=
  mkSim (registers s) (memory s) (heapPtr s) (symbolTable s) f
    (instructions s) (currentInstructionIndex s) (changedRegisters s)
    (changedMemory s) (stackFrames s) (nextFrameId s) (entryPointAddress s)
    (entryPointLabel s) (entryFunctionEndIndex s).

Definition set_currentInstructionIndex (i : Z) (s : Simulator) :=
  mkSim (registers s) (memory s) (heapPtr s) (symbolTable s) (flags s)
    (instructions s) i (changedRegisters s)
    (changedMemory s) (stackFrames s) (nextFrameId s) (entryPointAddress s)
    (entryPointLabel s) (entryFunctionEndIndex s).

Definition add_changedRegisters (names : gset string) (s : Simulator) :=
  mkSim (registers s) (memory s) (heapPtr s) (symbolTable s) (flags s)
    (instructions s) (currentInstructionIndex s) (names ∪ changedRegisters s)
    (changedMemory s) (stackFrames s) (nextFrameId s) (entryPointAddress s)
    (entryPointLabel s) (entryFunctionEndIndex s).

Definition add_changedMemory (addrs : gset Z) (s : Simulator) :=
  mkSim (registers s) (memory s) (heapPtr s) (symbolTable s) (flags s)
    (instructions s) (currentInstructionIndex s) (changedRegisters s)
    (addrs ∪ changedMemory s) (stackFrames s) (nextFrameId s) (entryPointAddress s)
    (entryPointLabel s) (entryFunctionEndIndex s).

Definition set_stackFrames (fs : list StackFrame) (nid : Z) (s : Simulator) :=
  mkSim (registers s) (memory s) (heapPtr s) (symbolTable s) (flags s)
    (instructions s) (currentInstructionIndex s) (changedRegisters s)
    (changedMemory s) fs nid (entryPointAddress s)
    (entryPointLabel s) (entryFunctionEndIndex s).

(** ** Results and the state-and-exception monad

    A method either returns a value or throws; in both cases the object
    keeps the mutations made so far. *)

Inductive Res (A : Type) :=
| Ok (a : A)
| Throw (e : Error).
Arguments Ok {A} a.
Arguments Throw {A} e.

Definition M (A : Type) : Type := Simulator -> Res A * Simulator.

Definition ret {A} (a : A) : M A := fun s => (Ok a, s).
Definition throw {A} (e : Error) : M A := fun s => (Throw e, s).
Definition bind {A B} (m : M A) (k : A -> M B) : M B :=
  fun s => match m s with
           | (Ok a, s') => k a s'
           | (Throw e, s') => (Throw e, s')
           end.
Definition get : M Simulator := fun s => (Ok s, s).
Definition modify (f : Simulator -> Simulator) : M unit := fun s => (Ok tt, f s).

Notation "'let!' x ':=' m 'in' k" := (bind m (fun x => k))
  (at level 10, x name, m at level 100, k at level 200).
Notation "'exec' m 'then' k" := (bind m (fun _ => k))
  (at level 10, m at level 100, k at level 200).

Definition succeeds {A} (r : Res A * Simulator) : bool :=
  match r with (Ok _, _) => true | _ => false end.

(** ** The memory layout and [reset] *)

Definition rodata := mkRegion "rodata" 0x00100000 0x001FFFFF "Rodata" true.
Definition data := mkRegion "data" 0x00200000 0x002FFFFF "Data" false.
Definition bss := mkRegion "bss" 0x00300000 0x003FFFFF "BSS" false.
Definition heap := mkRegion "heap" 0x00400000 0x07FEFFFF "Heap" false.
Definition stack := mkRegion "stack" 0x07FF0000 0x07FFFFFF "Stack" false.

(** [Object.entries(this.memoryLayout)], in insertion order. *)
Definition memoryLayout : list Region := [rodata; data; bss; heap; stack].

Definition initialSp : Z := Z.land (r_end stack + 1) (Z.lnot 0xF).

Definition initial_registers : gmap string Z :=
  <["pc" := 0]> (<["sp" := initialSp]>
    (list_to_map (map (fun n => (xname n, 0)) (seq 0 31)))).

Definition reset : Simulator :=
  {| registers := initial_registers;
     memory := ∅;
     heapPtr := 0x00400000;
     symbolTable := ∅;
     flags := mkFlags false false false false;
     instructions := [];
     currentInstructionIndex := 0;
     changedRegisters := ∅;
     changedMemory := ∅;
     stackFrames := [];
     nextFrameId := 1;
     entryPointAddress := 0;
     entryPointLabel := None;
     entryFunctionEndIndex := -1 |}.

(** ** Register access *)

Definition reg_lookup (s : Simulator) (name : string) : Z :=
  JS.or_default (registers s !! name) 0.

Definition getRegisterValue (s : Simulator) (reg : option Register) : Z :=
  match reg with
  | Some RLr => reg_lookup s "x30"
  | Some RSp => reg_lookup s "sp"
  | Some RPc => reg_lookup s "pc"
  | Some (RObj x_type num) => reg_lookup s (xname num)
  | Some (RObj w_type num) =>
      let xValue := reg_lookup s (xname num) in
      let lower32 := Z.land xValue 0xFFFFFFFF in
      if negb (Z.land lower32 0x80000000 =? 0)
      then Z.lor lower32 0xFFFFFFFF00000000
      else lower32
  | None => 0
  end.

Definition setRegisterValue (reg : option Register) (value : Z) : M unit :=
  match reg with
  | Some RLr =>
      modify (fun s => add_changedRegisters {["w30"]}
                (add_changedRegisters {["x30"]}
                  (set_registers (fun r => <["x30" := value]> r) s)))
  | Some RSp =>
      modify (fun s => add_changedRegisters {["sp"]}
                (set_registers (fun r => <["sp" := value]> r) s))
  | Some RPc =>
      modify (fun s => add_changedRegisters {["pc"]}
                (set_registers (fun r => <["pc" := value]> r) s))
  | Some (RObj x_type num) =>
      modify (fun s => add_changedRegisters {[wname num]}
                (add_changedRegisters {[xname num]}
                  (set_registers (fun r => <[xname num := value]> r) s)))
  | Some (RObj w_type num) =>
      let lower32 := Z.land value 0xFFFFFFFF in
      modify (fun s => add_changedRegisters {[wname num]}
                (add_changedRegisters {[xname num]}
                  (set_registers (fun r => <[xname num := lower32]> r) s)))
  | None => ret tt
  end.

(** ** Memory subsystem *)

Definition in_region (r : Region) (addr : Z) : bool :=
  (r_start r <=? addr) && (addr <=? r_end r).

Definition getMemoryRegion (addr : Z) : option Region :=
  List.find (fun r => in_region r addr) memoryLayout.

(** The stack/heap collision test at the end of [validateMemoryAccess];
    [this.registers.sp] is read directly, and every comparison with an
    absent property is false.  The result is the SP to report, if the
    test throws. *)
Definition collision (s : Simulator) (addr : Z) : option Z :=
  match registers s !! "sp" with
  | None => None
  | Some currentSP =>
      if (currentSP <? r_end stack) && (r_start stack <=? currentSP)
         && in_region heap addr && (currentSP <? r_end heap)
      then Some currentSP
      else if in_region heap addr
              && (currentSP <? r_end heap) && (r_start stack <=? currentSP)
      then Some currentSP
      else None
  end.

(** The checks shared by [validateMemoryAccess] and by the
    [skipReadonlyCheck] branch of [writeMemory]: zero page, overall
    bounds, region lookup, region end.  (The alignment tests only call
    [console.warn].) *)
Definition validateMemoryAccess (addr size : Z) (isWrite : bool) : M Region :=
  fun s =>
    if (addr =? 0) || ((addr <? 0x00100000) && (0 <? addr))
    then throw (ZeroPageAccess addr) s
    else if (addr <? 0x00100000) || (0x07FFFFFF <? addr + (size - 1))
    then throw (OutOfBounds addr) s
    else match getMemoryRegion addr with
         | None => throw (NotInAnyRegion addr) s
         | Some region =>
             let endAddr := addr + (size - 1) in
             if r_end region <? endAddr
             then throw (CrossesRegionBoundary addr endAddr) s
             else if isWrite && r_readonly region
             then throw (WriteToReadOnly addr) s
             else if isWrite
             then match collision s addr with
                  | Some spv => throw (StackHeapCollision spv addr) s
                  | None => ret region s
                  end
             else ret region s
         end.

Definition validateInitWrite (addr size : Z) : M unit :=
  fun s =>
    if (addr =? 0) || ((addr <? 0x00100000) && (0 <? addr))
    then throw (ZeroPageAccess addr) s
    else if (addr <? 0x00100000) || (0x07FFFFFF <? addr + (size - 1))
    then throw (OutOfBounds addr) s
    else match getMemoryRegion addr with
         | None => throw (UnmappedRegion addr) s
         | Some region =>
             let endAddr := addr + (size - 1) in
             if r_end region <? endAddr
             then throw (CrossesRegionBoundary addr endAddr) s
             else ret tt s
         end.

(** [for (let i = 0; i < size; i++) this.memory.set(addr + i, byte)],
    [n] iterations left, starting at [i]. *)
Fixpoint store_bytes (addr value i : Z) (n : nat) (m : gmap Z Z) : gmap Z Z :=
  match n with
  | O => m
  | S n' =>
      let byte := JS.Number (Z.land (Z.shiftr value (i * 8)) 0xFF) in
      store_bytes addr value (i + 1) n' (<[JS.nadd addr i := byte]> m)
  end.

Definition writeMemory (address value size : Z) (skipReadonlyCheck : bool) : M unit :=
  exec (if negb skipReadonlyCheck
        then (let! _ := validateMemoryAccess address size true in ret tt)
        else validateInitWrite address size)
  then modify (set_memory
                 (store_bytes (JS.Number address) value 0 (Z.to_nat size))).

(** [value |= BigInt(this.memory.get(addr + i) || 0) << BigInt(i * 8)]. *)
Fixpoint load_bytes (m : gmap Z Z) (addr i : Z) (n : nat) (value : Z) : Z :=
  match n with
  | O => value
  | S n' =>
      let byte := JS.or_default (m !! JS.nadd addr i) 0 in
      load_bytes m addr (i + 1) n' (Z.lor value (Z.shiftl byte (i * 8)))
  end.

Definition readMemory (address size : Z) : M Z :=
  let! _ := validateMemoryAccess address size false in
  let! s := get in
  let value := load_bytes (memory s) (JS.Number address) 0 (Z.to_nat size) 0 in
  if (size =? 4) && negb (Z.land value 0x80000000 =? 0)
  then ret (Z.lor value 0xFFFFFFFF00000000)
  else ret value.

(** The keys [Number(address) + i], [i < size], added to [changedMemory]. *)
Fixpoint touched (addr i : Z) (n : nat) : gset Z :=
  match n with
  | O => ∅
  | S n' => {[JS.nadd addr i]} ∪ touched addr (i + 1) n'
  end.

Definition effective_offset (s : Simulator) (p : Parsed) : Z :=
  match offsetType p with
  | Some ot_scaled =>
      Z.shiftl (getRegisterValue s (offsetReg p)) (JS.or_default (shift p) 0)
  | Some ot_register => getRegisterValue s (offsetReg p)
  | _ => JS.or_default (offset p) 0
  end.

Definition executeStr (p : Parsed) : M unit :=
  match src p, base p with
  | Some _, Some _ =>
      let! s := get in
      let value := getRegisterValue s (src p) in
      let baseAddr := getRegisterValue s (base p) in
      let address := baseAddr + effective_offset s p in
      let size := if is_w (src p) then 4 else 8 in
      exec writeMemory address value size false
      then modify (add_changedMemory (touched (JS.Number address) 0 (Z.to_nat size)))
  | _, _ => ret tt
  end.

Definition executeLdr (p : Parsed) : M unit :=
  match dest p, base p with
  | Some _, Some _ =>
      let! s := get in
      let baseAddr := getRegisterValue s (base p) in
      let address := baseAddr + effective_offset s p in
      let size := if is_w (dest p) then 4 else 8 in
      let! value := readMemory address size in
      exec setRegisterValue (dest p) value
      then modify (add_changedMemory (touched (JS.Number address) 0 (Z.to_nat size)))
  | _, _ => ret tt
  end.

(** ** Stack frames *)

(** [Array.prototype.sort] with the comparator [(a, b) => b.sp - a.sp]:
    a stable sort by descending [sp].  [insert_frame x acc] puts [x]
    behind every frame of [acc] that the comparator does not order after
    it. *)
Fixpoint insert_frame (x : StackFrame) (acc : list StackFrame) : list StackFrame :=
  match acc with
  | [] => [x]
  | y :: acc' =>
      if f_sp y <? f_sp x then x :: y :: acc' else y :: insert_frame x acc'
  end.

Definition sort_frames (l : list StackFrame) : list StackFrame :=
  fold_left (fun acc x => insert_frame x acc) l [].

Fixpoint findIndex {A} (f : A -> bool) (l : list A) : option nat :=
  match l with
  | [] => None
  | y :: l' => if f y then Some O else option_map S (findIndex f l')
  end.

(** The frame list after [createStackFrame]: push, then sort. *)
Definition create_frames (id newSP size : Z) (l : list StackFrame) : list StackFrame :=
  let frame := mkFrame id newSP size (JS.nadd newSP size) in
  sort_frames (l ++ [frame]).

Definition createStackFrame (newSP size : Z) : M unit :=
  modify (fun s =>
    set_stackFrames (create_frames (nextFrameId s) newSP size (stackFrames s))
                    (nextFrameId s + 1) s).

(** The frame list after [destroyStackFrame]: splice out the first frame
    with the freed [sp] and [size], or else sort and shift. *)
Definition destroy_frames (newSP size : Z) (l : list StackFrame) : list StackFrame :=
  let frameToFree := JS.nsub newSP size in
  match findIndex (fun f => (f_sp f =? frameToFree) && (f_size f =? size)) l with
  | Some frameIndex => delete frameIndex l
  | None => tail (sort_frames l)
  end.

Definition destroyStackFrame (newSP size : Z) : M unit :=
  modify (fun s =>
    set_stackFrames (destroy_frames newSP size (stackFrames s)) (nextFrameId s) s).

(** ** Arithmetic *)

Inductive Operation := op_add | op_sub.

Definition truthy (o : option string) : option string :=
  match o with
  | Some str => if String.eqb str "" then None else Some str
  | None => None
  end.

(** The second operand of [executeAdd]: the immediate, or the low 12
    bits of a [:lo12:] label, or the second source register; [None]
    when the handler returns without doing anything. *)
Definition add_second_operand (p : Parsed) : M (option Z) :=
  fun s =>
    match immediate p with
    | Some imm => ret (Some imm) s
    | None =>
        match labelOp p, truthy (label p) with
        | Some "lo12"%string, Some l =>
            match symbolTable s !! l with
            | None => throw (LabelNotFound l) s
            | Some labelInfo => ret (Some (Z.land (sym_address labelInfo) 0xFFF)) s
            end
        | _, _ =>
            match src2 p with
            | Some _ => ret (Some (getRegisterValue s (src2 p))) s
            | None => ret None s
            end
        end
    end.

Definition executeAdd (p : Parsed) : M unit :=
  match dest p, src1 p with
  | Some d, Some _ =>
      let! s := get in
      let val1 := getRegisterValue s (src1 p) in
      let! operand := add_second_operand p in
      match operand with
      | None => ret tt
      | Some val2 =>
          if is_sp d then
            if negb (Z.rem val2 16 =? 0) then throw (StackNotMultipleOf16 val2)
            else
              let oldSP := val1 in
              let newSP := oldSP + val2 in
              if negb (Z.rem newSP 16 =? 0) then throw (StackMisaligned newSP)
              else
                exec setRegisterValue (dest p) newSP
                then destroyStackFrame (JS.Number newSP) (JS.Number val2)
          else setRegisterValue (dest p) (val1 + val2)
      end
  | _, _ => throw (InvalidInstruction "add")
  end.

Definition updateFlags (result size : Z) : M unit :=
  let mask := if size =? 64 then 0xFFFFFFFFFFFFFFFF else 0xFFFFFFFF in
  let signBit := if size =? 64 then 63 else 31 in
  modify (fun s =>
    set_flags (mkFlags (negb (Z.land result (Z.shiftl 1 signBit) =? 0))
                       (Z.land result mask =? 0)
                       (flag_C (flags s)) (flag_V (flags s))) s).

Definition executeSub (p : Parsed) (setFlags : bool) : M unit :=
  match dest p, src1 p with
  | Some d, Some _ =>
      let! s := get in
      let val1 := getRegisterValue s (src1 p) in
      let! val2 :=
        match immediate p with
        | Some imm => ret imm
        | None =>
            match src2 p with
            | Some _ => ret (getRegisterValue s (src2 p))
            | None => throw (InvalidInstruction "sub")
            end
        end in
      if is_sp d then
        if negb (Z.rem val2 16 =? 0) then throw (StackNotMultipleOf16 val2)
        else
          let oldSP := val1 in
          let newSP := oldSP - val2 in
          if negb (Z.rem newSP 16 =? 0) then throw (StackMisaligned newSP)
          else if newSP <? 0 then throw StackOverflowNegative
          else
            exec setRegisterValue (dest p) newSP
            then createStackFrame (JS.Number newSP) (JS.Number val2)
      else
        let result := val1 - val2 in
        exec setRegisterValue (dest p) result
        then if setFlags
             then updateFlags result (if is_w (dest p) then 32 else 64)
             else ret tt
  | _, _ => throw (InvalidInstruction "sub")
  end.

(** The width chosen by [executeArithmeticWithFlags], and its mask. *)
Definition flags_size (p : Parsed) : Z := if is_w (src1 p) then 32 else 64.
Definition size_mask (size : Z) : Z :=
  if size =? 64 then 0xFFFFFFFFFFFFFFFF else 0xFFFFFFFF.
Definition size_signMask (size : Z) : Z :=
  Z.shiftl 1 (if size =? 64 then 63 else 31).

Definition compute_flags (operation : Operation)
    (maskedVal1 maskedVal2 result mask signMask : Z) : Flags :=
  let val1Negative := negb (Z.land maskedVal1 signMask =? 0) in
  let val2Negative := negb (Z.land maskedVal2 signMask =? 0) in
  let resultNegative := negb (Z.land result signMask =? 0) in
  mkFlags
    (negb (Z.land result signMask =? 0))
    (Z.land result mask =? 0)
    (match operation with
     | op_add => result <? maskedVal1
     | op_sub => maskedVal2 <=? maskedVal1
     end)
    (match operation with
     | op_add => Bool.eqb val1Negative val2Negative
                 && negb (Bool.eqb resultNegative val1Negative)
     | op_sub => negb (Bool.eqb val1Negative val2Negative)
                 && negb (Bool.eqb resultNegative val1Negative)
     end).

Definition executeArithmeticWithFlags (p : Parsed) (operation : Operation)
    (writeResult : bool) : M unit :=
  match src1 p with
  | None => throw (InvalidInstruction "missing first operand")
  | Some _ =>
      let! s := get in
      let val1 := getRegisterValue s (src1 p) in
      let! val2 :=
        match immediate p with
        | Some imm => ret imm
        | None =>
            match src2 p with
            | Some _ => ret (getRegisterValue s (src2 p))
            | None => throw (InvalidInstruction "missing second operand")
            end
        end in
      let size := flags_size p in
      let mask := size_mask size in
      let signMask := size_signMask size in
      let maskedVal1 := Z.land val1 mask in
      let maskedVal2 := Z.land val2 mask in
      let result0 :=
        match operation with
        | op_add => Z.land (maskedVal1 + maskedVal2) mask
        | op_sub => Z.land (maskedVal1 - maskedVal2) mask
        end in
      let! result :=
        match writeResult, dest p with
        | true, Some d =>
            if is_sp d then
              match operation with
              | op_add =>
                  if negb (Z.rem val2 16 =? 0) then throw (StackNotMultipleOf16 val2)
                  else
                    let newSP := val1 + val2 in
                    if negb (Z.rem newSP 16 =? 0) then throw (StackMisaligned newSP)
                    else
                      exec setRegisterValue (dest p) newSP
                      then exec destroyStackFrame (JS.Number newSP) (JS.Number val2)
                      then ret (Z.land newSP mask)
              | op_sub =>
                  if negb (Z.rem val2 16 =? 0) then throw (StackNotMultipleOf16 val2)
                  else
                    let newSP := val1 - val2 in
                    if negb (Z.rem newSP 16 =? 0) then throw (StackMisaligned newSP)
                    else if newSP <? 0 then throw StackOverflowNegative
                    else
                      exec setRegisterValue (dest p) newSP
                      then exec createStackFrame (JS.Number newSP) (JS.Number val2)
                      then ret (Z.land newSP mask)
              end
            else
              exec setRegisterValue (dest p) result0
              then ret result0
        | _, _ => ret result0
        end in
      modify (set_flags
                (compute_flags operation maskedVal1 maskedVal2 result mask signMask))
  end.

(** ** [mov] and the legality of its immediate *)

(** The loop of [countBits]: test the low bit, shift right, until zero. *)
Fixpoint countBits_pos (p : positive) : Z :=
  match p with
  | xH => 1
  | xO p' => countBits_pos p'
  | xI p' => 1 + countBits_pos p'
  end.

Definition countBits (n : Z) : Z :=
  match n with
  | Zpos p => countBits_pos p
  | _ => 0
  end.

Definition mov_mask (is64Bit : bool) : Z :=
  if is64Bit then 0xFFFFFFFFFFFFFFFF else 0xFFFFFFFF.

Definition mov_shifts (is64Bit : bool) : list Z :=
  if is64Bit then [0; 16; 32; 48] else [0; 16].

(** One iteration of the MOVZ loop: does it return [true]? *)
Definition movz_at (unsignedValue mask shift : Z) : bool :=
  let shiftedMask := Z.land (Z.shiftl 0xFFFF shift) mask in
  let extracted := Z.shiftr (Z.land unsignedValue shiftedMask) shift in
  let otherBits := Z.land unsignedValue (Z.lnot shiftedMask) in
  (otherBits =? 0) && (extracted <=? 0xFFFF) && (0 <? extracted).

(** One iteration of the inner loop of the MOVN check: does the chunk at
    [checkShift] keep [isValidMovn]? *)
Definition movn_chunk_ok (unsignedValue mask shift extracted checkShift : Z) : bool :=
  let checkMask := Z.land (Z.shiftl 0xFFFF checkShift) mask in
  let chunkValue := Z.shiftr (Z.land unsignedValue checkMask) checkShift in
  if checkShift =? shift then
    let expectedChunk := Z.land (Z.lnot extracted) 0xFFFF in
    if negb (chunkValue =? expectedChunk) then false
    else if negb (chunkValue =? 0xFFFF) then
      let chunkBitsSet := countBits chunkValue in
      if (chunkBitsSet <? 16) && negb (chunkValue =? 0) then false else true
    else true
  else
    if negb (chunkValue =? 0xFFFF) then false else true.

(** One iteration of the MOVN loop: does it return [true]? *)
Definition movn_at (unsignedValue mask : Z) (shifts : list Z) (shift : Z) : bool :=
  let notValue := Z.land (Z.lnot unsignedValue) mask in
  let shiftedMask := Z.land (Z.shiftl 0xFFFF shift) mask in
  let extracted := Z.shiftr (Z.land notValue shiftedMask) shift in
  let otherBits := Z.land notValue (Z.lnot shiftedMask) in
  if (otherBits =? 0) && (0 <=? extracted) && (extracted <=? 0xFFFF) && (0 <? extracted)
  then
    let reconstructed := Z.land (Z.shiftl extracted shift) mask in
    let originalReconstructed := Z.land (Z.lnot reconstructed) mask in
    if (reconstructed =? notValue) && (originalReconstructed =? unsignedValue)
    then forallb (movn_chunk_ok unsignedValue mask shift extracted) shifts
    else false
  else false.

Definition isMovImmediateEncodable (value : Z) (is64Bit : bool) : bool :=
  let mask := mov_mask is64Bit in
  let unsignedValue := Z.land value mask in
  let shifts := mov_shifts is64Bit in
  if existsb (movz_at unsignedValue mask) shifts then true
  else if existsb (movn_at unsignedValue mask shifts) shifts then true
  else false.

Definition executeMov (p : Parsed) : M unit :=
  match dest p with
  | None => ret tt
  | Some _ =>
      match immediate p with
      | Some originalValue =>
          let is64Bit := negb (is_w (dest p)) in
          let mask := mov_mask is64Bit in
          let value := Z.land originalValue mask in
          if negb (isMovImmediateEncodable value is64Bit)
          then throw (MovNotEncodable value)
          else
            let value' :=
              if is_w (dest p) then
                let int32Value := JS.Number value in
                let signed32 := JS.ToInt32 (JS.ToInt32 int32Value) in
                let unsigned32 := JS.ToUint32 signed32 in
                unsigned32
              else value in
            setRegisterValue (dest p) value'
      | None =>
          match src p with
          | Some _ =>
              let! s := get in
              setRegisterValue (dest p) (getRegisterValue s (src p))
          | None => ret tt
          end
      end
  end.

(** ** [ret] *)

(** [findInstructionIndexByAddress], the loop from index [i] on. *)
Fixpoint find_index_from (instrs : list Instruction) (addr i : Z) : Z :=
  match instrs with
  | [] => 0
  | ins :: rest =>
      if address ins =? addr then i
      else if addr <? address ins then (if 0 <? i then i - 1 else 0)
      else find_index_from rest addr (i + 1)
  end.

Definition findInstructionIndexByAddress (s : Simulator) (addr : Z) : Z :=
  find_index_from (instructions s) addr 0.

Definition set_pc (v : Z) (s : Simulator) : Simulator :=
  set_registers (fun r => <["pc" := v]> r) s.

(** The test [executeRet] makes for "this [ret] is in the entry
    function", [pcv] being the address of the [ret]. *)
Definition in_entry_function (s : Simulator) (pcv : Z) : bool :=
  let currentIndex := findInstructionIndexByAddress s pcv in
  match truthy (entryPointLabel s) with
  | Some _ =>
      (0 <=? entryPointAddress s)
      && (let entryPointIndex :=
            findInstructionIndexByAddress s (entryPointAddress s) in
          (entryPointIndex <=? currentIndex)
          && (currentIndex <? entryFunctionEndIndex s)
          && (entryPointAddress s <=? pcv))
  | None => false
  end.

(** [executeRet] returns [false] when the program ends and [true] when
    the PC was redirected.  [this.registers.pc] is read directly;
    [BigInt(undefined)] would be a [TypeError]. *)
Definition executeRet (p : Parsed) : M bool :=
  fun s =>
    match registers s !! "pc" with
    | None => throw TypeError s
    | Some currentInstructionAddr =>
        if in_entry_function s currentInstructionAddr then (Ok false, set_pc 0 s)
        else
          let retAddr :=
            match src p with
            | Some _ => getRegisterValue s (src p)
            | None => getRegisterValue s (Some (RObj x_type 30))
            end in
          if (retAddr =? 0) || (retAddr <? 0) then (Ok false, set_pc 0 s)
          else
            let instructionIndex := findInstructionIndexByAddress s retAddr in
            if (instructionIndex <? 0)
               || (Z.of_nat (length (instructions s)) <=? instructionIndex)
            then (Ok false, set_pc 0 s)
            else (Ok true, set_currentInstructionIndex instructionIndex (set_pc retAddr s))
    end.

(** ** Branches, [executeInstruction] and [step] *)

(** [this.registers.pc = address; this.currentInstructionIndex =
    this.findInstructionIndexByAddress(this.registers.pc)] *)
Definition jump_to (addr : Z) (s : Simulator) : Simulator :=
  let s1 := set_pc addr s in
  set_currentInstructionIndex (findInstructionIndexByAddress s1 addr) s1.

Definition branch_to_label (p : Parsed) : M bool :=
  fun s =>
    match label p with
    | None => throw (LabelNotFound "") s
    | Some l =>
        match symbolTable s !! l with
        | None => throw (LabelNotFound l) s
        | Some labelInfo => (Ok true, jump_to (sym_address labelInfo) s)
        end
    end.

Definition executeB (p : Parsed) : M bool :=
  match truthy (label p) with
  | None => throw (InvalidInstruction "b")
  | Some _ => branch_to_label p
  end.

Definition conditionMet (f : Flags) (condition : string) : option bool :=
  let n := flag_N f in
  let z := flag_Z f in
  let c := flag_C f in
  let v := flag_V f in
  if String.eqb condition "eq" then Some z
  else if String.eqb condition "ne" then Some (negb z)
  else if String.eqb condition "lt" then Some (negb (Bool.eqb n v))
  else if String.eqb condition "le" then Some (z || negb (Bool.eqb n v))
  else if String.eqb condition "gt" then Some (negb z && Bool.eqb n v)
  else if String.eqb condition "ge" then Some (Bool.eqb n v)
  else if String.eqb condition "lo" then Some (negb c)
  else if String.eqb condition "ls" then Some (negb c || z)
  else if String.eqb condition "hi" then Some (c && negb z)
  else if String.eqb condition "hs" then Some c
  else if String.eqb condition "mi" then Some n
  else if String.eqb condition "pl" then Some (negb n)
  else None.

Definition executeConditionalBranch (p : Parsed) (opcode : string) : M bool :=
  match truthy (label p) with
  | None => throw (InvalidInstruction opcode)
  | Some _ =>
      let! s := get in
      match conditionMet (flags s) (String.substring 1 (String.length opcode - 1) opcode) with
      | None => throw (InvalidInstruction opcode)
      | Some true => branch_to_label p
      | Some false => ret false
      end
  end.

Definition executeCbz (p : Parsed) (opcode : string) : M bool :=
  match src p, truthy (label p) with
  | Some _, Some _ =>
      let! s := get in
      let value := getRegisterValue s (src p) in
      let isZero := value =? 0 in
      let shouldBranch :=
        (String.eqb opcode "cbz" && isZero) || (String.eqb opcode "cbnz" && negb isZero) in
      if shouldBranch then branch_to_label p else ret false
  | _, _ => throw (InvalidInstruction opcode)
  end.

Definition builtInFunctions : list string :=
  ["printf"; "puts"; "putchar"; "scanf"; "gets"; "fgets"; "getchar"]%string.

Definition conditionalBranches : list string :=
  ["beq"; "bne"; "blt"; "ble"; "bgt"; "bge"; "blo"; "bls"; "bhi"; "bhs"; "bmi"; "bpl"]%string.

Section Engine.

(** The handlers that no property below looks into: the built-in I/O
    functions, the logical and shift operations, and [adr]/[adrp]. *)
Variable executeBuiltInFunctionSync : string -> M unit.
Variable executeLogical : Parsed -> string -> M unit.
Variable executeShift : Parsed -> string -> M unit.
Variable executeAdr : Parsed -> Z -> M unit.
Variable executeAdrp : Parsed -> Z -> M unit.

Definition executeBl (p : Parsed) : M bool :=
  match truthy (label p) with
  | None => throw (InvalidInstruction "bl")
  | Some l =>
      fun s =>
        match registers s !! "pc" with
        | None => throw TypeError s
        | Some pcv =>
            let returnAddress := pcv + 4 in
            if existsb (String.eqb l) builtInFunctions then
              (exec setRegisterValue (Some (RObj x_type 30)) returnAddress
               then exec executeBuiltInFunctionSync l
               then fun s' => (Ok true, jump_to returnAddress s')) s
            else
              match symbolTable s !! l with
              | None => throw (LabelNotFound l) s
              | Some labelInfo =>
                  (exec setRegisterValue (Some (RObj x_type 30)) returnAddress
                   then fun s' => (Ok true, jump_to (sym_address labelInfo) s')) s
              end
        end
  end.

Definition clear_changed (s : Simulator) : Simulator :=
  mkSim (registers s) (memory s) (heapPtr s) (symbolTable s) (flags s)
    (instructions s) (currentInstructionIndex s) ∅ ∅ (stackFrames s)
    (nextFrameId s) (entryPointAddress s) (entryPointLabel s)
    (entryFunctionEndIndex s).

(** The [switch] of [executeInstruction]: [None] when the handler made
    [executeInstruction] return [false] (a [ret] that ends the program),
    else whether the PC was modified. *)
Definition dispatch (p : Parsed) (instructionAddress : Z) : M (option bool) :=
  let opcode := opcode p in
  let plain (m : M unit) : M (option bool) := exec m then ret (Some false) in
  let branch (m : M bool) : M (option bool) := let! b := m in ret (Some b) in
  if String.eqb opcode "mov" then plain (executeMov p)
  else if String.eqb opcode "add" then plain (executeAdd p)
  else if String.eqb opcode "adds" then plain (executeArithmeticWithFlags p op_add true)
  else if String.eqb opcode "sub" then plain (executeSub p false)
  else if String.eqb opcode "subs" then plain (executeArithmeticWithFlags p op_sub true)
  else if String.eqb opcode "str" then plain (executeStr p)
  else if String.eqb opcode "ldr" then plain (executeLdr p)
  else if String.eqb opcode "adr" then plain (executeAdr p instructionAddress)
  else if String.eqb opcode "adrp" then plain (executeAdrp p instructionAddress)
  else if String.eqb opcode "cmp" then plain (executeArithmeticWithFlags p op_sub false)
  else if String.eqb opcode "cmn" then plain (executeArithmeticWithFlags p op_add false)
  else if existsb (String.eqb opcode) ["and"; "ands"; "orr"; "eor"; "bic"]%string
  then plain (executeLogical p opcode)
  else if existsb (String.eqb opcode) ["lsl"; "lsr"; "asr"; "ror"; "mvn"]%string
  then plain (executeShift p opcode)
  else if String.eqb opcode "b" then branch (executeB p)
  else if String.eqb opcode "bl" then branch (executeBl p)
  else if String.eqb opcode "ret" then
    let! pcModified := executeRet p in
    ret (if pcModified then Some true else None)
  else if String.eqb opcode "cbz" || String.eqb opcode "cbnz"
  then branch (executeCbz p opcode)
  else if existsb (String.eqb opcode) conditionalBranches
  then branch (executeConditionalBranch p opcode)
  else throw (Unsupported opcode).

Definition executeInstruction (instruction : Instruction) : M bool :=
  match parsed instruction with
  | None => ret false
  | Some p =>
      exec modify clear_changed then
      let! s := get in
      let instructionAddress :=
        if address instruction =? 0
        then JS.or_default (registers s !! "pc") 0
        else address instruction in
      let! outcome := dispatch p instructionAddress in
      match outcome with
      | None => ret false
      | Some pcModified =>
          exec (if pcModified then ret tt
                else modify (jump_to (instructionAddress + 4)))
          then ret true
      end
  end.

(** [this.instructions[i]] *)
Definition instruction_at (s : Simulator) (i : Z) : option Instruction :=
  if i <? 0 then None else instructions s !! Z.to_nat i.

(** The branch of [step] that skips an entry without a parsed record. *)
Definition skip_invalid : M bool :=
  fun s =>
    let index := currentInstructionIndex s + 1 in
    let s1 := set_currentInstructionIndex index s in
    if index <? Z.of_nat (length (instructions s1)) then
      match instruction_at s1 index with
      | Some nextInstruction =>
          (Ok true,
           set_pc (if address nextInstruction =? 0 then index * 4
                   else address nextInstruction) s1)
      | None => (Throw TypeError, s1)
      end
    else (Ok true, s1).

(** [step]: [false] when the program has ended. *)
Definition step : M bool :=
  fun s =>
    let index := currentInstructionIndex s in
    if Z.of_nat (length (instructions s)) <=? index then (Ok false, s)
    else
      match instruction_at s index with
      | None => skip_invalid s
      | Some instruction =>
          match parsed instruction with
          | None => skip_invalid s
          | Some _ =>
              let instructionAddress :=
                if address instruction =? 0 then index * 4 else address instruction in
              (let! shouldContinue := executeInstruction instruction in
               if negb shouldContinue then ret false
               else
                 let! s' := get in
                 if Z.of_nat (length (instructions s')) <=? currentInstructionIndex s'
                 then ret false
                 else if match registers s' !! "pc" with
                         | Some pcv => pcv =? 0
                         | None => false
                         end
                 then ret false
                 else ret true) (set_pc instructionAddress s)
          end
      end.

(** [n] calls of [step], stopping at the first that does not return
    [true]. *)
Fixpoint steps (n : nat) : M bool :=
  match n with
  | O => ret true
  | S n' => let! continue := step in if continue then steps n' else ret false
  end.

End Engine.

(** ** The two-pass assembler ([ARM64Parser]) *)

Module Parser.

(** *** Characters and strings

    Lines are lists of characters; the functions below are the string
    methods and regular expressions the parser uses, on ASCII input.
    A character of a line is one code unit of the JavaScript string,
    with a code below 256.  Where the source takes the number of a code
    unit ([charCodeAt]), the model continues with numbers, so that the
    loop that emits the data of a string is stated for every code unit,
    also for those above 255 that a line of this model cannot hold. *)

Definition chars : Type := list ascii.

Definition code (c : ascii) : nat := nat_of_ascii c.

(** [str.charCodeAt(i)] for every index [i] of [str]. *)
Definition charCodes (str : chars) : list Z := map (fun c => Z.of_nat (code c)) str.

(** [\s] *)
Definition is_ws (c : ascii) : bool :=
  Nat.eqb (code c) 32 || (Nat.leb 9 (code c) && Nat.leb (code c) 13).

Definition is_digit (c : ascii) : bool :=
  Nat.leb 48 (code c) && Nat.leb (code c) 57.

Definition is_upper (c : ascii) : bool :=
  Nat.leb 65 (code c) && Nat.leb (code c) 90.

Definition is_lower (c : ascii) : bool :=
  Nat.leb 97 (code c) && Nat.leb (code c) 122.

(** [[a-zA-Z_]] and [[a-zA-Z0-9_]] *)
Definition is_ident_start (c : ascii) : bool :=
  is_upper c || is_lower c || Nat.eqb (code c) 95.

Definition is_ident_char (c : ascii) : bool :=
  is_ident_start c || is_digit c.

Definition lower (c : ascii) : ascii :=
  if is_upper c then ascii_of_nat (code c + 32) else c.

Definition toLowerCase (l : chars) : chars := map lower l.

Fixpoint drop_ws (l : chars) : chars :=
  match l with
  | c :: l' => if is_ws c then drop_ws l' else l
  | [] => []
  end.

Definition trim (l : chars) : chars := rev (drop_ws (rev (drop_ws l))).

Definition of_string (str : string) : chars := String.list_ascii_of_string str.
Definition to_string (l : chars) : string := String.string_of_list_ascii l.

(** [removeComments]: cut at the first [//] or [;]. *)
Fixpoint removeComments (l : chars) : chars :=
  match l with
  | [] => []
  | c :: l' =>
      if Nat.eqb (code c) 59 then []
      else if Nat.eqb (code c) 47
              && match l' with c' :: _ => Nat.eqb (code c') 47 | [] => false end
      then []
      else c :: removeComments l'
  end.

(** [l] starts with [pat], ignoring case ([pat] in lower case): the rest. *)
Fixpoint strip_prefix_ci (pat l : chars) : option chars :=
  match pat, l with
  | [], _ => Some l
  | p :: pat', c :: l' =>
      if Ascii.eqb p (lower c) then strip_prefix_ci pat' l' else None
  | _ :: _, [] => None
  end.

(** The first name of [names] that [l] starts with (the order of a
    regular-expression alternation), with the rest. *)
Fixpoint first_prefix_ci (names : list string) (l : chars) : option (string * chars) :=
  match names with
  | [] => None
  | name :: names' =>
      match strip_prefix_ci (of_string name) l with
      | Some rest => Some (name, rest)
      | None => first_prefix_ci names' l
      end
  end.

(** The section directive: a dot, one of [text], [rodata], [data],
    [bss] in any case, then only white space. *)
Inductive Sect := SText | SRodata | SData | SBss.

Definition sect_name (sec : Sect) : string :=
  match sec with
  | SText => "text" | SRodata => "rodata" | SData => "data" | SBss => "bss"
  end.

Definition sectionMatch (trimmed : chars) : option Sect :=
  match trimmed with
  | c :: l =>
      if Nat.eqb (code c) 46 then
        let all_ws rest := match drop_ws rest with [] => true | _ => false end in
        match strip_prefix_ci (of_string "text") l with
        | Some rest => if all_ws rest then Some SText else None
        | None =>
        match strip_prefix_ci (of_string "rodata") l with
        | Some rest => if all_ws rest then Some SRodata else None
        | None =>
        match strip_prefix_ci (of_string "data") l with
        | Some rest => if all_ws rest then Some SData else None
        | None =>
        match strip_prefix_ci (of_string "bss") l with
        | Some rest => if all_ws rest then Some SBss else None
        | None => None
        end end end end
      else None
  | [] => None
  end.

(** The [.global] directive: [.global] in any case, white space, and
    a non-empty remainder, which is the result. *)
Definition globalMatch (trimmed : chars) : option chars :=
  match strip_prefix_ci (of_string ".global") trimmed with
  | Some (c :: rest) =>
      if is_ws c then
        match drop_ws rest with
        | [] =>
            (* [\s+] gives back its last character to [(.+)] *)
            match rest with [] => None | _ => Some [List.last (c :: rest) c] end
        | r => Some r
        end
      else None
  | _ => None
  end.

Fixpoint span (f : ascii -> bool) (l : chars) : chars * chars :=
  match l with
  | c :: l' => if f c then let (a, b) := span f l' in (c :: a, b) else ([], l)
  | [] => ([], [])
  end.

(** A leading label: an identifier (a letter or underscore, then
    letters, digits and underscores), optional white space, a colon,
    optional white space; the result is the label and what follows. *)
Definition labelMatch (trimmed : chars) : option (chars * chars) :=
  match trimmed with
  | c :: l =>
      if is_ident_start c then
        let (name, rest) := span is_ident_char l in
        match drop_ws rest with
        | colon :: rest' =>
            if Nat.eqb (code colon) 58 then Some (c :: name, drop_ws rest') else None
        | [] => None
        end
      else None
  | [] => None
  end.

(** [str.split(',')] *)
Fixpoint split_commas (l : chars) (cur : chars) : list chars :=
  match l with
  | [] => [rev cur]
  | c :: l' =>
      if Nat.eqb (code c) 44 then rev cur :: split_commas l' []
      else split_commas l' (c :: cur)
  end.

(** [rest.split(',').map(v => v.trim()).filter(v => v)] *)
Definition values_of (rest : chars) : list chars :=
  List.filter (fun v => match v with [] => false | _ => true end)
              (map trim (split_commas rest [])).

(** [line.split(/\s+/).filter(p => p.length > 0)] *)
Fixpoint split_ws (l : chars) (cur : chars) : list chars :=
  match l with
  | [] => match cur with [] => [] | _ => [rev cur] end
  | c :: l' =>
      if is_ws c
      then match cur with [] => split_ws l' [] | _ => rev cur :: split_ws l' [] end
      else split_ws l' (c :: cur)
  end.

(** [parseInt]: optional white space and sign, then the longest run of
    digits; [None] is [NaN].  Without a radix a [0x] prefix selects
    base 16.  The value is a Number. *)
Definition digit_value (base : Z) (c : ascii) : option Z :=
  let n := Z.of_nat (code c) in
  let v := if is_digit c then Some (n - 48)
           else if is_lower c then Some (n - 87)
           else if is_upper c then Some (n - 55)
           else None in
  match v with
  | Some d => if d <? base then Some d else None
  | None => None
  end.

Fixpoint digits (base : Z) (l : chars) (acc : option Z) : option Z :=
  match l with
  | c :: l' =>
      match digit_value base c with
      | Some d => digits base l' (Some (match acc with Some a => a * base + d | None => d end))
      | None => acc
      end
  | [] => acc
  end.

Definition has_0x (l : chars) : option chars :=
  match l with
  | z :: x :: rest =>
      if Nat.eqb (code z) 48 && (Nat.eqb (code x) 120 || Nat.eqb (code x) 88)
      then Some rest else None
  | _ => None
  end.

Definition parseInt (radix10 : bool) (l : chars) : option Z :=
  let l := drop_ws l in
  let (negative, l) :=
    match l with
    | c :: l' =>
        if Nat.eqb (code c) 45 then (true, l')
        else if Nat.eqb (code c) 43 then (false, l')
        else (false, l)
    | [] => (false, l)
    end in
  let magnitude :=
    if radix10 then digits 10 l None
    else match has_0x l with
         | Some rest => digits 16 rest None
         | None => digits 10 l None
         end in
  option_map (fun m => JS.Number (if negative then - m else m)) magnitude.

(** [BigInt(str)] on a string that starts with [0x]: every character
    after the prefix must be a hexadecimal digit, and there must be
    one; [None] is the [SyntaxError]. *)
Definition BigInt_hex (l : chars) : option Z :=
  match has_0x l with
  | Some rest =>
      if forallb (fun c => match digit_value 16 c with Some _ => true | None => false end) rest
      then digits 16 rest None
      else None
  | None => None
  end.

(** A string literal at the start of [rest], in double or in single
    quotes, in which a backslash takes the next character with it: the
    raw text between the quotes. *)
Fixpoint quoted_body (q : ascii) (l : chars) : option chars :=
  match l with
  | [] => None
  | c :: l' =>
      if Ascii.eqb c q then Some []
      else if Nat.eqb (code c) 92 then
        match l' with
        | c' :: l'' => option_map (fun b => c :: c' :: b) (quoted_body q l'')
        | [] => None
        end
      else option_map (fun b => c :: b) (quoted_body q l')
  end.

Definition stringMatch (rest : chars) : option chars :=
  match rest with
  | q :: l =>
      if (Nat.eqb (code q) 34 || Nat.eqb (code q) 39) then quoted_body q l else None
  | [] => None
  end.

(** The characters of the string after escape processing. *)
Fixpoint processEscapes (raw : chars) : chars :=
  match raw with
  | [] => []
  | c :: raw' =>
      if Nat.eqb (code c) 92 then
        match raw' with
        | e :: raw'' =>
            (if Nat.eqb (code e) 110 then ascii_of_nat 10
             else if Nat.eqb (code e) 116 then ascii_of_nat 9
             else if Nat.eqb (code e) 48 then ascii_of_nat 0
             else e) :: processEscapes raw''
        | [] => [c]
        end
      else c :: processEscapes raw'
  end.

(** The data directive at the start of [lineAfterLabel], tried in the
    order of the alternation, with the trimmed remainder. *)
Definition directiveMatch (names : list string) (lineAfterLabel : chars)
  : option (string * chars) :=
  match lineAfterLabel with
  | c :: l =>
      if Nat.eqb (code c) 46
      then option_map (fun '(name, rest) => (name, trim rest)) (first_prefix_ci names l)
      else None
  | [] => None
  end.

Definition pass1_directives : list string :=
  ["quad"; "word"; "hword"; "byte"; "skip"; "align"; "asciz"; "string"]%string.

Definition pass2_directives : list string :=
  ["quad"; "word"; "hword"; "byte"; "skip"; "align"; "global"; "asciz"; "string"]%string.

Definition startsWith_dot (l : chars) : bool :=
  match l with c :: _ => Nat.eqb (code c) 46 | [] => false end.

(** *** Location counters *)

Record Counters := mkCounters { c_rodata : Z; c_data : Z; c_bss : Z; c_text : Z }.

Definition counter (cs : Counters) (sec : Sect) : Z :=
  match sec with
  | SText => c_text cs | SRodata => c_rodata cs | SData => c_data cs | SBss => c_bss cs
  end.

Definition set_counter (cs : Counters) (sec : Sect) (v : Z) : Counters :=
  match sec with
  | SText => mkCounters (c_rodata cs) (c_data cs) (c_bss cs) v
  | SRodata => mkCounters v (c_data cs) (c_bss cs) (c_text cs)
  | SData => mkCounters (c_rodata cs) v (c_bss cs) (c_text cs)
  | SBss => mkCounters (c_rodata cs) (c_data cs) v (c_text cs)
  end.

Definition initialCounters : Counters :=
  mkCounters (r_start rodata) (r_start data) (r_start bss) 0.

(** [(counter + mask) & ~mask] with [mask = (1 << alignPower) - 1],
    [alignPower = parseInt(rest) || 3]. *)
Definition align_counter (rest : chars) (c : Z) : Z :=
  let alignPower := JS.or_default (parseInt false rest) 3 in
  let alignBytes := Z.shiftl 1 alignPower in
  let mask := alignBytes - 1 in
  Z.land (c + mask) (Z.lnot mask).

(** *** Pass 1: [buildSymbolTable] *)

Record Pass1 := mkPass1
  { p1_symbolTable : gmap string Symbol;
    p1_globalSymbols : gset string;
    p1_currentSection : Sect;
    p1_sectionCounters : Counters }.

Definition pass1_init : Pass1 := mkPass1 ∅ ∅ SText initialCounters.

(** The counter of the current section after a data directive. *)
Definition pass1_data (directive : string) (rest : chars) (c : Z) : Z :=
  if String.eqb directive "align" then align_counter rest c
  else if String.eqb directive "asciz" || String.eqb directive "string" then
    match stringMatch rest with
    | Some rawStr => c + (Z.of_nat (length (processEscapes rawStr)) + 1)
    | None => c
    end
  else if String.eqb directive "quad" then c + Z.of_nat (length (values_of rest)) * 8
  else if String.eqb directive "word" then c + Z.of_nat (length (values_of rest)) * 4
  else if String.eqb directive "hword" then c + Z.of_nat (length (values_of rest)) * 2
  else if String.eqb directive "byte" then c + Z.of_nat (length (values_of rest))
  else if String.eqb directive "skip" then
    match parseInt false rest with
    | Some size => if 0 <? size then c + size else c
    | None => c
    end
  else c.

(** "Advance location counter based on directive or instruction". *)
Definition pass1_advance (st : Pass1) (trimmed lineAfterLabel : chars) : Pass1 :=
  let cs := p1_sectionCounters st in
  let sec := p1_currentSection st in
  let cs' :=
    match sec with
    | SText => set_counter cs SText (c_text cs + 4)
    | _ =>
        match directiveMatch pass1_directives lineAfterLabel with
        | Some (directive, rest) =>
            set_counter cs sec (pass1_data directive rest (counter cs sec))
        | None =>
            if negb (startsWith_dot trimmed)
            then set_counter cs SText (c_text cs + 4)
            else cs
        end
    end in
  mkPass1 (p1_symbolTable st) (p1_globalSymbols st) sec cs'.

Definition pass1_line (st : Pass1) (line : string) : Res Pass1 :=
  let trimmed := trim (removeComments (of_string line)) in
  match trimmed with
  | [] => Ok st
  | _ =>
      match sectionMatch trimmed with
      | Some sec =>
          Ok (mkPass1 (p1_symbolTable st) (p1_globalSymbols st) sec (p1_sectionCounters st))
      | None =>
          match globalMatch trimmed with
          | Some symbols =>
              let names := map (fun x => to_string (trim x)) (split_commas symbols []) in
              Ok (mkPass1 (p1_symbolTable st)
                          (list_to_set names ∪ p1_globalSymbols st)
                          (p1_currentSection st) (p1_sectionCounters st))
          | None =>
              match labelMatch trimmed with
              | Some (name, rest) =>
                  let labelName := to_string name in
                  let lineAfterLabel := trim rest in
                  let sec := p1_currentSection st in
                  match p1_symbolTable st !! labelName with
                  | Some _ => Throw (DuplicateLabel labelName)
                  | None =>
                      let info :=
                        mkSymbol (counter (p1_sectionCounters st) sec) (sect_name sec)
                                 (match sec with SText => "code" | _ => "data" end)
                                 (bool_decide (labelName ∈ p1_globalSymbols st)) in
                      let st' := mkPass1 (<[labelName := info]> (p1_symbolTable st))
                                         (p1_globalSymbols st) sec (p1_sectionCounters st) in
                      match lineAfterLabel with
                      | [] => Ok st'
                      | _ => Ok (pass1_advance st' trimmed lineAfterLabel)
                      end
                  end
              | None => Ok (pass1_advance st trimmed trimmed)
              end
          end
      end
  end.

Fixpoint run_lines {S : Type} (step : S -> string -> Res S) (st : S) (lines : list string)
  : Res S :=
  match lines with
  | [] => Ok st
  | line :: lines' =>
      match step st line with
      | Ok st' => run_lines step st' lines'
      | Throw e => Throw e
      end
  end.

Definition buildSymbolTable (lines : list string) : Res Pass1 :=
  run_lines pass1_line pass1_init lines.

(** *** The instruction parser, as far as Pass 2 depends on it *)

Definition plain_opcodes : list string :=
  ["mov"; "add"; "adds"; "sub"; "subs"; "cmp"; "cmn"; "and"; "ands"; "orr";
   "eor"; "bic"; "lsl"; "lsr"; "asr"; "ror"; "mvn"; "b"; "bl"; "cbz"; "cbnz";
   "str"; "ldr"; "adr"; "adrp"]%string.

Definition condition_suffixes : list string :=
  ["eq"; "ne"; "lt"; "le"; "gt"; "ge"; "lo"; "ls"; "hi"; "hs"; "mi"; "pl"]%string.

Definition is_conditional_branch (opcode : string) : bool :=
  existsb (fun c => String.eqb opcode ("b" +:+ c)) condition_suffixes.

Definition string_in (x : string) (l : list string) : bool :=
  existsb (String.eqb x) l.

Section Passes.

(** The operand parsing of the cases of [parseInstruction] that have
    operands, given the opcode and the white-space separated parts; it
    returns the record or throws. *)
Variable parseOperands : string -> list string -> Res Parsed.

(** [null] is [Ok None]. *)
Definition parseInstruction (line : chars) : Res (option Parsed) :=
  let line := trim (removeComments line) in
  match split_ws line [] with
  | [] => Ok None
  | first :: rest =>
      let opcode := to_string (toLowerCase first) in
      if String.eqb opcode "ret" then Ok (Some (parsed0 "ret"))
      else if string_in opcode plain_opcodes || is_conditional_branch opcode then
        match parseOperands opcode (map to_string (first :: rest)) with
        | Ok p => Ok (Some p)
        | Throw e => Throw e
        end
      else Ok None
  end.

(** *** Pass 2: [parseProgram] *)

Record DataInit := mkDataInit
  { di_address : Z; di_value : Z; di_size : Z; di_section : Sect; di_isBSS : bool }.

Record Pass2 := mkPass2
  { p2_instructions : list Instruction;
    p2_dataInitializations : list DataInit;
    p2_currentSection : Sect;
    p2_sectionCounters : Counters }.

Definition pass2_init : Pass2 := mkPass2 [] [] SText initialCounters.

Definition parseValue (symbolTable : gmap string Symbol) (valueStr : chars) : Res Z :=
  let valueStr := trim valueStr in
  let fail := Throw (CannotParseValue (to_string valueStr)) in
  match has_0x valueStr with
  | Some _ => match BigInt_hex valueStr with Some v => Ok v | None => fail end
  | None =>
      match valueStr with
      | c :: numStr' =>
          if Nat.eqb (code c) 35 then
            let numStr := trim numStr' in
            match has_0x numStr with
            | Some _ => match BigInt_hex numStr with Some v => Ok v | None => fail end
            | None => match parseInt true numStr with Some v => Ok v | None => fail end
            end
          else
            match parseInt true valueStr with
            | Some num => Ok num
            | None =>
                match symbolTable !! to_string valueStr with
                | Some info => Ok (sym_address info)
                | None => fail
                end
            end
      | [] => fail
      end
  end.

(** The loop over the code units of a string: one initialisation of
    size 1 with the code unit as value for each, then the terminator.
    The code units are numbers, up to 0xFFFF in JavaScript. *)
Fixpoint string_inits (sec : Sect) (codeUnits : list Z) (addr : Z) : list DataInit :=
  match codeUnits with
  | [] => [mkDataInit addr 0 1 sec false]
  | c :: codeUnits' =>
      mkDataInit addr c 1 sec false :: string_inits sec codeUnits' (addr + 1)
  end.

(** The loop over the values of [.quad], [.word], [.hword], [.byte]. *)
Fixpoint value_inits (symbolTable : gmap string Symbol) (sec : Sect) (size : Z)
    (valueStrings : list chars) (addr : Z) : Res (list DataInit * Z) :=
  match valueStrings with
  | [] => Ok ([], addr)
  | valueStr :: more =>
      match parseValue symbolTable valueStr with
      | Throw e => Throw e
      | Ok value =>
          match value_inits symbolTable sec size more (addr + size) with
          | Throw e => Throw e
          | Ok (inits, addr') => Ok (mkDataInit addr value size sec false :: inits, addr')
          end
      end
  end.

Definition pass2_directive (symbolTable : gmap string Symbol) (st : Pass2)
    (directive : string) (rest : chars) : Res Pass2 :=
  let sec := p2_currentSection st in
  let cs := p2_sectionCounters st in
  let c := counter cs sec in
  let with_data inits c' :=
    mkPass2 (p2_instructions st) (p2_dataInitializations st ++ inits) sec
            (set_counter cs sec c') in
  if String.eqb directive "global" then Ok st
  else if String.eqb directive "align" then Ok (with_data [] (align_counter rest c))
  else if String.eqb directive "asciz" || String.eqb directive "string" then
    match stringMatch rest with
    | Some rawStr =>
        let processedStr := processEscapes rawStr in
        Ok (with_data (string_inits sec (charCodes processedStr) c)
                      (c + Z.of_nat (length processedStr) + 1))
    | None => Throw (InvalidStringLiteral (to_string rest))
    end
  else if String.eqb directive "quad" || String.eqb directive "word"
          || String.eqb directive "hword" || String.eqb directive "byte" then
    let size := if String.eqb directive "quad" then 8
                else if String.eqb directive "word" then 4
                else if String.eqb directive "hword" then 2 else 1 in
    match value_inits symbolTable sec size (values_of rest) c with
    | Throw e => Throw e
    | Ok (inits, c') => Ok (with_data inits c')
    end
  else if String.eqb directive "skip" then
    match parseInt false rest with
    | Some size =>
        if 0 <? size then
          Ok (with_data (match sec with
                         | SBss => [mkDataInit c 0 size sec true]
                         | _ => []
                         end) (c + size))
        else Ok st
    | None => Ok st
    end
  else Ok st.

Definition pass2_line (symbolTable : gmap string Symbol) (st : Pass2) (line : string)
  : Res Pass2 :=
  let trimmed := trim (removeComments (of_string line)) in
  match trimmed with
  | [] => Ok st
  | _ =>
      match sectionMatch trimmed with
      | Some sec =>
          Ok (mkPass2 (p2_instructions st) (p2_dataInitializations st) sec
                      (p2_sectionCounters st))
      | None =>
          let lineAfterLabel :=
            match labelMatch trimmed with
            | Some (_, rest) => trim rest
            | None => trimmed
            end in
          if startsWith_dot lineAfterLabel then
            match directiveMatch pass2_directives lineAfterLabel with
            | Some (directive, rest) => pass2_directive symbolTable st directive rest
            | None => Ok st
            end
          else
            match p2_currentSection st with
            | SText =>
                match parseInstruction trimmed with
                | Throw e => Throw e
                | Ok None => Ok st
                | Ok (Some p) =>
                    let cs := p2_sectionCounters st in
                    Ok (mkPass2
                          (p2_instructions st
                           ++ [mkInstruction (to_string trimmed) (c_text cs) (Some p)])
                          (p2_dataInitializations st) SText
                          (set_counter cs SText (c_text cs + 4)))
                end
            | _ => Ok st
            end
      end
  end.

Definition parseProgram (lines : list string) (symbolTable : gmap string Symbol)
  : Res Pass2 :=
  run_lines (pass2_line symbolTable) pass2_init lines.

End Passes.

End Parser.

(** * Statements of the specification and concrete inputs

    The predicates in which the properties are stated, the claims of
    the specification that the code does not satisfy as they are
    worded, and the parsed instructions and machine states at which
    properties are evaluated. *)

(** ** Registers and return *)

(** The stored 64-bit value of general register [n]. *)
Definition stored (n : nat) (st : Simulator) : Z := reg_lookup st (xname n).

(** The return address [executeRet] takes: the named register, or
    register 30. *)
Definition return_address (s : Simulator) (p : Parsed) : Z :=
  match src p with
  | Some _ => getRegisterValue s (src p)
  | None => getRegisterValue s (Some (RObj x_type 30))
  end.

(** ** Memory *)

(** The byte range of an access lies inside one region of the layout. *)
Definition within_one_region (addr size : Z) : Prop :=
  exists r, In r memoryLayout /\ r_start r <= addr /\ addr + (size - 1) <= r_end r.

(** The access widths of the instruction set. *)
Definition access_size (size : Z) : Prop :=
  size = 1 \/ size = 2 \/ size = 4 \/ size = 8.

(** [sub sp, sp, #16], [add sp, sp, #16], [str x0, [sp]] and
    [ldr x1, [sp]] as [parseInstruction] builds them. *)
Definition sub_sp_16 : Parsed :=
  mkParsed "sub" (Some RSp) None (Some RSp) None (Some 16) None None None None None None None.

Definition add_sp_16 : Parsed :=
  mkParsed "add" (Some RSp) None (Some RSp) None (Some 16) None None None None None None None.

Definition str_x0_sp : Parsed :=
  mkParsed "str" None (Some (RObj x_type 0)) None None None None None
           (Some RSp) None None (Some ot_immediate) (Some 0).

Definition ldr_x1_sp : Parsed :=
  mkParsed "ldr" (Some (RObj x_type 1)) None None None None None None
           (Some RSp) None None (Some ot_immediate) (Some 0).

(** The address a [str] or [ldr] accesses: base plus offset. *)
Definition effective_address (s : Simulator) (p : Parsed) : Z :=
  getRegisterValue s (base p) + effective_offset s p.

(** ** Arithmetic and flags *)

(** [toSigned(value, size)] of the source: the two's-complement reading
    of a masked value. *)
Definition toSigned (value size : Z) : Z :=
  let signBit := if size =? 64 then 63 else 31 in
  if negb (Z.land value (Z.shiftl 1 signBit) =? 0)
  then value - Z.shiftl 1 size
  else value.

(** The second operand as the arithmetic handlers pick it: the
    immediate if there is one, else the second source register. *)
Definition operand2 (s : Simulator) (p : Parsed) : option Z :=
  match immediate p with
  | Some imm => Some imm
  | None =>
      match src2 p with
      | Some _ => Some (getRegisterValue s (src2 p))
      | None => None
      end
  end.

(** The masked result of the operation at width [w]. *)
Definition masked_result (operation : Operation) (w m1 m2 : Z) : Z :=
  match operation with
  | op_add => (m1 + m2) mod 2 ^ w
  | op_sub => (m1 - m2) mod 2 ^ w
  end.

(** The sign of a [w]-bit value: its top bit. *)
Definition sign_bit (w x : Z) : bool := Z.testbit x (w - 1).

(** The flag rules as the specification words them, for masked operands
    [m1], [m2] and masked result [r] at width [w]. *)
Definition spec_flags (operation : Operation) (w m1 m2 r : Z) : Flags :=
  mkFlags
    (sign_bit w r)
    (r =? 0)
    (match operation with
     | op_add => r <? m1
     | op_sub => m2 <=? m1
     end)
    (match operation with
     | op_add => Bool.eqb (sign_bit w m1) (sign_bit w m2)
                 && negb (Bool.eqb (sign_bit w r) (sign_bit w m1))
     | op_sub => negb (Bool.eqb (sign_bit w m1) (sign_bit w m2))
                 && negb (Bool.eqb (sign_bit w r) (sign_bit w m1))
     end).

(** [cmp x0, x1] as parsed, and a simulator with x0 = 5 and x1 = 10. *)
Definition cmp_x0_x1 : Parsed :=
  mkParsed "cmp" None None (Some (RObj x_type 0)) (Some (RObj x_type 1))
           None None None None None None None None.

Definition sim_5_10 : Simulator :=
  set_registers (fun r => <["x1" := 10]> (<["x0" := 5]> r)) reset.

(** The width rule in the specification's words: 32 bits if either
    operand register is a w view, 64 bits otherwise. *)
Definition spec_operand_width (p : Parsed) : Z :=
  if is_w (src1 p) || is_w (src2 p) then 32 else 64.

(** The second operand of [executeAdd], which also accepts [:lo12:label]. *)
Definition add_operand (s : Simulator) (p : Parsed) : option Z :=
  match immediate p with
  | Some imm => Some imm
  | None =>
      match labelOp p, truthy (label p) with
      | Some "lo12"%string, Some l =>
          option_map (fun labelInfo => Z.land (sym_address labelInfo) 0xFFF)
                     (symbolTable s !! l)
      | _, _ =>
          match src2 p with
          | Some _ => Some (getRegisterValue s (src2 p))
          | None => None
          end
      end
  end.

(** What a register object receives when [value] is written to it. *)
Definition written (type : RegType) (value : Z) : Z :=
  match type with
  | x_type => value
  | w_type => value mod 2 ^ 32
  end.

(** The claim as the specification states it, for one run of a handler
    [run] implementing [operation] on a general-register destination:
    the register ends up holding the result masked to
    [spec_operand_width]. *)
Definition written_masked_to_spec_width (run : Parsed -> M unit)
    (operation : Operation) (s : Simulator) (p : Parsed) : Prop :=
  forall type num s' val2,
    dest p = Some (RObj type num) ->
    operand2 s p = Some val2 ->
    run p s = (Ok tt, s') ->
    registers s' !! xname num
    = Some (let w := spec_operand_width p in
            masked_result operation w
              (getRegisterValue s (src1 p) mod 2 ^ w) (val2 mod 2 ^ w)).

(** [adds x0, x1, w2] as parsed, and a simulator with x1 = 2^32. *)
Definition adds_x0_x1_w2 : Parsed :=
  mkParsed "adds" (Some (RObj x_type 0)) None (Some (RObj x_type 1))
           (Some (RObj w_type 2)) None None None None None None None None.

Definition sim_x1_pow32 : Simulator :=
  set_registers (fun r => <["x1" := 2 ^ 32]> r) reset.

(** [sub x0, x0, #1] as parsed. *)
Definition sub_x0_x0_1 : Parsed :=
  mkParsed "sub" (Some (RObj x_type 0)) None (Some (RObj x_type 0)) None
           (Some 1) None None None None None None None.

(** ** Stack frames *)

(** The order [createStackFrame] keeps: [sp] descending. *)
Fixpoint sorted_desc (l : list StackFrame) : Prop :=
  match l with
  | [] => True
  | x :: l' => Forall (fun y => f_sp y <= f_sp x) l' /\ sorted_desc l'
  end.

(** The claim about the pair, as the specification states it, at a
    state [s]. *)
Definition pair_restores (s : Simulator) : Prop :=
  forall s1 s2,
    executeSub sub_sp_16 false s = (Ok tt, s1) ->
    executeAdd add_sp_16 s1 = (Ok tt, s2) ->
    registers s2 !! "sp" = registers s !! "sp"
    /\ stackFrames s2 = stackFrames s.

(** [add sp, sp, #32] as parsed. *)
Definition add_sp_32 : Parsed :=
  mkParsed "add" (Some RSp) None (Some RSp) None (Some 32) None None None None None None None.

(** The state after [sub sp, sp, #16], [sub sp, sp, #16],
    [add sp, sp, #32], [sub sp, sp, #16] from [reset]. *)
Definition after_unbalanced_frames : Simulator :=
  let s1 := snd (executeSub sub_sp_16 false reset) in
  let s2 := snd (executeSub sub_sp_16 false s1) in
  let s3 := snd (executeAdd add_sp_32 s2) in
  snd (executeSub sub_sp_16 false s3).

(** [sub sp, sp, #32] as parsed, and the state it leaves after [reset]:
    one frame of size 32. *)
Definition sub_sp_32 : Parsed :=
  mkParsed "sub" (Some RSp) None (Some RSp) None (Some 32) None None None None None None None.

Definition after_sub_sp_32 : Simulator := snd (executeSub sub_sp_32 false reset).

(** [add sp, sp, foo] as parsed: [foo] is neither an immediate nor a
    register, so the record has no second operand. *)
Definition add_sp_foo : Parsed :=
  mkParsed "add" (Some RSp) None (Some RSp) None None None None None None None None None.

(** The state an [add] to [sp] leaves, and the state a [sub] from [sp]
    leaves. *)
Definition sp_added (s : Simulator) (newSP val2 : Z) : Simulator :=
  let s1 := add_changedRegisters {["sp"]}
              (set_registers (fun r => <["sp" := newSP]> r) s) in
  set_stackFrames (destroy_frames (JS.Number newSP) (JS.Number val2) (stackFrames s1))
                  (nextFrameId s1) s1.

Definition sp_subtracted (s : Simulator) (newSP val2 : Z) : Simulator :=
  let s1 := add_changedRegisters {["sp"]}
              (set_registers (fun r => <["sp" := newSP]> r) s) in
  set_stackFrames (create_frames (nextFrameId s1) (JS.Number newSP) (JS.Number val2)
                                 (stackFrames s1))
                  (nextFrameId s1 + 1) s1.

(** ** Move immediates *)

(** The two forms in the specification's words, on the [w]-bit pattern
    [u]: a 16-bit value at one of the legal offsets with all other bits
    zero, or the complement of such a pattern. *)
Definition spec_movz_form (is64Bit : bool) (u : Z) : Prop :=
  exists shift imm16,
    In shift (mov_shifts is64Bit) /\ 0 <= imm16 <= 0xFFFF
    /\ u = imm16 * 2 ^ shift.

Definition spec_movn_form (is64Bit : bool) (u : Z) : Prop :=
  exists shift imm16,
    In shift (mov_shifts is64Bit) /\ 0 <= imm16 <= 0xFFFF
    /\ u = Z.land (Z.lnot (imm16 * 2 ^ shift)) (mov_mask is64Bit).

(** The patterns [isMovImmediateEncodable] accepts, as the proofs find
    them: a non-zero 16-bit value at a legal offset with all other bits
    zero, and all ones with the 16-bit chunk at a legal offset cleared
    (the complement of 0xFFFF positioned there). *)
Definition nonzero_chunk (is64Bit : bool) (u : Z) : Prop :=
  exists shift imm16,
    In shift (mov_shifts is64Bit) /\ 1 <= imm16 <= 0xFFFF
    /\ u = imm16 * 2 ^ shift.

Definition full_chunk_cleared (is64Bit : bool) (u : Z) : Prop :=
  exists shift,
    In shift (mov_shifts is64Bit) /\ u = mov_mask is64Bit - 0xFFFF * 2 ^ shift.

(** [mov d, #v] as parsed. *)
Definition mov_imm (d : Register) (v : Z) : Parsed :=
  mkParsed "mov" (Some d) None None None (Some v) None None None None None None None.

(** The claim as the specification states it, for [mov d, #v]. *)
Definition mov_succeeds_iff_spec_form (s : Simulator) (d : Register) (v : Z) : Prop :=
  let is64Bit := negb (is_w (Some d)) in
  let u := Z.land v (mov_mask is64Bit) in
  succeeds (executeMov (mov_imm d v) s) = true
  <-> spec_movz_form is64Bit u \/ spec_movn_form is64Bit u.

(** ** Programs *)

(** [ret] as parsed. *)
Definition ret_parsed : Parsed := parsed0 "ret".

(** The program
<<
    main:   bl helper          // address 0
            ret                // address 4
    helper: mov x30, #0x1000   // address 8
            ret                // address 12
>>
    as [loadProgram] leaves it (entry label [main], entry function
    ending before index 2), stopped at the last [ret] with x30 = 0x1000
    as the [mov] left it. *)
Definition helper_program : list Instruction :=
  [ mkInstruction "bl helper" 0
      (Some (mkParsed "bl" None None None None None (Some "helper"%string)
                      None None None None None None));
    mkInstruction "ret" 4 (Some ret_parsed);
    mkInstruction "mov x30, #0x1000" 8
      (Some (mov_imm (RObj x_type 30) 0x1000));
    mkInstruction "ret" 12 (Some ret_parsed) ].

Definition at_helper_ret : Simulator :=
  {| registers := <["pc" := 12]> (<["x30" := 0x1000]> initial_registers);
     memory := ∅;
     heapPtr := 0x00400000;
     symbolTable := <["helper" := mkSymbol 8 "text" "code" false]>
                      (<["main" := mkSymbol 0 "text" "code" false]> ∅);
     flags := mkFlags false false false false;
     instructions := helper_program;
     currentInstructionIndex := 3;
     changedRegisters := ∅;
     changedMemory := ∅;
     stackFrames := [];
     nextFrameId := 1;
     entryPointAddress := 0;
     entryPointLabel := Some "main"%string;
     entryFunctionEndIndex := 2 |}.

(** The same program as [loadProgram] leaves it, before the first step. *)
Definition helper_loaded : Simulator :=
  {| registers := initial_registers;
     memory := ∅;
     heapPtr := 0x00400000;
     symbolTable := <["helper" := mkSymbol 8 "text" "code" false]>
                      (<["main" := mkSymbol 0 "text" "code" false]> ∅);
     flags := mkFlags false false false false;
     instructions := helper_program;
     currentInstructionIndex := 0;
     changedRegisters := ∅;
     changedMemory := ∅;
     stackFrames := [];
     nextFrameId := 1;
     entryPointAddress := 0;
     entryPointLabel := Some "main"%string;
     entryFunctionEndIndex := 2 |}.

(** Is [addr] the address of an instruction of the program? *)
Definition is_instruction_address (s : Simulator) (addr : Z) : bool :=
  existsb (fun ins => address ins =? addr) (instructions s).

(** A text section of two instruction lines, the first with a leading
    label, and a label on a line of its own before the second. *)
Definition labelled_lines : list string :=
  ["main: mov x0, #5"; "done:"; "ret"]%string.

(** The same program with the first label on a line of its own. *)
Definition unlabelled_lines : list string :=
  ["main:"; "mov x0, #5"; "done:"; "ret"]%string.

(** * Further handlers and the statements of further properties *)

(** What a read of [size] bytes returns once [value] has been written
    there: the low [size] bytes, and at size 4 the 64-bit pattern of
    their sign extension. *)
Definition read_back (value size : Z) : Z :=
  let low := value mod 2 ^ (8 * size) in
  if (size =? 4) && (2 ^ 31 <=? low) then low + 0xFFFFFFFF00000000 else low.

(** Two byte ranges that share no address. *)
Definition disjoint_ranges (a n b k : Z) : Prop :=
  a + n <= b \/ b + k <= a.

(** [q] addresses memory as [p] does. *)
Definition same_address_operands (p q : Parsed) : Prop :=
  base q = base p /\ offsetType q = offsetType p /\ offsetReg q = offsetReg p
  /\ shift q = shift p /\ offset q = offset p.

(** ** Shifts and logical operations *)

(** The [switch] of [executeShift] for a shift amount that was found:
    [None] is the error for an unknown operation.  A BigInt shift by a
    negative amount is the opposite shift, as [Z.shiftl] and [Z.shiftr]
    are.  (Amounts so large that the BigInt cannot be allocated are
    outside the model.) *)
Definition shifted_value (opcode : string) (size val1 shiftAmount : Z) : option Z :=
  let mask := size_mask size in
  if shiftAmount =? 0 then Some (Z.land val1 mask)
  else if String.eqb opcode "lsl" then
    Some (Z.land (Z.shiftl val1 shiftAmount) mask)
  else if String.eqb opcode "lsr" then
    Some (Z.land (Z.shiftr val1 shiftAmount) mask)
  else if String.eqb opcode "asr" then
    let signedVal := Z.land val1 mask in
    let signMask := size_signMask size in
    let signedVal :=
      if negb (Z.land signedVal signMask =? 0)
      then Z.lor signedVal (Z.lnot mask) else signedVal in
    Some (Z.land (Z.shiftr signedVal shiftAmount) mask)
  else if String.eqb opcode "ror" then
    let rotateAmount := Z.rem (JS.Number shiftAmount) size in
    if rotateAmount =? 0 then Some (Z.land val1 mask)
    else
      let lowerBits := Z.land val1 (Z.shiftl 1 rotateAmount - 1) in
      let shifted := Z.shiftr val1 rotateAmount in
      Some (Z.land (Z.lor shifted (Z.shiftl lowerBits (size - rotateAmount))) mask)
  else None.

(** [executeShift]: [lsl], [lsr], [asr], [ror] and [mvn]. *)
Definition executeShift (p : Parsed) (opcode : string) : M unit :=
  match dest p, src1 p with
  | Some _, Some _ =>
      let! s := get in
      let val1 := getRegisterValue s (src1 p) in
      let size := if is_w (dest p) then 32 else 64 in
      let mask := size_mask size in
      let! result :=
        if String.eqb opcode "mvn" then ret (Z.land (Z.lnot val1) mask)
        else
          let! shiftAmount :=
            match immediate p with
            | Some imm => ret imm
            | None =>
                match src2 p with
                | Some _ =>
                    let shiftMask := if size =? 64 then 0x3F else 0x1F in
                    ret (Z.land (getRegisterValue s (src2 p)) shiftMask)
                | None => throw (InvalidInstruction opcode)
                end
            end in
          match shifted_value opcode size val1 shiftAmount with
          | Some result => ret result
          | None => throw (Unsupported opcode)
          end in
      setRegisterValue (dest p) result
  | _, _ => throw (InvalidInstruction opcode)
  end.

(** The parsed object of a logical instruction: the record of
    [parseInstruction] and the two properties [shiftType] and
    [shiftAmount] of a shifted register operand. *)
Record ShiftedParsed := mkShifted
  { sp_parsed :> Parsed;
    shiftType : option string;
    shiftAmount : option Z }.

(** The second operand of [executeLogical] when it is a register. *)
Definition shifted_operand (p : ShiftedParsed) (val2 : Z) : Z :=
  match truthy (shiftType p), shiftAmount p with
  | Some ty, Some amount =>
      if String.eqb ty "lsl" then Z.shiftl val2 amount
      else if String.eqb ty "lsr" then Z.shiftr val2 amount
      else if String.eqb ty "asr" then
        let srcSize := if is_w (src2 p) then 32 else 64 in
        let srcMask := size_mask srcSize in
        let signedVal := Z.land val2 srcMask in
        let signedVal :=
          if negb (Z.land signedVal (size_signMask srcSize) =? 0)
          then Z.lor signedVal (Z.lnot srcMask) else signedVal in
        Z.land (Z.shiftr signedVal amount) srcMask
      else val2
  | _, _ => val2
  end.

(** The [switch] of [executeLogical]: [None] is the error for an
    unknown operation. *)
Definition logical_value (opcode : string) (val1 val2 mask : Z) : option Z :=
  if String.eqb opcode "and" || String.eqb opcode "ands"
  then Some (Z.land (Z.land val1 val2) mask)
  else if String.eqb opcode "orr" then Some (Z.land (Z.lor val1 val2) mask)
  else if String.eqb opcode "eor" then Some (Z.land (Z.lxor val1 val2) mask)
  else if String.eqb opcode "bic" then Some (Z.land (Z.land val1 (Z.lnot val2)) mask)
  else None.

(** [executeLogical]: [and], [ands], [orr], [eor] and [bic]. *)
Definition executeLogical (p : ShiftedParsed) (opcode : string) : M unit :=
  match dest p, src1 p with
  | Some _, Some _ =>
      let! s := get in
      let val1 := getRegisterValue s (src1 p) in
      let! val2 :=
        match immediate p with
        | Some imm => ret imm
        | None =>
            match src2 p with
            | Some _ => ret (shifted_operand p (getRegisterValue s (src2 p)))
            | None => throw (InvalidInstruction opcode)
            end
        end in
      let size := if is_w (dest p) then 32 else 64 in
      let mask := size_mask size in
      let! result :=
        match logical_value opcode val1 val2 mask with
        | Some result => ret result
        | None => throw (Unsupported opcode)
        end in
      exec setRegisterValue (dest p) result
      then if String.eqb opcode "ands" then
             modify (fun s' =>
               set_flags (mkFlags (negb (Z.land result (size_signMask size) =? 0))
                                  (Z.land result mask =? 0)
                                  (flag_C (flags s')) (flag_V (flags s'))) s')
           else ret tt
  | _, _ => throw (InvalidInstruction opcode)
  end.

(** ** [adr], [adrp] and the heap allocator *)

Definition executeAdr (p : Parsed) (instructionAddress : Z) : M unit :=
  match dest p, truthy (label p) with
  | Some _, Some l =>
      fun s =>
        match symbolTable s !! l with
        | None => throw (LabelNotFound l) s
        | Some labelInfo =>
            let labelAddr := sym_address labelInfo in
            if (labelAddr <? 0x00100000) && (0 <? labelAddr)
            then throw (ZeroPageAccess labelAddr) s
            else setRegisterValue (dest p) labelAddr s
        end
  | _, _ => throw (InvalidInstruction "adr")
  end.

Definition executeAdrp (p : Parsed) (instructionAddress : Z) : M unit :=
  match dest p, truthy (label p) with
  | Some _, Some l =>
      fun s =>
        match symbolTable s !! l with
        | None => throw (LabelNotFound l) s
        | Some labelInfo =>
            let labelAddr := sym_address labelInfo in
            let result := Z.land labelAddr (Z.lnot 0xFFF) in
            if (result <? 0x00100000) && (0 <? result)
            then throw (ZeroPageAccess result) s
            else setRegisterValue (dest p) result s
        end
  | _, _ => throw (InvalidInstruction "adrp")
  end.

(** What [allocateHeap] returns or throws. *)
Inductive HeapResult :=
| Allocated (oldPtr : Z)
| HeapOverflow (size : Z)
| HeapStackCollision (newPtr currentSP : Z).

Definition set_heapPtr (v : Z) (s : Simulator) : Simulator :=
  mkSim (registers s) (memory s) v (symbolTable s) (flags s)
    (instructions s) (currentInstructionIndex s) (changedRegisters s)
    (changedMemory s) (stackFrames s) (nextFrameId s) (entryPointAddress s)
    (entryPointLabel s) (entryFunctionEndIndex s).

(** [allocateHeap]; [this.registers.sp] is read directly, and a
    comparison with an absent property is false. *)
Definition allocateHeap (size : Z) (s : Simulator) : HeapResult * Simulator :=
  let oldPtr := heapPtr s in
  let newPtr := oldPtr + size in
  if r_end heap <? newPtr then (HeapOverflow size, s)
  else
    match registers s !! "sp" with
    | Some currentSP =>
        if (currentSP <? r_end stack) && (r_start stack <=? currentSP)
           && (currentSP <=? newPtr)
        then (HeapStackCollision newPtr currentSP, s)
        else (Allocated oldPtr, set_heapPtr newPtr s)
    | None => (Allocated oldPtr, set_heapPtr newPtr s)
    end.

(** ** Data initialisation and strings in memory *)

(** The loop of [initializeMemoryRegions] over the data initialisations
    of Pass 2: each is written with the read-only check skipped.  (The
    used-size bookkeeping of the display is not part of the state
    modelled here.) *)
Fixpoint initializeMemoryRegions (inits : list Parser.DataInit) : M unit :=
  match inits with
  | [] => ret tt
  | init :: more =>
      exec writeMemory (Parser.di_address init) (Parser.di_value init)
                       (Parser.di_size init) true
      then initializeMemoryRegions more
  end.

(** [readString]: the character codes from [addr] up to the first zero
    byte; the loop runs at most [fuel] times, and [None] says that
    [fuel] bytes were read without finding the terminator. *)
Fixpoint readString_from (fuel : nat) (addr : Z) (str : list Z) : M (option (list Z)) :=
  match fuel with
  | O => ret None
  | S fuel' =>
      let! byte := readMemory addr 1 in
      if byte =? 0 then ret (Some str)
      else readString_from fuel' (addr + 1) (str ++ [JS.Number byte mod 65536])
  end.

Definition readString (fuel : nat) (address : Z) : M (option (list Z)) :=
  readString_from fuel address [].

(** ** Conditions *)

(** What a condition code asks of two [w]-bit operands [a] and [b] that
    were compared: equality, the unsigned order, the order of the
    two's-complement readings, and the sign of the difference. *)
Definition comparison (condition : string) (w a b : Z) : option bool :=
  if String.eqb condition "eq" then Some (a =? b)
  else if String.eqb condition "ne" then Some (negb (a =? b))
  else if String.eqb condition "lo" then Some (a <? b)
  else if String.eqb condition "ls" then Some (a <=? b)
  else if String.eqb condition "hi" then Some (b <? a)
  else if String.eqb condition "hs" then Some (b <=? a)
  else if String.eqb condition "lt" then Some (toSigned a w <? toSigned b w)
  else if String.eqb condition "le" then Some (toSigned a w <=? toSigned b w)
  else if String.eqb condition "gt" then Some (toSigned b w <? toSigned a w)
  else if String.eqb condition "ge" then Some (toSigned b w <=? toSigned a w)
  else None.

(** [blt loop] as parsed, and a simulator with x0 = 5, x1 = 10 and a
    label [loop] at address 0. *)
Definition blt_loop : Parsed :=
  mkParsed "blt" None None None None None (Some "loop"%string)
           None None None None None None.

Definition sim_5_10_loop : Simulator :=
  mkSim (registers sim_5_10) (memory sim_5_10) (heapPtr sim_5_10)
    (<["loop" := mkSymbol 0 "text" "code" false]> ∅) (flags sim_5_10)
    (instructions sim_5_10) (currentInstructionIndex sim_5_10)
    (changedRegisters sim_5_10) (changedMemory sim_5_10) (stackFrames sim_5_10)
    (nextFrameId sim_5_10) (entryPointAddress sim_5_10) (entryPointLabel sim_5_10)
    (entryFunctionEndIndex sim_5_10).

(** ** Parts of the state a handler leaves alone *)

(** Running [m] leaves the component [proj] of the simulator as it was,
    whether [m] returns or throws. *)
Definition keeps {A B : Type} (proj : Simulator -> B) (m : M A) : Prop :=
  forall s, proj (snd (m s)) = proj s.

(** The carry and overflow flags. *)
Definition flags_CV (s : Simulator) : bool * bool :=
  (flag_C (flags s), flag_V (flags s)).

(** [and x0, x1, x2] and [ands x0, x1, x2] as parsed. *)
Definition and_x0_x1_x2 (opcode : string) : ShiftedParsed :=
  mkShifted
    (mkParsed opcode (Some (RObj x_type 0)) None (Some (RObj x_type 1))
              (Some (RObj x_type 2)) None None None None None None None None)
    None None.

(** [bl l] as parsed. *)
Definition bl_to (l : string) : Parsed :=
  mkParsed "bl" None None None None None (Some l) None None None None None None.

(** ** Statements about shifts and logical operations *)

(** The width of a register object. *)
Definition width (type : RegType) : Z :=
  match type with x_type => 64 | w_type => 32 end.

(** The shift amount as [executeShift] picks it: the immediate, or the
    low six (five, for a w destination) bits of the second source
    register. *)
Definition shift_amount (s : Simulator) (p : Parsed) : option Z :=
  match immediate p with
  | Some imm => Some imm
  | None =>
      match src2 p with
      | Some _ =>
          Some (Z.land (getRegisterValue s (src2 p))
                       (if is_w (dest p) then 0x1F else 0x3F))
      | None => None
      end
  end.

(** A 64-bit value rotated right by [k] bits. *)
Definition rotated (v k : Z) : Z := v / 2 ^ k + (v mod 2 ^ k) * 2 ^ (64 - k).

(** A shift of register [n] by the immediate [k] into register [d], as
    parsed. *)
Definition shift_imm (opcode : string) (type : RegType) (d n : nat) (k : Z) : Parsed :=
  mkParsed opcode (Some (RObj type d)) None (Some (RObj type n)) None (Some k)
           None None None None None None None.

(** A simulator with x1 = 0xF0 and one with x1 = 0x80000000. *)
Definition sim_x1_F0 : Simulator :=
  set_registers (fun r => <["x1" := 0xF0]> r) reset.

Definition sim_x1_bit31 : Simulator :=
  set_registers (fun r => <["x1" := 0x80000000]> r) reset.

(** What the shifts mean on a 64-bit value [v] and an amount [k]:
    multiplication and floor division by [2^k], the latter on the value
    or on its two's-complement reading, and rotation. *)
Definition shift_meaning (opcode : string) (v k : Z) : option Z :=
  if String.eqb opcode "lsl" then Some ((v * 2 ^ k) mod 2 ^ 64)
  else if String.eqb opcode "lsr" then Some (v / 2 ^ k)
  else if String.eqb opcode "asr" then Some ((toSigned v 64 / 2 ^ k) mod 2 ^ 64)
  else if String.eqb opcode "ror" then Some (rotated v k)
  else None.

(** [mvn] of register [n] into register [d], as parsed. *)
Definition mvn_reg (type : RegType) (d n : nat) : Parsed :=
  mkParsed "mvn" (Some (RObj type d)) None (Some (RObj type n)) None None
           None None None None None None None.

(** ** Statements about [adr], [adrp] and the heap *)

(** [adrp xd, l] and [add xd, xd, :lo12:l] as parsed. *)
Definition adrp_label (d : nat) (l : string) : Parsed :=
  mkParsed "adrp" (Some (RObj x_type d)) None None None None (Some l)
           None None None None None None.

Definition add_lo12 (d : nat) (l : string) : Parsed :=
  mkParsed "add" (Some (RObj x_type d)) None (Some (RObj x_type d)) None None
           (Some l) (Some "lo12"%string) None None None None None.

(** A simulator that knows a label [msg] at address 0x00200ABC in the
    data section. *)
Definition sim_with_msg : Simulator :=
  mkSim (registers reset) (memory reset) (heapPtr reset)
    (<["msg" := mkSymbol 0x00200ABC "data" "data" false]> ∅) (flags reset)
    (instructions reset) (currentInstructionIndex reset)
    (changedRegisters reset) (changedMemory reset) (stackFrames reset)
    (nextFrameId reset) (entryPointAddress reset) (entryPointLabel reset)
    (entryFunctionEndIndex reset).

(** A simulator that knows a label [loop] at address 8 in the text
    section. *)
Definition sim_with_loop_at_8 : Simulator :=
  mkSim (registers reset) (memory reset) (heapPtr reset)
    (<["loop" := mkSymbol 8 "text" "code" false]> ∅) (flags reset)
    (instructions reset) (currentInstructionIndex reset)
    (changedRegisters reset) (changedMemory reset) (stackFrames reset)
    (nextFrameId reset) (entryPointAddress reset) (entryPointLabel reset)
    (entryFunctionEndIndex reset).

(** [adr x0, loop] as parsed. *)
Definition adr_x0_loop : Parsed :=
  mkParsed "adr" (Some (RObj x_type 0)) None None None None (Some "loop"%string)
           None None None None None None.

(** ** Statements about the instruction cursor *)

(** Every instruction before index [i] has an address below [addr]. *)
Definition addresses_below_before (instrs : list Instruction) (i : nat) (addr : Z) : Prop :=
  forall j ins, (j < i)%nat -> instrs !! j = Some ins -> address ins < addr.






(** The built-in functions as a handler that does nothing, for the
    evaluation of programs that do not call them. *)
Definition no_builtins (name : string) : M unit := ret tt.


(** ** Statements about the assembler *)

(** The label a line defines, if it starts with one. *)
Definition label_of (line : string) : option string :=
  match Parser.labelMatch (Parser.trim (Parser.removeComments (Parser.of_string line))) with
  | Some (name, _) => Some (Parser.to_string name)
  | None => None
  end.

(** Pass 1 over a list of lines, from a given state. *)
Definition pass1_from (st : Parser.Pass1) (lines : list string) : Res Parser.Pass1 :=
  Parser.run_lines Parser.pass1_line st lines.

(** A data section with the label [msg] defined twice. *)
Definition twice_msg : list string :=
  [".data"; "msg: .quad 1"; "other: .quad 2"; "msg: .quad 3"]%string.

(** A [.global] directive after the label it names. *)
Definition global_after_label : list string :=
  ["main:"; ".global main"; "ret"]%string.

(** The location counters of the three data sections. *)
Definition data_counters (cs : Parser.Counters) : Z * Z * Z :=
  (Parser.c_rodata cs, Parser.c_data cs, Parser.c_bss cs).

(** Pass 1 and Pass 2 are in the same section with the same data
    counters. *)
Definition passes_agree (st1 : Parser.Pass1) (st2 : Parser.Pass2) : Prop :=
  Parser.p2_currentSection st2 = Parser.p1_currentSection st1
  /\ data_counters (Parser.p2_sectionCounters st2)
     = data_counters (Parser.p1_sectionCounters st1).

(** An operand parser that accepts nothing, for the evaluation of
    programs without instructions. *)
Definition no_operands (opcode : string) (parts : list string) : Res Parsed :=
  Throw (Unsupported opcode).

(** A data section with values, a string, an alignment and a gap. *)
Definition data_lines : list string :=
  [".data"; "nums: .quad 1, 2, 3"; "msg: .asciz 'hi'"; ".align 3";
   ".bss"; "buf: .skip 16"]%string.

(** A data section that starts with a labelled [.quad]. *)
Definition nums_lines : list string := [".data"; "nums: .quad 7, 8"]%string.

(** ** Statements about Pass 2 *)

(** The part of a line after its label, as both passes compute it. *)
Definition line_after_label (line : string) : Parser.chars :=
  let trimmed := Parser.trim (Parser.removeComments (Parser.of_string line)) in
  match Parser.labelMatch trimmed with
  | Some (_, rest) => Parser.trim rest
  | None => trimmed
  end.

(** A line that holds no directive: nothing after its label starts
    with a dot. *)
Definition without_directive (line : string) : bool :=
  negb (Parser.startsWith_dot (line_after_label line)).

(** An operand parser that accepts everything, for the evaluation of
    Pass 2 where the operands do not matter. *)
Definition any_operands (opcode : string) (parts : list string) : Res Parsed :=
  Ok (parsed0 opcode).

(** Three instruction lines with a label and a comment among them. *)
Definition three_instructions : list string :=
  ["mov x0, #5"; "loop:"; "add x0, x0, #1 // count"; "b loop"]%string.

(** The power of two of an [.align] directive. *)
Definition align_power (rest : Parser.chars) : Z :=
  JS.or_default (Parser.parseInt false rest) 3.

(** ** Statements about strings in memory *)

(** What a write of size 1 keeps of a code unit: its low eight bits. *)
Definition low_byte (c : Z) : Z := c mod 256.

(** The bytes before the first zero byte. *)
Fixpoint until_nul (bytes : list Z) : list Z :=
  match bytes with
  | [] => []
  | b :: bytes' => if b =? 0 then [] else b :: until_nul bytes'
  end.

(** The memory map after the bytes of a string and its terminator have
    been stored from [addr] on. *)
Fixpoint write_string (bytes : list Z) (addr : Z) (m : gmap Z Z) : gmap Z Z :=
  match bytes with
  | [] => <[addr := 0]> m
  | b :: bytes' => write_string bytes' (addr + 1) (<[addr := b]> m)
  end.

(** ** Statements about [mov] and about register names *)

(** [mov d, s] as parsed. *)
Definition mov_reg (d s : Register) : Parsed :=
  mkParsed "mov" (Some d) (Some s) None None None None None None None None None None.

(** [parseRegister]: the names [sp], [lr] and [pc], or the letter [x]
    or [w] followed by what [parseInt] reads as a number from 0 to 30;
    [None] is [null].  Case and surrounding white space are ignored. *)
Definition parseRegister (regStr : Parser.chars) : option Register :=
  let regStr := Parser.toLowerCase (Parser.trim regStr) in
  let numbered (type : RegType) (rest : Parser.chars) : option Register :=
    match Parser.parseInt false rest with
    | Some num =>
        if (0 <=? num) && (num <=? 30) then Some (RObj type (Z.to_nat num)) else None
    | None => None
    end in
  if String.eqb (Parser.to_string regStr) "sp" then Some RSp
  else if String.eqb (Parser.to_string regStr) "lr" then Some RLr
  else if String.eqb (Parser.to_string regStr) "pc" then Some RPc
  else
    match regStr with
    | c :: rest =>
        if Nat.eqb (Parser.code c) 120 then numbered x_type rest
        else if Nat.eqb (Parser.code c) 119 then numbered w_type rest
        else None
    | [] => None
    end.

(** The spelling of a register that [parseRegister] starts from. *)
Definition spelling (str : string) : Parser.chars :=
  Parser.toLowerCase (Parser.trim (Parser.of_string str)).

(** ** Statements about code labels *)

(** A line of a program of instructions and labels: empty, a label
    alone that Pass 2 does not take for an instruction, or an
    instruction without a label that [parseInstruction] recognises. *)
Definition code_line (parseOperands : string -> list string -> Res Parsed)
    (line : string) : bool :=
  let trimmed := Parser.trim (Parser.removeComments (Parser.of_string line)) in
  match trimmed with
  | [] => true
  | _ =>
      match Parser.labelMatch trimmed with
      | Some (_, rest) =>
          match Parser.trim rest, Parser.parseInstruction parseOperands trimmed with
          | [], Ok None => true
          | _, _ => false
          end
      | None =>
          negb (Parser.startsWith_dot trimmed)
          && match Parser.parseInstruction parseOperands trimmed with
             | Ok (Some _) => true
             | _ => false
             end
      end
  end.

(** Pass 2 over a list of lines, from a given state. *)
Definition pass2_from (parseOperands : string -> list string -> Res Parsed)
    (table : gmap string Symbol) (st : Parser.Pass2) (lines : list string)
  : Res Parser.Pass2 :=
  Parser.run_lines (Parser.pass2_line parseOperands table) st lines.

(** * Properties *)

(** ** Bit-level facts used throughout *)

Section BitFacts.

Lemma land_ones_32 z : Z.land z 0xFFFFFFFF = z mod 2 ^ 32.
Proof. change 0xFFFFFFFF with (Z.ones 32). apply Z.land_ones. lia. Qed.

Lemma land_ones_64 z : Z.land z 0xFFFFFFFFFFFFFFFF = z mod 2 ^ 64.
Proof. change 0xFFFFFFFFFFFFFFFF with (Z.ones 64). apply Z.land_ones. lia. Qed.

Lemma land_pow2_testbit z k :
  0 <= k -> (Z.land z (2 ^ k) =? 0) = negb (Z.testbit z k).
Proof.
  intros Hk.
  assert (E : Z.land z (2 ^ k) = if Z.testbit z k then 2 ^ k else 0).
  { apply Z.bits_inj'. intros i Hi. rewrite Z.land_spec.
    destruct (Z.eq_dec i k) as [->|Hne].
    - rewrite Z.pow2_bits_true by lia.
      destruct (Z.testbit z k); [now rewrite Z.pow2_bits_true by lia|].
      now rewrite Z.bits_0.
    - rewrite Z.pow2_bits_false by lia. rewrite andb_false_r.
      destruct (Z.testbit z k); [now rewrite Z.pow2_bits_false by lia|].
      now rewrite Z.bits_0. }
  rewrite E. destruct (Z.testbit z k); simpl.
  - apply Z.eqb_neq. pose proof (Z.pow_pos_nonneg 2 k). lia.
  - reflexivity.
Qed.

Lemma lor_disjoint_add a b : Z.land a b = 0 -> Z.lor a b = a + b.
Proof.
  intros H. rewrite <- Z.lxor_lor by exact H. symmetry.
  now apply Z.add_nocarry_lxor.
Qed.

Lemma land_low_high a k :
  0 <= k -> 0 <= a < 2 ^ k -> forall h, Z.land a (h * 2 ^ k) = 0.
Proof.
  intros Hk Ha h. apply Z.bits_inj'. intros i Hi.
  rewrite Z.land_spec, Z.bits_0.
  destruct (Z_lt_le_dec i k).
  - rewrite Z.mul_pow2_bits_low by lia. apply andb_false_r.
  - assert (Z.testbit a i = false) as ->; [|reflexivity].
    destruct (Z.eq_dec a 0) as [->|]; [apply Z.bits_0|].
    apply Z.bits_above_log2; [lia|].
    apply Z.lt_le_trans with k; [|lia].
    apply Z.log2_lt_pow2; lia.
Qed.

Lemma testbit_mod_pow2_low z k i :
  0 <= i < k -> Z.testbit (z mod 2 ^ k) i = Z.testbit z i.
Proof. intros. apply Z.mod_pow2_bits_low. lia. Qed.

End BitFacts.

(** A run that returned [a] is the pair of [a] and its final state. *)
Lemma ok_run {A} (r : Res A * Simulator) (a : A) :
  fst r = Ok a -> r = (Ok a, snd r).
Proof. destruct r as [x st]. cbn. now intros ->. Qed.

(** ** Register views (C7) *)

Section RegisterViews.

Variable s : Simulator.
Variable n : nat.

Lemma w_write_stores v :
  setRegisterValue (Some (RObj w_type n)) v s
  = (Ok tt,
     add_changedRegisters {[wname n]}
       (add_changedRegisters {[xname n]}
          (set_registers (fun r => <[xname n := v mod 2 ^ 32]> r) s))).
Proof. cbn [setRegisterValue]. unfold modify. now rewrite land_ones_32. Qed.

Lemma w_read_value :
  getRegisterValue s (Some (RObj w_type n))
  = stored n s mod 2 ^ 32 + (if Z.testbit (stored n s) 31 then 2 ^ 64 - 2 ^ 32 else 0).
Proof.
  cbn [getRegisterValue]. fold (stored n s). rewrite land_ones_32.
  change 0x80000000 with (2 ^ 31).
  rewrite land_pow2_testbit by lia. rewrite negb_involutive.
  rewrite testbit_mod_pow2_low by lia.
  destruct (Z.testbit (stored n s) 31).
  - rewrite lor_disjoint_add; [reflexivity|].
    change 0xFFFFFFFF00000000 with (0xFFFFFFFF * 2 ^ 32).
    apply land_low_high; [lia|]. apply Z.mod_pos_bound. lia.
  - lia.
Qed.

End RegisterViews.

(** C7.  Writing the 32-bit view of register [n] leaves the low 32 bits
    of the value, zero-extended, in the full register (bits 32 and up of
    the stored value are clear, and the 64-bit view reads it back);
    reading the 32-bit view gives the low 32 bits of the stored register
    with bit 31 copied into bits 32 to 63. *)
Theorem w_view_write_zero_extends_read_sign_extends :
  forall (s : Simulator) (n : nat) (v : Z),
    (let r := setRegisterValue (Some (RObj w_type n)) v s in
     fst r = Ok tt
     /\ registers (snd r) !! xname n = Some (v mod 2 ^ 32)
     /\ 0 <= v mod 2 ^ 32 < 2 ^ 32
     /\ (forall i, 0 <= i < 32 -> Z.testbit (v mod 2 ^ 32) i = Z.testbit v i)
     /\ (forall i, 32 <= i -> Z.testbit (v mod 2 ^ 32) i = false)
     /\ getRegisterValue (snd r) (Some (RObj x_type n)) = v mod 2 ^ 32)
    /\
    (let x := stored n s in
     let r := getRegisterValue s (Some (RObj w_type n)) in
     0 <= r < 2 ^ 64
     /\ (forall i, 0 <= i < 32 -> Z.testbit r i = Z.testbit x i)
     /\ (forall i, 32 <= i < 64 -> Z.testbit r i = Z.testbit x 31)
     /\ r = x mod 2 ^ 32 + (if Z.testbit x 31 then 2 ^ 64 - 2 ^ 32 else 0)).
Proof.
  intros s n v. split.
  - rewrite w_write_stores. cbn [fst snd].
    assert (Hb : 0 <= v mod 2 ^ 32 < 2 ^ 32) by (apply Z.mod_pos_bound; lia).
    repeat split; try lia.
    + cbn. apply lookup_insert_eq.
    + intros i Hi. apply testbit_mod_pow2_low. lia.
    + intros i Hi. apply Z.mod_pow2_bits_high. lia.
    + cbn [getRegisterValue]. unfold reg_lookup. cbn.
      rewrite lookup_insert_eq. cbn.
      destruct (Z.eqb_spec (v mod 2 ^ 32) 0); congruence.
  - cbv zeta. rewrite w_read_value.
    set (x := stored n s).
    assert (Hb : 0 <= x mod 2 ^ 32 < 2 ^ 32) by (apply Z.mod_pos_bound; lia).
    assert (Hlow : forall i, 0 <= i < 32 ->
              Z.testbit (x mod 2 ^ 32 + (if Z.testbit x 31 then 2 ^ 64 - 2 ^ 32 else 0)) i
              = Z.testbit x i).
    { intros i Hi. destruct (Z.testbit x 31).
      - change (2 ^ 64 - 2 ^ 32) with (0xFFFFFFFF * 2 ^ 32).
        rewrite <- lor_disjoint_add by (apply land_low_high; lia).
        rewrite Z.lor_spec, Z.mul_pow2_bits_low by lia.
        rewrite orb_false_r. apply testbit_mod_pow2_low. lia.
      - rewrite Z.add_0_r. apply testbit_mod_pow2_low. lia. }
    assert (Hhigh : forall i, 32 <= i < 64 ->
              Z.testbit (x mod 2 ^ 32 + (if Z.testbit x 31 then 2 ^ 64 - 2 ^ 32 else 0)) i
              = Z.testbit x 31).
    { intros i Hi. destruct (Z.testbit x 31).
      - change (2 ^ 64 - 2 ^ 32) with (0xFFFFFFFF * 2 ^ 32).
        rewrite <- lor_disjoint_add by (apply land_low_high; lia).
        rewrite Z.lor_spec, Z.mod_pow2_bits_high by lia.
        rewrite Z.mul_pow2_bits by lia. cbn [orb].
        change 0xFFFFFFFF with (Z.ones 32). apply Z.ones_spec_low. lia.
      - rewrite Z.add_0_r. apply Z.mod_pow2_bits_high. lia. }
    repeat split; auto.
    + destruct (Z.testbit x 31); lia.
    + destruct (Z.testbit x 31); lia.
Qed.

(** Register 3: writing 0x1FFFFFFFF to w3 leaves 0xFFFFFFFF in x3, and
    w3 then reads as 0xFFFFFFFFFFFFFFFF. *)
Lemma w_view_write_zero_extends_read_sign_extends_witness :
  let s1 := snd (setRegisterValue (Some (RObj w_type 3)) 0x1FFFFFFFF reset) in
  registers s1 !! xname 3 = Some 0xFFFFFFFF
  /\ getRegisterValue s1 (Some (RObj w_type 3)) = 0xFFFFFFFFFFFFFFFF.
Proof.
  cbv zeta. split.
  - exact (proj1 (proj2 (proj1
             (w_view_write_zero_extends_read_sign_extends reset 3 0x1FFFFFFFF)))).
  - rewrite (proj2 (proj2 (proj2 (proj2
               (w_view_write_zero_extends_read_sign_extends
                  (snd (setRegisterValue (Some (RObj w_type 3)) 0x1FFFFFFFF reset))
                  3 0))))).
    vm_compute. reflexivity.
Defined.

(** ** Memory validation (C6, C9, C10) *)

Section MemoryValidation.

Lemma getMemoryRegion_some addr r :
  getMemoryRegion addr = Some r ->
  In r memoryLayout /\ r_start r <= addr <= r_end r.
Proof.
  unfold getMemoryRegion. intros H. apply find_some in H as [Hin Hr].
  split; [exact Hin|]. unfold in_region in Hr.
  apply andb_true_iff in Hr as [H1 H2]. lia.
Qed.

Lemma getMemoryRegion_unique addr r :
  In r memoryLayout -> r_start r <= addr <= r_end r ->
  getMemoryRegion addr = Some r.
Proof.
  unfold getMemoryRegion, memoryLayout. intros Hin Hr.
  cbn [In] in Hin.
  destruct Hin as [<-|[<-|[<-|[<-|[<-|[]]]]]]; cbn in Hr; cbn [find];
    unfold in_region; cbn [r_start r_end rodata data bss heap stack];
    repeat match goal with
           | |- context [?a <=? ?b] => destruct (Z.leb_spec a b); cbn [andb]
           end; try reflexivity; lia.
Qed.

(** An access that validation lets through lies inside one region. *)
Lemma validate_ok_within addr size isWrite s r s' :
  validateMemoryAccess addr size isWrite s = (Ok r, s') ->
  s' = s /\ In r memoryLayout /\ r_start r <= addr <= r_end r
  /\ addr + (size - 1) <= r_end r.
Proof.
  unfold validateMemoryAccess, throw, ret.
  destruct ((addr =? 0) || ((addr <? 1048576) && (0 <? addr))); [discriminate|].
  destruct ((addr <? 1048576) || (134217727 <? addr + (size - 1))); [discriminate|].
  destruct (getMemoryRegion addr) as [region|] eqn:Hreg; [|discriminate].
  apply getMemoryRegion_some in Hreg as [Hin Hr].
  destruct (Z.ltb_spec (r_end region) (addr + (size - 1))); [discriminate|].
  destruct (isWrite && r_readonly region); [discriminate|].
  destruct isWrite.
  - destruct (collision s addr); [discriminate|].
    intros [= <- <-]. repeat split; auto; lia.
  - intros [= <- <-]. repeat split; auto; lia.
Qed.

Lemma validate_throw_state addr size isWrite s e s' :
  validateMemoryAccess addr size isWrite s = (Throw e, s') -> s' = s.
Proof.
  unfold validateMemoryAccess, throw, ret.
  repeat match goal with
         | |- context [if ?b then _ else _] => destruct b
         | |- context [match ?o with Some _ => _ | None => _ end] => destruct o
         end; now intros [= <- <-] || discriminate.
Qed.

Lemma validateInit_ok_within addr size s s' :
  validateInitWrite addr size s = (Ok tt, s') ->
  s' = s /\ within_one_region addr size /\ 0x00100000 <= addr <= 0x07FFFFFF.
Proof.
  unfold validateInitWrite, throw, ret.
  destruct ((addr =? 0) || ((addr <? 1048576) && (0 <? addr))); [discriminate|].
  destruct ((addr <? 1048576) || (134217727 <? addr + (size - 1))); [discriminate|].
  destruct (getMemoryRegion addr) as [region|] eqn:Hreg; [|discriminate].
  apply getMemoryRegion_some in Hreg as [Hin Hr].
  destruct (Z.ltb_spec (r_end region) (addr + (size - 1))); [discriminate|].
  intros [= <-]. split; [reflexivity|]. split.
  - exists region. repeat split; auto; lia.
  - unfold memoryLayout in Hin. cbn [In] in Hin.
    destruct Hin as [<-|[<-|[<-|[<-|[<-|[]]]]]]; cbn in Hr; lia.
Qed.

Lemma validateInit_throw_state addr size s e s' :
  validateInitWrite addr size s = (Throw e, s') -> s' = s.
Proof.
  unfold validateInitWrite, throw, ret.
  repeat match goal with
         | |- context [if ?b then _ else _] => destruct b
         | |- context [match ?o with Some _ => _ | None => _ end] => destruct o
         end; now intros [= <- <-] || discriminate.
Qed.

(** A read of a range inside one region passes validation. *)
Lemma validate_read_ok addr size s :
  1 <= size -> within_one_region addr size ->
  exists r, validateMemoryAccess addr size false s = (Ok r, s).
Proof.
  intros Hsize (r & Hin & Hlo & Hhi).
  assert (Hb : 0x00100000 <= r_start r /\ r_end r <= 0x07FFFFFF).
  { unfold memoryLayout in Hin. cbn [In] in Hin.
    destruct Hin as [<-|[<-|[<-|[<-|[<-|[]]]]]]; cbn; lia. }
  unfold validateMemoryAccess, throw, ret.
  rewrite (getMemoryRegion_unique addr r Hin) by lia.
  destruct (Z.eqb_spec addr 0); [lia|].
  destruct (Z.ltb_spec addr 1048576); [lia|]. cbn [orb andb].
  destruct (Z.ltb_spec 134217727 (addr + (size - 1))); [lia|].
  destruct (Z.ltb_spec (r_end r) (addr + (size - 1))); [lia|].
  cbn [andb]. now exists r.
Qed.

Lemma writeMemory_throw_state address value size skip s e s' :
  writeMemory address value size skip s = (Throw e, s') -> s' = s.
Proof.
  unfold writeMemory, bind, modify, ret. destruct skip; cbn [negb].
  - destruct (validateInitWrite address size s) as [[[]|e0] s0] eqn:E.
    + discriminate.
    + intros [= <- <-]. eapply validateInit_throw_state; eauto.
  - destruct (validateMemoryAccess address size true s) as [[r|e0] s0] eqn:E.
    + discriminate.
    + intros [= <- <-]. eapply validate_throw_state; eauto.
Qed.

Lemma writeMemory_ok_inv address value size skip s s' :
  writeMemory address value size skip s = (Ok tt, s') ->
  s' = set_memory (store_bytes (JS.Number address) value 0 (Z.to_nat size)) s
  /\ within_one_region address size
  /\ 0x00100000 <= address <= 0x07FFFFFF.
Proof.
  unfold writeMemory, bind, modify, ret. destruct skip; cbn [negb].
  - destruct (validateInitWrite address size s) as [[[]|e0] s0] eqn:E; [|discriminate].
    apply validateInit_ok_within in E as (-> & Hw & Hr).
    now intros [= <-].
  - destruct (validateMemoryAccess address size true s) as [[r|e0] s0] eqn:E; [|discriminate].
    apply validate_ok_within in E as (-> & Hin & Hlo & Hhi).
    intros [= <-]. split; [reflexivity|]. split.
    + exists r. repeat split; auto; lia.
    + unfold memoryLayout in Hin. cbn [In] in Hin.
      destruct Hin as [<-|[<-|[<-|[<-|[<-|[]]]]]]; cbn in Hlo; lia.
Qed.

Lemma writeMemory_ok_within address value size skip s s' :
  writeMemory address value size skip s = (Ok tt, s') ->
  within_one_region address size.
Proof. intros H. now apply writeMemory_ok_inv in H. Qed.

Lemma readMemory_ok_within address size s v s' :
  readMemory address size s = (Ok v, s') -> within_one_region address size.
Proof.
  unfold readMemory, bind.
  destruct (validateMemoryAccess address size false s) as [[r|e0] s0] eqn:E; [|discriminate].
  intros _. apply validate_ok_within in E as (_ & Hin & Hlo & Hhi).
  now exists r.
Qed.

Lemma readMemory_throw_state address size s e s' :
  readMemory address size s = (Throw e, s') -> s' = s.
Proof.
  unfold readMemory, bind, get, ret.
  destruct (validateMemoryAccess address size false s) as [[r|e0] s0] eqn:E.
  - apply validate_ok_within in E as (-> & _).
    destruct (_ && _); discriminate.
  - intros [= <- <-]. eapply validate_throw_state; eauto.
Qed.

End MemoryValidation.

(** C6.  An access of 1, 2, 4 or 8 bytes whose byte range is not inside
    one of the five regions fails, as a validation, as a read and as a
    write (with or without the read-only check), and leaves the
    simulator as it was; this covers every address below 0x00100000 and
    every range that runs past the end of the region of its first byte.
    Whatever the reason a write fails for, the state after the failure
    is the state before it: no byte has been stored. *)
Theorem access_outside_one_region_fails :
  forall (s : Simulator) (addr size : Z),
    access_size size ->
    (~ within_one_region addr size ->
       (forall isWrite, exists e,
           validateMemoryAccess addr size isWrite s = (Throw e, s))
       /\ (exists e, readMemory addr size s = (Throw e, s))
       /\ (forall value skip, exists e,
           writeMemory addr value size skip s = (Throw e, s)))
    /\ (addr < 0x00100000 -> ~ within_one_region addr size)
    /\ (forall r, In r memoryLayout -> r_start r <= addr <= r_end r ->
          r_end r < addr + (size - 1) -> ~ within_one_region addr size)
    /\ (forall value skip e s',
          writeMemory addr value size skip s = (Throw e, s') ->
          s' = s /\ memory s' = memory s).
Proof.
  intros s addr size Hsize. repeat split.
  - intros isWrite.
    destruct (validateMemoryAccess addr size isWrite s) as [[r|e] s'] eqn:E.
    + apply validate_ok_within in E as (_ & Hin & Hlo & Hhi).
      exfalso. apply H. exists r. repeat split; auto; lia.
    + exists e. now rewrite (validate_throw_state _ _ _ _ _ _ E).
  - destruct (readMemory addr size s) as [[v|e] s'] eqn:E.
    + exfalso. apply H. eapply readMemory_ok_within; eauto.
    + exists e. now rewrite (readMemory_throw_state _ _ _ _ _ E).
  - intros value skip.
    destruct (writeMemory addr value size skip s) as [[[]|e] s'] eqn:E.
    + exfalso. apply H. eapply writeMemory_ok_within; eauto.
    + exists e. now rewrite (writeMemory_throw_state _ _ _ _ _ _ _ E).
  - intros Hlow (r & Hin & Hlo & Hhi).
    unfold memoryLayout in Hin. cbn [In] in Hin.
    destruct Hin as [<-|[<-|[<-|[<-|[<-|[]]]]]]; cbn in Hlo; lia.
  - intros r Hin Hr Hcross (r' & Hin' & Hlo' & Hhi').
    assert (Hs : 1 <= size) by (destruct Hsize as [-> | [-> | [-> | ->]]]; lia).
    pose proof (getMemoryRegion_unique addr r Hin Hr) as E1.
    pose proof (getMemoryRegion_unique addr r' Hin' ltac:(lia)) as E2.
    rewrite E1 in E2. injection E2 as E3. subst r'. lia.
  - eapply writeMemory_throw_state; eauto.
  - f_equal. eapply writeMemory_throw_state; eauto.
Qed.

(** A range that straddles rodata and data, at the reset state. *)
Lemma access_outside_one_region_fails_witness :
  access_size 4
  /\ (exists e, readMemory 0x001FFFFD 4 reset = (Throw e, reset))
  /\ (exists e, writeMemory 0x001FFFFD 7 4 true reset = (Throw e, reset)).
Proof.
  assert (Hs : access_size 4) by (right; right; left; reflexivity).
  assert (Hn : ~ within_one_region 0x001FFFFD 4).
  { apply (proj1 (proj2 (proj2 (access_outside_one_region_fails reset 0x001FFFFD 4 Hs)))
             rodata); cbn; [tauto|lia|lia]. }
  destruct (proj1 (access_outside_one_region_fails reset 0x001FFFFD 4 Hs) Hn)
    as (_ & Hr & Hw).
  split; [exact Hs|]. split; [exact Hr|]. apply Hw.
Defined.

Section MemoryContents.

Lemma Number_small b : - 2 ^ 53 < b < 2 ^ 53 -> JS.Number b = b.
Proof.
  intros H. unfold JS.Number.
  destruct (Z.ltb_spec (Z.abs b) (2 ^ 53)); [reflexivity|lia].
Qed.

Lemma region_range addr size :
  within_one_region addr size ->
  0x00100000 <= addr /\ addr + (size - 1) <= 0x07FFFFFF.
Proof.
  intros (r & Hin & Hlo & Hhi).
  unfold memoryLayout in Hin. cbn [In] in Hin.
  destruct Hin as [<-|[<-|[<-|[<-|[<-|[]]]]]]; cbn in Hlo, Hhi; lia.
Qed.

Lemma load_bytes_absent (m : gmap Z Z) addr n :
  forall i value,
    0 <= addr -> 0 <= i -> addr + i + Z.of_nat n < 2 ^ 53 ->
    (forall j, i <= j < i + Z.of_nat n -> m !! (addr + j) = None) ->
    load_bytes m addr i n value = value.
Proof.
  induction n as [|n IH]; intros i value Ha Hi Hb Habs; [reflexivity|].
  cbn [load_bytes]. unfold JS.nadd.
  rewrite Number_small by lia.
  rewrite Habs by lia. cbn [JS.or_default].
  rewrite Z.shiftl_0_l, Z.lor_0_r.
  apply IH; try lia. intros j Hj. apply Habs. lia.
Qed.

Lemma store_bytes_other (addr value : Z) n :
  forall i (m : gmap Z Z) b,
    0 <= addr -> 0 <= i -> addr + i + Z.of_nat n < 2 ^ 53 ->
    (b < addr + i \/ addr + i + Z.of_nat n <= b) ->
    store_bytes addr value i n m !! b = m !! b.
Proof.
  induction n as [|n IH]; intros i m b Ha Hi Hb Hout; [reflexivity|].
  cbn [store_bytes]. rewrite IH by lia.
  unfold JS.nadd. rewrite Number_small by lia.
  apply lookup_insert_ne. lia.
Qed.

Lemma readMemory_absent s addr size :
  1 <= size -> within_one_region addr size ->
  (forall i, 0 <= i < size -> memory s !! (addr + i) = None) ->
  readMemory addr size s = (Ok 0, s).
Proof.
  intros Hsize Hin Habs.
  destruct (validate_read_ok addr size s Hsize Hin) as [r Hv].
  pose proof (region_range _ _ Hin) as Hr.
  unfold readMemory, bind, get. rewrite Hv.
  rewrite Number_small by lia.
  rewrite load_bytes_absent; try lia.
  - cbn. now rewrite andb_false_r.
  - intros j Hj. apply Habs. lia.
Qed.

End MemoryContents.

(** C9.  A read of a range inside a region none of whose bytes is in the
    memory map returns 0 and changes nothing, in every region; after
    [reset] that is every valid read; and a byte that was absent still
    reads 0 after a write (checked or initialising) to a range that does
    not contain it. *)
Theorem unwritten_memory_reads_zero :
  forall (s : Simulator) (addr size : Z),
    1 <= size ->
    within_one_region addr size ->
    ((forall i, 0 <= i < size -> memory s !! (addr + i) = None) ->
       readMemory addr size s = (Ok 0, s))
    /\ readMemory addr size reset = (Ok 0, reset)
    /\ (forall a value n skip s' i,
          writeMemory a value n skip s = (Ok tt, s') ->
          0 <= i < size ->
          (addr + i < a \/ a + n <= addr + i) ->
          memory s !! (addr + i) = None ->
          readMemory (addr + i) 1 s' = (Ok 0, s')).
Proof.
  intros s addr size Hsize Hin. split; [|split].
  - now apply readMemory_absent.
  - apply readMemory_absent; auto; intros i _; apply lookup_empty.
  - intros a value n skip s' i Hw Hi Hout Habs.
    pose proof (region_range _ _ Hin) as Hr.
    assert (Hin1 : within_one_region (addr + i) 1).
    { destruct Hin as (r & Hr1 & Hr2 & Hr3). exists r. repeat split; auto; lia. }
    apply readMemory_absent; [lia|exact Hin1|].
    intros j Hj. assert (j = 0) as -> by lia. rewrite Z.add_0_r.
    apply writeMemory_ok_inv in Hw as (-> & Hwin & Hwr).
    cbn [memory set_memory].
    rewrite Number_small by lia.
    pose proof (region_range _ _ Hwin) as Hwe.
    destruct (Z_le_gt_dec n 0).
    + now rewrite Z2Nat.nonpos by lia.
    + rewrite store_bytes_other; [exact Habs|lia|lia| |];
        rewrite Z2Nat.id by lia; lia.
Qed.

(** A four-byte read in the heap of a simulator whose only stored byte
    is elsewhere. *)
Lemma unwritten_memory_reads_zero_witness :
  readMemory 0x00400000 4 (set_memory (fun m => <[0x00200000 := 7]> m) reset)
  = (Ok 0, set_memory (fun m => <[0x00200000 := 7]> m) reset).
Proof.
  refine (proj1 (unwritten_memory_reads_zero
                   (set_memory (fun m => <[0x00200000 := 7]> m) reset)
                   0x00400000 4 _ _) _).
  - lia.
  - exists heap. cbn. intuition lia.
  - intros i Hi. cbn [memory set_memory reset].
    rewrite lookup_insert_ne by lia. apply lookup_empty.
Defined.

(** ** The initial stack pointer (C10) *)

Lemma validate_initialSp s size isWrite :
  1 <= size ->
  validateMemoryAccess initialSp size isWrite s = (Throw (OutOfBounds initialSp), s).
Proof.
  intros Hsize. unfold validateMemoryAccess, throw.
  change initialSp with 0x08000000. cbn [Z.eqb Z.ltb Z.compare Pos.compare Pos.compare_cont orb andb].
  destruct (Z.ltb_spec 134217727 (134217728 + (size - 1))); [reflexivity|lia].
Qed.

(** C10.  After [reset] the stack pointer is 0x08000000, the address
    after the last byte of the stack region, and it is in no region; a
    validation at that address fails for every positive size, so a
    [str] or [ldr] whose effective address is the initial stack pointer
    throws and leaves the simulator as it was; once [sub sp, sp, #16]
    has run from the reset state, [str x0, [sp]] and [ldr x1, [sp]]
    succeed. *)
Theorem initial_sp_is_not_addressable :
  registers reset !! "sp" = Some 0x08000000
  /\ initialSp = r_end stack + 1
  /\ (forall r, In r memoryLayout -> in_region r initialSp = false)
  /\ (forall s size isWrite, 1 <= size ->
        validateMemoryAccess initialSp size isWrite s
        = (Throw (OutOfBounds initialSp), s))
  /\ (forall s p, effective_address s p = initialSp ->
        src p <> None -> base p <> None ->
        executeStr p s = (Throw (OutOfBounds initialSp), s))
  /\ (forall s p, effective_address s p = initialSp ->
        dest p <> None -> base p <> None ->
        executeLdr p s = (Throw (OutOfBounds initialSp), s))
  /\ effective_address reset str_x0_sp = initialSp
  /\ effective_address reset ldr_x1_sp = initialSp
  /\ (let r := executeSub sub_sp_16 false reset in
      fst r = Ok tt
      /\ registers (snd r) !! "sp" = Some 0x07FFFFF0
      /\ succeeds (executeStr str_x0_sp (snd r)) = true
      /\ succeeds (executeLdr ldr_x1_sp (snd r)) = true).
Proof.
  split; [reflexivity|]. split; [reflexivity|]. split.
  { intros r Hin. unfold memoryLayout in Hin. cbn [In] in Hin.
    destruct Hin as [<-|[<-|[<-|[<-|[<-|[]]]]]]; reflexivity. }
  split; [intros; now apply validate_initialSp|]. split.
  { intros s p Hea Hsrc Hbase. unfold executeStr.
    destruct (src p) as [r|] eqn:Es; [|congruence].
    destruct (base p) as [b|] eqn:Eb; [|congruence].
    unfold bind, get. rewrite <- Es, <- Eb.
    fold (effective_address s p). rewrite Hea.
    unfold writeMemory, bind. cbn [negb].
    rewrite validate_initialSp; [reflexivity|]. destruct (is_w (src p)); lia. }
  split.
  { intros s p Hea Hdest Hbase. unfold executeLdr.
    destruct (dest p) as [r|] eqn:Es; [|congruence].
    destruct (base p) as [b|] eqn:Eb; [|congruence].
    unfold bind, get. rewrite <- Es, <- Eb.
    fold (effective_address s p). rewrite Hea.
    unfold readMemory, bind.
    rewrite validate_initialSp; [reflexivity|]. destruct (is_w (dest p)); lia. }
  split; [reflexivity|]. split; [reflexivity|].
  cbv zeta. split; [vm_compute; reflexivity|].
  split; [vm_compute; reflexivity|].
  split; vm_compute; reflexivity.
Qed.

(** The store [str x0, [sp]] right after [reset]. *)
Lemma initial_sp_is_not_addressable_witness :
  executeStr str_x0_sp reset = (Throw (OutOfBounds initialSp), reset).
Proof.
  refine (proj1 (proj2 (proj2 (proj2 (proj2 initial_sp_is_not_addressable))))
            reset str_x0_sp _ _ _).
  - reflexivity.
  - discriminate.
  - discriminate.
Defined.

(** ** NZCV flags (C1) *)

Section FlagFacts.

Variable w : Z.
Hypothesis Hw : w = 32 \/ w = 64.

Lemma size_mask_ones : size_mask w = Z.ones w.
Proof. destruct Hw as [-> | ->]; reflexivity. Qed.

Lemma size_signMask_pow : size_signMask w = 2 ^ (w - 1).
Proof. destruct Hw as [-> | ->]; reflexivity. Qed.

Lemma land_mask_mod z : Z.land z (size_mask w) = z mod 2 ^ w.
Proof. rewrite size_mask_ones. apply Z.land_ones. lia. Qed.

Lemma sign_test z :
  negb (Z.land z (size_signMask w) =? 0) = sign_bit w z.
Proof.
  rewrite size_signMask_pow, land_pow2_testbit by lia.
  apply negb_involutive.
Qed.

Lemma sign_bit_ge x :
  0 <= x < 2 ^ w -> sign_bit w x = (2 ^ (w - 1) <=? x).
Proof.
  intros Hx. unfold sign_bit.
  assert (Hp : 2 ^ w = 2 * 2 ^ (w - 1)).
  { replace w with (Z.succ (w - 1)) at 1 by lia. apply Z.pow_succ_r. lia. }
  assert (Hpos : 0 < 2 ^ (w - 1)) by (apply Z.pow_pos_nonneg; lia).
  rewrite Z.testbit_eqb by lia.
  destruct (Z.leb_spec (2 ^ (w - 1)) x).
  - assert (x / 2 ^ (w - 1) = 1) as ->; [|reflexivity].
    symmetry. apply Z.div_unique with (x - 2 ^ (w - 1)); lia.
  - rewrite Z.div_small by lia. reflexivity.
Qed.

Lemma compute_flags_spec operation v1 v2 result :
  result mod 2 ^ w
  = masked_result operation w (v1 mod 2 ^ w) (v2 mod 2 ^ w) ->
  result = result mod 2 ^ w ->
  compute_flags operation (Z.land v1 (size_mask w)) (Z.land v2 (size_mask w))
                result (size_mask w) (size_signMask w)
  = spec_flags operation w (v1 mod 2 ^ w) (v2 mod 2 ^ w)
               (masked_result operation w (v1 mod 2 ^ w) (v2 mod 2 ^ w)).
Proof.
  intros Hr Hm. unfold compute_flags, spec_flags.
  rewrite !sign_test, !land_mask_mod. rewrite <- Hr, <- Hm. reflexivity.
Qed.

End FlagFacts.

Lemma setRegisterValue_ok reg value s :
  exists s', setRegisterValue reg value s = (Ok tt, s').
Proof.
  destruct reg as [[| | |[] num]|]; cbn [setRegisterValue]; unfold modify, ret; eauto.
Qed.

Lemma flags_size_cases p : flags_size p = 32 \/ flags_size p = 64.
Proof. unfold flags_size. destruct (is_w (src1 p)); auto. Qed.

(** What a successful [executeArithmeticWithFlags] leaves in the flags. *)
Lemma executeArithmeticWithFlags_flags p operation writeResult s s' :
  executeArithmeticWithFlags p operation writeResult s = (Ok tt, s') ->
  exists val2,
    operand2 s p = Some val2
    /\ flags s'
       = let w := flags_size p in
         let m1 := getRegisterValue s (src1 p) mod 2 ^ w in
         let m2 := val2 mod 2 ^ w in
         spec_flags operation w m1 m2 (masked_result operation w m1 m2).
Proof.
  pose proof (flags_size_cases p) as Hw.
  assert (H2w : 0 < 2 ^ flags_size p) by (apply Z.pow_pos_nonneg; lia).
  unfold executeArithmeticWithFlags, operand2.
  destruct (src1 p) as [r1|] eqn:E1; [|discriminate].
  unfold bind at 1. unfold get at 1. cbv beta iota.
  set (val1 := getRegisterValue s (Some r1)).
  assert (Hfinish : forall (val2 result : Z) (s0 : Simulator),
            result mod 2 ^ flags_size p
            = masked_result operation (flags_size p)
                (val1 mod 2 ^ flags_size p) (val2 mod 2 ^ flags_size p) ->
            result = result mod 2 ^ flags_size p ->
            modify (set_flags
                      (compute_flags operation
                         (Z.land val1 (size_mask (flags_size p)))
                         (Z.land val2 (size_mask (flags_size p)))
                         result (size_mask (flags_size p))
                         (size_signMask (flags_size p)))) s0 = (Ok tt, s') ->
            flags s'
            = spec_flags operation (flags_size p) (val1 mod 2 ^ flags_size p)
                (val2 mod 2 ^ flags_size p)
                (masked_result operation (flags_size p)
                   (val1 mod 2 ^ flags_size p) (val2 mod 2 ^ flags_size p))).
  { intros val2 result s0 Hr Hm. unfold modify. cbv beta. intros [= <-].
    cbn [flags set_flags]. now apply compute_flags_spec. }
  assert (Hadd : forall a b, Z.land (a + b) (size_mask (flags_size p)) mod 2 ^ flags_size p
                 = masked_result op_add (flags_size p)
                     (a mod 2 ^ flags_size p) (b mod 2 ^ flags_size p)).
  { intros a b. rewrite land_mask_mod by exact Hw. rewrite Z.mod_mod by lia.
    unfold masked_result. apply Zplus_mod. }
  assert (Hsub : forall a b, Z.land (a - b) (size_mask (flags_size p)) mod 2 ^ flags_size p
                 = masked_result op_sub (flags_size p)
                     (a mod 2 ^ flags_size p) (b mod 2 ^ flags_size p)).
  { intros a b. rewrite land_mask_mod by exact Hw. rewrite Z.mod_mod by lia.
    unfold masked_result. apply Zminus_mod. }
  assert (Hmm : forall a, Z.land a (size_mask (flags_size p))
                 = Z.land a (size_mask (flags_size p)) mod 2 ^ flags_size p).
  { intros a. rewrite land_mask_mod by exact Hw. now rewrite Z.mod_mod by lia. }
  assert (Hadd' : forall a b,
             Z.land (Z.land a (size_mask (flags_size p)) + Z.land b (size_mask (flags_size p)))
                    (size_mask (flags_size p)) mod 2 ^ flags_size p
             = masked_result op_add (flags_size p)
                 (a mod 2 ^ flags_size p) (b mod 2 ^ flags_size p)).
  { intros a b. rewrite Hadd. rewrite !land_mask_mod by exact Hw.
    now rewrite !Z.mod_mod by lia. }
  assert (Hsub' : forall a b,
             Z.land (Z.land a (size_mask (flags_size p)) - Z.land b (size_mask (flags_size p)))
                    (size_mask (flags_size p)) mod 2 ^ flags_size p
             = masked_result op_sub (flags_size p)
                 (a mod 2 ^ flags_size p) (b mod 2 ^ flags_size p)).
  { intros a b. rewrite Hsub. rewrite !land_mask_mod by exact Hw.
    now rewrite !Z.mod_mod by lia. }
  assert (Hop2 : exists o, o = match immediate p with
                     | Some imm => Some imm
                     | None => match src2 p with
                               | Some _ => Some (getRegisterValue s (src2 p))
                               | None => None
                               end
                     end) by eauto.
  destruct Hop2 as [o Ho]. rewrite <- Ho.
  unfold bind at 1.
  assert (Hval : (match immediate p with
                  | Some imm => ret imm
                  | None => match src2 p with
                            | Some _ => ret (getRegisterValue s (src2 p))
                            | None => throw (InvalidInstruction "missing second operand")
                            end
                  end) s
                 = match o with
                   | Some v => (Ok v, s)
                   | None => (Throw (InvalidInstruction "missing second operand"), s)
                   end).
  { subst o. destruct (immediate p); [reflexivity|]. now destruct (src2 p). }
  rewrite Hval. destruct o as [val2|]; [|discriminate].
  intros Hrun. exists val2. split; [reflexivity|]. cbv zeta.
  revert Hrun. unfold bind at 1.
  destruct writeResult; [destruct (dest p) as [d|] eqn:Ed|].
  - destruct (is_sp d).
    + destruct operation.
      * destruct (negb (Z.rem val2 16 =? 0)); [discriminate|].
        destruct (negb (Z.rem (val1 + val2) 16 =? 0)); [discriminate|].
        unfold bind, ret.
        destruct (setRegisterValue_ok (Some d) (val1 + val2) s) as [sa ->].
        unfold destroyStackFrame, modify.
        apply Hfinish; [apply Hadd|apply Hmm].
      * destruct (negb (Z.rem val2 16 =? 0)); [discriminate|].
        destruct (negb (Z.rem (val1 - val2) 16 =? 0)); [discriminate|].
        destruct (val1 - val2 <? 0); [discriminate|].
        unfold bind, ret.
        destruct (setRegisterValue_ok (Some d) (val1 - val2) s) as [sa ->].
        unfold createStackFrame, modify.
        apply Hfinish; [apply Hsub|apply Hmm].
    + unfold bind, ret.
      destruct operation.
      * destruct (setRegisterValue_ok (Some d)
                    (Z.land (Z.land val1 (size_mask (flags_size p))
                             + Z.land val2 (size_mask (flags_size p)))
                            (size_mask (flags_size p))) s) as [sa ->].
        apply Hfinish; auto.
      * destruct (setRegisterValue_ok (Some d)
                    (Z.land (Z.land val1 (size_mask (flags_size p))
                             - Z.land val2 (size_mask (flags_size p)))
                            (size_mask (flags_size p))) s) as [sa ->].
        apply Hfinish; auto.
  - unfold ret. destruct operation; apply Hfinish; auto.
  - unfold ret. destruct operation; apply Hfinish; auto.
Qed.

Section FlagMeaning.

Variable w : Z.
Hypothesis Hw : w = 32 \/ w = 64.

Lemma toSigned_spec x :
  0 <= x < 2 ^ w ->
  toSigned x w = if 2 ^ (w - 1) <=? x then x - 2 ^ w else x.
Proof.
  intros Hx. unfold toSigned.
  assert (E : Z.shiftl 1 (if w =? 64 then 63 else 31) = 2 ^ (w - 1))
    by (destruct Hw as [-> | ->]; reflexivity).
  rewrite E, land_pow2_testbit, negb_involutive by lia.
  fold (sign_bit w x). rewrite (sign_bit_ge w Hw x Hx).
  rewrite Z.shiftl_1_l. reflexivity.
Qed.

Lemma pow_split : 2 ^ w = 2 * 2 ^ (w - 1) /\ 0 < 2 ^ (w - 1).
Proof.
  split.
  - replace w with (Z.succ (w - 1)) at 1 by lia. apply Z.pow_succ_r. lia.
  - apply Z.pow_pos_nonneg; lia.
Qed.

Lemma add_result_cases a b :
  0 <= a < 2 ^ w -> 0 <= b < 2 ^ w ->
  (a + b < 2 ^ w /\ (a + b) mod 2 ^ w = a + b)
  \/ (2 ^ w <= a + b /\ (a + b) mod 2 ^ w = a + b - 2 ^ w).
Proof.
  intros Ha Hb. destruct (Z_lt_le_dec (a + b) (2 ^ w)).
  - left. split; [lia|]. apply Z.mod_small. lia.
  - right. split; [lia|]. symmetry. apply Z.mod_unique with 1; lia.
Qed.

Lemma sub_result_cases a b :
  0 <= a < 2 ^ w -> 0 <= b < 2 ^ w ->
  (b <= a /\ (a - b) mod 2 ^ w = a - b)
  \/ (a < b /\ (a - b) mod 2 ^ w = a - b + 2 ^ w).
Proof.
  intros Ha Hb. destruct (Z_le_gt_dec b a).
  - left. split; [lia|]. apply Z.mod_small. lia.
  - right. split; [lia|]. symmetry. apply Z.mod_unique with (-1); lia.
Qed.

(** Carry of an addition: the result wrapped below the first operand
    exactly when the true sum does not fit. *)
Lemma add_carry_meaning a b :
  0 <= a < 2 ^ w -> 0 <= b < 2 ^ w ->
  ((a + b) mod 2 ^ w <? a) = true <-> 2 ^ w <= a + b.
Proof.
  intros Ha Hb. rewrite Z.ltb_lt.
  destruct (add_result_cases a b Ha Hb) as [[H1 ->]|[H1 ->]]; lia.
Qed.

(** Overflow of an addition: the sign rule holds exactly when the sum of
    the signed readings is not representable. *)
Lemma add_overflow_meaning a b :
  0 <= a < 2 ^ w -> 0 <= b < 2 ^ w ->
  Bool.eqb (sign_bit w a) (sign_bit w b)
  && negb (Bool.eqb (sign_bit w ((a + b) mod 2 ^ w)) (sign_bit w a)) = true
  <-> ~ (- 2 ^ (w - 1) <= toSigned a w + toSigned b w < 2 ^ (w - 1)).
Proof.
  intros Ha Hb. destruct pow_split as [Hp Hpos].
  assert (Hr : 0 <= (a + b) mod 2 ^ w < 2 ^ w) by (apply Z.mod_pos_bound; lia).
  rewrite !(sign_bit_ge w Hw) by assumption.
  rewrite !toSigned_spec by assumption.
  destruct (add_result_cases a b Ha Hb) as [[H1 ->]|[H1 ->]];
    destruct (Z.leb_spec (2 ^ (w - 1)) a), (Z.leb_spec (2 ^ (w - 1)) b);
    cbn [Bool.eqb andb negb];
    try match goal with
        | |- context [?x <=? ?y] => destruct (Z.leb_spec x y)
        end;
    cbn [Bool.eqb andb negb]; split; intros; try discriminate; try reflexivity; lia.
Qed.

Lemma sub_overflow_meaning a b :
  0 <= a < 2 ^ w -> 0 <= b < 2 ^ w ->
  negb (Bool.eqb (sign_bit w a) (sign_bit w b))
  && negb (Bool.eqb (sign_bit w ((a - b) mod 2 ^ w)) (sign_bit w a)) = true
  <-> ~ (- 2 ^ (w - 1) <= toSigned a w - toSigned b w < 2 ^ (w - 1)).
Proof.
  intros Ha Hb. destruct pow_split as [Hp Hpos].
  assert (Hr : 0 <= (a - b) mod 2 ^ w < 2 ^ w) by (apply Z.mod_pos_bound; lia).
  rewrite !(sign_bit_ge w Hw) by assumption.
  rewrite !toSigned_spec by assumption.
  destruct (sub_result_cases a b Ha Hb) as [[H1 ->]|[H1 ->]];
    destruct (Z.leb_spec (2 ^ (w - 1)) a), (Z.leb_spec (2 ^ (w - 1)) b);
    cbn [Bool.eqb andb negb];
    try match goal with
        | |- context [?x <=? ?y] => destruct (Z.leb_spec x y)
        end;
    cbn [Bool.eqb andb negb]; split; intros; try discriminate; try reflexivity; lia.
Qed.

End FlagMeaning.

(** C1.  After a successful [adds], [subs], [cmp] or [cmn] (the four
    combinations of operation and write-back), at the width [w] the
    handler chose, with masked operands [m1], [m2] and masked result
    [r]: N is bit [w-1] of [r]; Z says that [r] is zero; for an addition
    C says [r < m1], which is the case exactly when the true sum needs
    more than [w] bits; for a subtraction C says [m1 >= m2]; V is the
    sign rule of the operation, which holds exactly when the result of
    the signed readings is not representable in [w] bits.  And
    [cmp x0, x1] with x0 = 5 and x1 = 10 gives N, not Z, not C, not V. *)
Theorem nzcv_flags_of_arithmetic :
  (forall s p operation writeResult s',
      executeArithmeticWithFlags p operation writeResult s = (Ok tt, s') ->
      exists val2,
        operand2 s p = Some val2 /\
        let w := flags_size p in
        let m1 := getRegisterValue s (src1 p) mod 2 ^ w in
        let m2 := val2 mod 2 ^ w in
        let r := masked_result operation w m1 m2 in
        (w = 32 \/ w = 64)
        /\ flag_N (flags s') = Z.testbit r (w - 1)
        /\ flag_Z (flags s') = (r =? 0)
        /\ match operation with
           | op_add =>
               flag_C (flags s') = (r <? m1)
               /\ (flag_C (flags s') = true <-> 2 ^ w <= m1 + m2)
               /\ flag_V (flags s')
                  = (Bool.eqb (sign_bit w m1) (sign_bit w m2)
                     && negb (Bool.eqb (sign_bit w r) (sign_bit w m1)))
               /\ (flag_V (flags s') = true <->
                   ~ (- 2 ^ (w - 1) <= toSigned m1 w + toSigned m2 w < 2 ^ (w - 1)))
           | op_sub =>
               flag_C (flags s') = (m2 <=? m1)
               /\ (flag_C (flags s') = true <-> m2 <= m1)
               /\ flag_V (flags s')
                  = (negb (Bool.eqb (sign_bit w m1) (sign_bit w m2))
                     && negb (Bool.eqb (sign_bit w r) (sign_bit w m1)))
               /\ (flag_V (flags s') = true <->
                   ~ (- 2 ^ (w - 1) <= toSigned m1 w - toSigned m2 w < 2 ^ (w - 1)))
           end)
  /\ (let out := executeArithmeticWithFlags cmp_x0_x1 op_sub false sim_5_10 in
      fst out = Ok tt /\ flags (snd out) = mkFlags true false false false).
Proof.
  split.
  - intros s p operation writeResult s' Hrun.
    destruct (executeArithmeticWithFlags_flags _ _ _ _ _ Hrun) as (val2 & Hop & Hfl).
    exists val2. split; [exact Hop|]. cbv zeta in Hfl |- *.
    pose proof (flags_size_cases p) as Hw.
    set (w := flags_size p) in *.
    assert (H2w : 0 < 2 ^ w) by (apply Z.pow_pos_nonneg; lia).
    set (m1 := getRegisterValue s (src1 p) mod 2 ^ w) in *.
    set (m2 := val2 mod 2 ^ w) in *.
    assert (Hm1 : 0 <= m1 < 2 ^ w) by (apply Z.mod_pos_bound; lia).
    assert (Hm2 : 0 <= m2 < 2 ^ w) by (apply Z.mod_pos_bound; lia).
    rewrite Hfl. cbn [flag_N flag_Z flag_C flag_V spec_flags].
    split; [exact Hw|]. split; [reflexivity|]. split; [reflexivity|].
    destruct operation; cbn [masked_result].
    + split; [reflexivity|]. split; [now apply add_carry_meaning|].
      split; [reflexivity|]. now apply add_overflow_meaning.
    + split; [reflexivity|]. split; [apply Z.leb_le|].
      split; [reflexivity|]. now apply sub_overflow_meaning.
  - cbv zeta. split; vm_compute; reflexivity.
Qed.

(** The general rule at the scenario [cmp x0, x1], x0 = 5, x1 = 10. *)
Lemma nzcv_flags_of_arithmetic_witness :
  exists val2,
    operand2 sim_5_10 cmp_x0_x1 = Some val2 /\
    flag_C (flags (snd (executeArithmeticWithFlags cmp_x0_x1 op_sub false sim_5_10)))
    = (val2 mod 2 ^ 64 <=? getRegisterValue sim_5_10 (Some (RObj x_type 0)) mod 2 ^ 64).
Proof.
  destruct (proj1 nzcv_flags_of_arithmetic sim_5_10 cmp_x0_x1 op_sub false
              (snd (executeArithmeticWithFlags cmp_x0_x1 op_sub false sim_5_10)))
    as (val2 & Hop & _ & _ & _ & HC & _).
  - apply ok_run. vm_compute. reflexivity.
  - exists val2. split; [exact Hop|]. exact HC.
Defined.

(** ** Operand width and the written value (C3) *)

(** C3, the statement of the specification refuted: [adds x0, x1, w2]
    with x1 = 2^32 and w2 = 0 has a w operand, so the stated width is 32
    and the stated value is 0, but the handler takes the width from the
    first operand alone and writes 2^32. *)
Lemma written_masked_to_spec_width_counterexample :
  ~ written_masked_to_spec_width
      (fun p => executeArithmeticWithFlags p op_add true)
      op_add sim_x1_pow32 adds_x0_x1_w2.
Proof.
  intros H.
  specialize (H x_type 0%nat
                (snd (executeArithmeticWithFlags adds_x0_x1_w2 op_add true sim_x1_pow32))
                0 eq_refl).
  assert (E1 : operand2 sim_x1_pow32 adds_x0_x1_w2 = Some 0) by (vm_compute; reflexivity).
  assert (E2 : executeArithmeticWithFlags adds_x0_x1_w2 op_add true sim_x1_pow32
               = (Ok tt, snd (executeArithmeticWithFlags adds_x0_x1_w2 op_add true sim_x1_pow32)))
    by (apply ok_run; vm_compute; reflexivity).
  specialize (H E1 E2). vm_compute in H. discriminate H.
Qed.

Section WrittenValue.

Lemma setRegisterValue_obj type num value s :
  exists s',
    setRegisterValue (Some (RObj type num)) value s = (Ok tt, s')
    /\ registers s' = <[xname num := written type value]> (registers s)
    /\ flags s' = flags s.
Proof.
  destruct type; cbn [setRegisterValue written]; unfold modify;
    eexists; (split; [reflexivity|]); cbn; rewrite ?land_ones_32; auto.
Qed.

Lemma flags_handler_written p operation s s' type num val2 :
  dest p = Some (RObj type num) ->
  operand2 s p = Some val2 ->
  executeArithmeticWithFlags p operation true s = (Ok tt, s') ->
  registers s' !! xname num
  = Some (written type
            (let w := flags_size p in
             masked_result operation w
               (getRegisterValue s (src1 p) mod 2 ^ w) (val2 mod 2 ^ w))).
Proof.
  intros Hdest Hop. pose proof (flags_size_cases p) as Hw.
  assert (H2w : 0 < 2 ^ flags_size p) by (apply Z.pow_pos_nonneg; lia).
  unfold executeArithmeticWithFlags, operand2 in *.
  destruct (src1 p) as [r1|] eqn:E1; [|discriminate].
  unfold bind at 1. unfold get at 1. cbv beta iota.
  unfold bind at 1.
  assert (Hval : (match immediate p with
                  | Some imm => ret imm
                  | None => match src2 p with
                            | Some _ => ret (getRegisterValue s (src2 p))
                            | None => throw (InvalidInstruction "missing second operand")
                            end
                  end) s = (Ok val2, s)).
  { destruct (immediate p); [injection Hop as Hop; now subst val2|].
    destruct (src2 p); [injection Hop as Hop; now subst val2|discriminate]. }
  rewrite Hval. rewrite Hdest. cbn [is_sp]. unfold bind, ret, modify.
  set (result0 := match operation with
                  | op_add => _
                  | op_sub => _
                  end).
  destruct (setRegisterValue_obj type num result0 s) as (sa & -> & Hregs & _).
  intros [= <-]. cbn [registers set_flags]. rewrite Hregs, lookup_insert_eq.
  do 2 f_equal. subst result0. cbv zeta.
  rewrite !land_mask_mod by exact Hw.
  destruct operation; cbn [masked_result]; reflexivity.
Qed.

Lemma flags_handler_compare p operation s s' :
  executeArithmeticWithFlags p operation false s = (Ok tt, s') ->
  registers s' = registers s.
Proof.
  unfold executeArithmeticWithFlags.
  destruct (src1 p) as [r1|]; [|discriminate].
  unfold bind at 1. unfold get at 1. cbv beta iota. unfold bind at 1.
  destruct (immediate p) as [imm|]; [|destruct (src2 p)]; unfold ret, throw;
    try discriminate; unfold bind, ret, modify; now intros [= <-].
Qed.

Lemma add_second_operand_cases p s :
  (exists l, add_second_operand p s = (Throw (LabelNotFound l), s))
  \/ add_second_operand p s = (Ok (add_operand s p), s).
Proof.
  unfold add_second_operand, add_operand, ret, throw.
  destruct (immediate p); [now right|].
  destruct (labelOp p) as [lo|]; [|destruct (src2 p); now right].
  destruct (truthy (label p)) as [l|].
  - destruct (String.eqb_spec lo "lo12") as [->|Hne].
    + destruct (symbolTable s !! l); [now right|left; eauto].
    + assert (Hsame : forall (A : Type) (a b : A),
                 match lo with "lo12"%string => a | _ => b end = b).
      { intros A a b.
        repeat (match goal with
                | |- context [match ?x with _ => _ end] => destruct x; auto
                end); contradiction. }
      rewrite !Hsame. destruct (src2 p); now right.
  - assert (Hsame : forall (A : Type) (a : A),
               match lo with "lo12"%string => a | _ => a end = a).
    { intros A a.
      repeat (match goal with
              | |- context [match ?x with _ => _ end] => destruct x; auto
              end). }
    rewrite !Hsame. destruct (src2 p); now right.
Qed.

Lemma executeAdd_written p s s' type num val2 :
  dest p = Some (RObj type num) ->
  add_operand s p = Some val2 ->
  executeAdd p s = (Ok tt, s') ->
  registers s' !! xname num
  = Some (written type (getRegisterValue s (src1 p) + val2)).
Proof.
  intros Hdest Hop. unfold executeAdd, add_operand in *. rewrite Hdest.
  destruct (src1 p) as [r1|] eqn:E1; [|discriminate].
  unfold bind at 1. unfold get at 1. cbv beta iota. unfold bind at 1.
  destruct (add_second_operand_cases p s) as [[l Hl]|Hpick];
    [rewrite Hl; discriminate|].
  unfold add_operand in Hpick. rewrite Hop in Hpick.
  rewrite Hpick. cbn [is_sp].
  destruct (setRegisterValue_obj type num (getRegisterValue s (Some r1) + val2) s)
    as (sa & -> & Hregs & _).
  intros [= <-]. now rewrite Hregs, lookup_insert_eq.
Qed.

Lemma executeSub_written p setFlags s s' type num val2 :
  dest p = Some (RObj type num) ->
  operand2 s p = Some val2 ->
  executeSub p setFlags s = (Ok tt, s') ->
  registers s' !! xname num
  = Some (written type (getRegisterValue s (src1 p) - val2)).
Proof.
  intros Hdest Hop. unfold executeSub, operand2 in *. rewrite Hdest.
  destruct (src1 p) as [r1|] eqn:E1; [|discriminate].
  unfold bind at 1. unfold get at 1. cbv beta iota. unfold bind at 1.
  assert (Hval : (match immediate p with
                  | Some imm => ret imm
                  | None => match src2 p with
                            | Some _ => ret (getRegisterValue s (src2 p))
                            | None => throw (InvalidInstruction "sub")
                            end
                  end) s = (Ok val2, s)).
  { destruct (immediate p); [injection Hop as Hop; now subst val2|].
    destruct (src2 p); [injection Hop as Hop; now subst val2|discriminate]. }
  rewrite Hval. cbn [is_sp]. unfold bind.
  destruct (setRegisterValue_obj type num (getRegisterValue s (Some r1) - val2) s)
    as (sa & -> & Hregs & _).
  destruct setFlags; unfold updateFlags, modify, ret; intros [= <-];
    cbn [registers set_flags]; now rewrite Hregs, lookup_insert_eq.
Qed.

End WrittenValue.

(** C3, amended.  [adds], [subs], [cmp] and [cmn] work at 32 bits when
    the first operand register is a w view and at 64 bits otherwise;
    [adds] and [subs] write the sum or difference of the masked operands,
    masked to that width, to a general-register destination (an x
    register receives it as it is, a w register its low 32 bits, which
    is the same value when the width is 32); [cmp] and [cmn] write no
    register.  [add] and [sub] write the low 32 bits of the sum or
    difference to a w destination, and to an x destination the sum or
    difference when that lies between 0 and 2^64 - 1. *)
Theorem written_value_by_first_operand_width :
  forall (s s' : Simulator) (p : Parsed) (type : RegType) (num : nat) (val2 : Z),
    dest p = Some (RObj type num) ->
    let val1 := getRegisterValue s (src1 p) in
    (forall operation,
        operand2 s p = Some val2 ->
        executeArithmeticWithFlags p operation true s = (Ok tt, s') ->
        let w := flags_size p in
        let r := masked_result operation w (val1 mod 2 ^ w) (val2 mod 2 ^ w) in
        w = (if is_w (src1 p) then 32 else 64)
        /\ registers s' !! xname num = Some (written type r)
        /\ (type = x_type -> written type r = r)
        /\ (w = 32 -> written type r = r))
    /\ (forall operation,
        executeArithmeticWithFlags p operation false s = (Ok tt, s') ->
        registers s' = registers s)
    /\ (add_operand s p = Some val2 ->
        executeAdd p s = (Ok tt, s') ->
        (type = w_type ->
           registers s' !! xname num = Some ((val1 + val2) mod 2 ^ 32))
        /\ (type = x_type -> 0 <= val1 + val2 < 2 ^ 64 ->
           registers s' !! xname num = Some ((val1 + val2) mod 2 ^ 64)))
    /\ (forall setFlags,
        operand2 s p = Some val2 ->
        executeSub p setFlags s = (Ok tt, s') ->
        (type = w_type ->
           registers s' !! xname num = Some ((val1 - val2) mod 2 ^ 32))
        /\ (type = x_type -> 0 <= val1 - val2 < 2 ^ 64 ->
           registers s' !! xname num = Some ((val1 - val2) mod 2 ^ 64))).
Proof.
  intros s s' p type num val2 Hdest val1. repeat split.
  - eapply flags_handler_written; eauto.
  - intros ->. reflexivity.
  - intros Hw. destruct type; [reflexivity|]. cbn [written]. rewrite Hw.
    destruct operation; cbn [masked_result]; apply Z.mod_mod; lia.
  - intros operation. apply flags_handler_compare.
  - intros ->. erewrite executeAdd_written by eauto. reflexivity.
  - intros -> Hr. erewrite executeAdd_written by eauto.
    cbn [written]. fold val1. now rewrite Z.mod_small.
  - intros ->. erewrite executeSub_written by eauto. reflexivity.
  - intros -> Hr. erewrite executeSub_written by eauto.
    cbn [written]. fold val1. now rewrite Z.mod_small.
Qed.

(** The amended rule at [adds x0, x1, w2] with x1 = 2^32: the width is
    64 and x0 receives 2^32. *)
Lemma written_value_by_first_operand_width_witness :
  registers (snd (executeArithmeticWithFlags adds_x0_x1_w2 op_add true sim_x1_pow32))
    !! xname 0
  = Some (2 ^ 32).
Proof.
  pose proof (proj1 (written_value_by_first_operand_width sim_x1_pow32
                (snd (executeArithmeticWithFlags adds_x0_x1_w2 op_add true sim_x1_pow32))
                adds_x0_x1_w2 x_type 0%nat 0 eq_refl) op_add) as H.
  cbv zeta in H.
  destruct H as (_ & H & _).
  - vm_compute. reflexivity.
  - apply ok_run. vm_compute. reflexivity.
  - rewrite H. vm_compute. reflexivity.
Defined.

(** The slip left out of the amended statement, evaluated: after
    [reset], [sub x0, x0, #1] leaves the BigInt -1 in x0, not the 64-bit
    value 2^64 - 1 that [subs] would write. *)
Lemma sub_is_not_masked :
  registers (snd (executeSub sub_x0_x0_1 false reset)) !! "x0" = Some (-1)
  /\ registers (snd (executeArithmeticWithFlags sub_x0_x0_1 op_sub true reset)) !! "x0"
     = Some (2 ^ 64 - 1).
Proof. split; vm_compute; reflexivity. Qed.

(** ** Stack operations and frame records (C5) *)

Section FrameLists.

Lemma insert_frame_length x acc : length (insert_frame x acc) = S (length acc).
Proof.
  induction acc as [|y acc IH]; cbn [insert_frame]; [reflexivity|].
  destruct (f_sp y <? f_sp x); cbn [length]; congruence.
Qed.

Lemma sort_frames_length l : length (sort_frames l) = length l.
Proof.
  unfold sort_frames.
  assert (H : forall acc, length (fold_left (fun acc x => insert_frame x acc) l acc)
                          = (length acc + length l)%nat).
  { induction l as [|x l IH]; intros acc; cbn [fold_left length]; [lia|].
    rewrite IH, insert_frame_length. lia. }
  now rewrite H.
Qed.

Lemma insert_frame_Forall (P : StackFrame -> Prop) x acc :
  P x -> Forall P acc -> Forall P (insert_frame x acc).
Proof.
  intros Hx. induction 1 as [|y acc Hy Hacc IH]; cbn [insert_frame].
  - now constructor.
  - destruct (f_sp y <? f_sp x); repeat constructor; auto.
Qed.

Lemma insert_frame_sorted x acc :
  sorted_desc acc -> sorted_desc (insert_frame x acc).
Proof.
  induction acc as [|y acc IH]; cbn [insert_frame sorted_desc].
  - intros _. split; [constructor|exact I].
  - intros [Hy Hs]. destruct (Z.ltb_spec (f_sp y) (f_sp x)); cbn [sorted_desc].
    + split; [|split; assumption].
      constructor; [lia|].
      eapply Forall_impl; [exact Hy|]. cbv beta. intros. lia.
    + split; [|now apply IH].
      apply insert_frame_Forall; [lia|exact Hy].
Qed.

Lemma sort_frames_sorted l : sorted_desc (sort_frames l).
Proof.
  unfold sort_frames.
  assert (H : forall acc, sorted_desc acc ->
                sorted_desc (fold_left (fun acc x => insert_frame x acc) l acc)).
  { induction l as [|x l IH]; intros acc Hacc; cbn [fold_left]; [exact Hacc|].
    apply IH. now apply insert_frame_sorted. }
  apply H. exact I.
Qed.

Lemma insert_frame_last x acc :
  Forall (fun y => f_sp x <= f_sp y) acc -> insert_frame x acc = acc ++ [x].
Proof.
  induction 1 as [|y acc Hy Hacc IH]; cbn [insert_frame]; [reflexivity|].
  destruct (Z.ltb_spec (f_sp y) (f_sp x)); [lia|]. cbn. now rewrite IH.
Qed.

Lemma sorted_desc_app_inv acc x l :
  sorted_desc (acc ++ x :: l) -> Forall (fun y => f_sp x <= f_sp y) acc.
Proof.
  induction acc as [|y acc IH]; cbn [app sorted_desc]; [constructor|].
  intros [Hy Hs]. constructor; [|now apply IH].
  rewrite Forall_app in Hy. destruct Hy as [_ Hy].
  now inversion Hy.
Qed.

Lemma sort_frames_sorted_id l : sorted_desc l -> sort_frames l = l.
Proof.
  unfold sort_frames.
  assert (H : forall acc, sorted_desc (acc ++ l) ->
                fold_left (fun acc x => insert_frame x acc) l acc = acc ++ l).
  { induction l as [|x l IH]; intros acc Hs; cbn [fold_left].
    - now rewrite app_nil_r.
    - rewrite insert_frame_last by (eapply sorted_desc_app_inv; eauto).
      rewrite IH; rewrite <- app_assoc; [reflexivity|exact Hs]. }
  intros Hs. now apply (H []).
Qed.

Lemma sort_frames_snoc l x :
  sorted_desc l -> sort_frames (l ++ [x]) = insert_frame x l.
Proof.
  intros Hs. unfold sort_frames. rewrite fold_left_app. cbn [fold_left].
  fold (sort_frames l). now rewrite sort_frames_sorted_id.
Qed.

(** Looking for the frame just inserted, when no older frame matches. *)
Lemma findIndex_inserted (P : StackFrame -> bool) x l :
  P x = true -> Forall (fun y => P y = false) l ->
  exists i, findIndex P (insert_frame x l) = Some i
            /\ delete i (insert_frame x l) = l.
Proof.
  intros Hx. induction 1 as [|y l Hy Hl IH]; cbn [insert_frame].
  - exists O. cbn [findIndex]. now rewrite Hx.
  - destruct (f_sp y <? f_sp x).
    + exists O. cbn [findIndex]. now rewrite Hx.
    + destruct IH as (i & Hi & Hd). exists (S i). cbn [findIndex].
      rewrite Hy, Hi. split; [reflexivity|].
      change (y :: delete i (insert_frame x l) = y :: l). now rewrite Hd.
Qed.

Lemma create_frames_length id newSP size l :
  length (create_frames id newSP size l) = S (length l).
Proof.
  unfold create_frames. rewrite sort_frames_length, length_app. cbn. lia.
Qed.

Lemma create_frames_sorted id newSP size l :
  sorted_desc (create_frames id newSP size l).
Proof. apply sort_frames_sorted. Qed.

Lemma findIndex_lt {A} (P : A -> bool) (l : list A) i :
  findIndex P l = Some i -> (i < length l)%nat.
Proof.
  revert i. induction l as [|y l IH]; intros i; cbn [findIndex]; [discriminate|].
  destruct (P y).
  - intros [= <-]. cbn. lia.
  - destruct (findIndex P l) as [j|]; [|discriminate].
    intros [= <-]. specialize (IH j eq_refl). cbn. lia.
Qed.

Lemma destroy_frames_length newSP size l :
  length (destroy_frames newSP size l) = pred (length l).
Proof.
  unfold destroy_frames.
  destruct (findIndex _ l) as [i|] eqn:E.
  - apply findIndex_lt in E. rewrite length_delete by (apply lookup_lt_is_Some; lia).
    lia.
  - rewrite <- (sort_frames_length l). now destruct (sort_frames l).
Qed.

End FrameLists.

Section StackOperations.

Variable s : Simulator.
Variable p : Parsed.
Hypothesis Hdest : dest p = Some RSp.

Local Abbreviation val1 := (getRegisterValue s (src1 p)).

Lemma rem16_test v : negb (Z.rem v 16 =? 0) = false <-> Z.rem v 16 = 0.
Proof. destruct (Z.eqb_spec (Z.rem v 16) 0); cbn; intuition congruence. Qed.

Lemma executeAdd_sp s' :
  executeAdd p s = (Ok tt, s') ->
  (add_operand s p = None /\ s' = s)
  \/ (exists val2,
        add_operand s p = Some val2
        /\ Z.rem val2 16 = 0 /\ Z.rem (val1 + val2) 16 = 0
        /\ s' = sp_added s (val1 + val2) val2).
Proof.
  unfold executeAdd. rewrite Hdest.
  destruct (src1 p) as [r1|] eqn:E1; [|discriminate]. rewrite <- E1.
  unfold bind at 1. unfold get at 1. cbv beta iota. unfold bind at 1.
  destruct (add_second_operand_cases p s) as [[l Hl]|Hpick];
    [rewrite Hl; discriminate|].
  rewrite Hpick. destruct (add_operand s p) as [val2|].
  - cbn [is_sp].
    destruct (negb (Z.rem val2 16 =? 0)) eqn:T1; [discriminate|].
    destruct (negb (Z.rem (val1 + val2) 16 =? 0)) eqn:T2; [discriminate|].
    apply rem16_test in T1, T2.
    unfold bind, destroyStackFrame, modify. cbn [setRegisterValue]. unfold modify.
    intros [= <-]. right. exists val2. repeat split; auto.
  - unfold ret. intros [= <-]. now left.
Qed.

Lemma executeSub_sp setFlags s' :
  executeSub p setFlags s = (Ok tt, s') ->
  exists val2,
    operand2 s p = Some val2
    /\ Z.rem val2 16 = 0 /\ Z.rem (val1 - val2) 16 = 0 /\ 0 <= val1 - val2
    /\ s' = sp_subtracted s (val1 - val2) val2.
Proof.
  unfold executeSub, operand2. rewrite Hdest.
  destruct (src1 p) as [r1|] eqn:E1; [|discriminate]. rewrite <- E1.
  unfold bind at 1. unfold get at 1. cbv beta iota. unfold bind at 1.
  assert (Hval : exists o,
             o = match immediate p with
                 | Some imm => Some imm
                 | None => match src2 p with
                           | Some _ => Some (getRegisterValue s (src2 p))
                           | None => None
                           end
                 end
             /\ (match immediate p with
                 | Some imm => ret imm
                 | None => match src2 p with
                           | Some _ => ret (getRegisterValue s (src2 p))
                           | None => throw (InvalidInstruction "sub")
                           end
                 end) s
                = match o with
                  | Some v => (Ok v, s)
                  | None => (Throw (InvalidInstruction "sub"), s)
                  end).
  { eexists. split; [reflexivity|].
    destruct (immediate p); [reflexivity|]. now destruct (src2 p). }
  destruct Hval as (o & <- & ->).
  destruct o as [val2|]; [|discriminate].
  cbn [is_sp].
  destruct (negb (Z.rem val2 16 =? 0)) eqn:T1; [discriminate|].
  destruct (negb (Z.rem (val1 - val2) 16 =? 0)) eqn:T2; [discriminate|].
  destruct (Z.ltb_spec (val1 - val2) 0); [discriminate|].
  apply rem16_test in T1, T2.
  unfold bind, createStackFrame, modify. cbn [setRegisterValue]. unfold modify.
  intros [= <-]. exists val2. repeat split; auto.
Qed.

Lemma flags_handler_sp operation s' :
  executeArithmeticWithFlags p operation true s = (Ok tt, s') ->
  exists val2,
    operand2 s p = Some val2
    /\ Z.rem val2 16 = 0
    /\ match operation with
       | op_add =>
           Z.rem (val1 + val2) 16 = 0
           /\ registers s' = registers (sp_added s (val1 + val2) val2)
           /\ stackFrames s' = stackFrames (sp_added s (val1 + val2) val2)
       | op_sub =>
           Z.rem (val1 - val2) 16 = 0 /\ 0 <= val1 - val2
           /\ registers s' = registers (sp_subtracted s (val1 - val2) val2)
           /\ stackFrames s' = stackFrames (sp_subtracted s (val1 - val2) val2)
       end.
Proof.
  unfold executeArithmeticWithFlags, operand2. rewrite Hdest.
  destruct (src1 p) as [r1|] eqn:E1; [|discriminate]. rewrite <- E1.
  unfold bind at 1. unfold get at 1. cbv beta iota. unfold bind at 1.
  assert (Hval : exists o,
             o = match immediate p with
                 | Some imm => Some imm
                 | None => match src2 p with
                           | Some _ => Some (getRegisterValue s (src2 p))
                           | None => None
                           end
                 end
             /\ (match immediate p with
                 | Some imm => ret imm
                 | None => match src2 p with
                           | Some _ => ret (getRegisterValue s (src2 p))
                           | None => throw (InvalidInstruction "missing second operand")
                           end
                 end) s
                = match o with
                  | Some v => (Ok v, s)
                  | None => (Throw (InvalidInstruction "missing second operand"), s)
                  end).
  { eexists. split; [reflexivity|].
    destruct (immediate p); [reflexivity|]. now destruct (src2 p). }
  destruct Hval as (o & <- & ->).
  destruct o as [val2|]; [|discriminate].
  cbn [is_sp]. unfold bind at 1.
  destruct operation.
  - destruct (negb (Z.rem val2 16 =? 0)) eqn:T1; [discriminate|].
    destruct (negb (Z.rem (val1 + val2) 16 =? 0)) eqn:T2; [discriminate|].
    apply rem16_test in T1, T2.
    unfold bind, destroyStackFrame, modify, ret. cbn [setRegisterValue]. unfold modify.
    intros [= <-]. exists val2. repeat split; auto.
  - destruct (negb (Z.rem val2 16 =? 0)) eqn:T1; [discriminate|].
    destruct (negb (Z.rem (val1 - val2) 16 =? 0)) eqn:T2; [discriminate|].
    destruct (Z.ltb_spec (val1 - val2) 0); [discriminate|].
    apply rem16_test in T1, T2.
    unfold bind, createStackFrame, modify, ret. cbn [setRegisterValue]. unfold modify.
    intros [= <-]. exists val2. repeat split; auto.
Qed.

End StackOperations.

Section PairOfStackOperations.

Variable s : Simulator.
Variable oldSP : Z.
Hypothesis Hsp : registers s !! "sp" = Some oldSP.
Hypothesis Hrange : 16 <= oldSP < 2 ^ 53.
Hypothesis Haligned : Z.rem oldSP 16 = 0.

Lemma rem16_sub : Z.rem (oldSP - 16) 16 = 0.
Proof.
  rewrite Z.rem_mod_nonneg in * by lia.
  revert Haligned. Z.div_mod_to_equations. lia.
Qed.

Lemma sub_sp_16_runs :
  executeSub sub_sp_16 false s = (Ok tt, sp_subtracted s (oldSP - 16) 16).
Proof.
  unfold executeSub. cbn [dest src1 immediate sub_sp_16 is_sp].
  unfold bind at 1. unfold get at 1. cbv beta iota. unfold bind at 1, ret at 1.
  cbn [getRegisterValue]. unfold reg_lookup. rewrite Hsp. cbn [JS.or_default].
  destruct (Z.eqb_spec oldSP 0); [lia|].
  change (Z.rem 16 16) with 0. cbn [Z.eqb negb].
  rewrite rem16_sub. cbn [Z.eqb negb].
  destruct (Z.ltb_spec (oldSP - 16) 0); [lia|].
  reflexivity.
Qed.

Lemma add_sp_16_runs_after :
  executeAdd add_sp_16 (sp_subtracted s (oldSP - 16) 16)
  = (Ok tt, sp_added (sp_subtracted s (oldSP - 16) 16) oldSP 16).
Proof.
  unfold executeAdd. cbn [dest src1 add_sp_16 is_sp].
  unfold bind at 1. unfold get at 1. cbv beta iota. unfold bind at 1.
  unfold add_second_operand. cbn [immediate add_sp_16]. unfold ret at 1.
  cbn [getRegisterValue]. unfold reg_lookup.
  assert (E : registers (sp_subtracted s (oldSP - 16) 16) !! "sp" = Some (oldSP - 16)).
  { cbn. apply lookup_insert_eq. }
  rewrite E. cbn [JS.or_default].
  destruct (Z.eqb_spec (oldSP - 16) 0).
  - (* sp = 16: the stored stack pointer 0 reads back as 0 *)
    replace (0 + 16) with oldSP by lia.
    change (Z.rem 16 16) with 0. cbn [Z.eqb negb].
    rewrite Haligned. cbn [Z.eqb negb]. reflexivity.
  - replace (oldSP - 16 + 16) with oldSP by lia.
    change (Z.rem 16 16) with 0. cbn [Z.eqb negb].
    rewrite Haligned. cbn [Z.eqb negb]. reflexivity.
Qed.

Hypothesis Hsorted : sorted_desc (stackFrames s).
Hypothesis Hfresh :
  Forall (fun f => ~ (f_sp f = oldSP - 16 /\ f_size f = 16)) (stackFrames s).

Lemma pair_frames :
  stackFrames (sp_added (sp_subtracted s (oldSP - 16) 16) oldSP 16) = stackFrames s.
Proof.
  cbn [stackFrames sp_added sp_subtracted set_stackFrames add_changedRegisters
       set_registers nextFrameId].
  rewrite !Number_small by lia.
  unfold create_frames. rewrite sort_frames_snoc by exact Hsorted.
  unfold destroy_frames, JS.nsub. rewrite Number_small by lia.
  set (P := fun f => (f_sp f =? oldSP - 16) && (f_size f =? 16)).
  set (F := mkFrame _ _ _ _).
  destruct (findIndex_inserted P F (stackFrames s)) as (i & Hi & Hd).
  - subst P F. cbn. now rewrite !Z.eqb_refl.
  - eapply Forall_impl; [exact Hfresh|]. subst P. cbv beta.
    intros f Hf. destruct (Z.eqb_spec (f_sp f) (oldSP - 16)); [|reflexivity].
    destruct (Z.eqb_spec (f_size f) 16); [|reflexivity]. tauto.
  - now rewrite Hi.
Qed.

Lemma pair_sp :
  registers (sp_added (sp_subtracted s (oldSP - 16) 16) oldSP 16) !! "sp" = Some oldSP.
Proof. cbn. apply lookup_insert_eq. Qed.

End PairOfStackOperations.

(** C5, the statement of the specification refuted at a reachable
    state.  After [sub sp, sp, #16] twice, [add sp, sp, #32] and
    [sub sp, sp, #16] (all four succeed from [reset]), the list holds a
    left-over frame of size 16 at the address the next [sub] reaches;
    the pair then removes that older record and keeps the new one, so
    the list differs (in the frame id) from the list before the pair. *)
Lemma pair_restores_counterexample :
  (let r1 := executeSub sub_sp_16 false reset in
   let r2 := executeSub sub_sp_16 false (snd r1) in
   let r3 := executeAdd add_sp_32 (snd r2) in
   let r4 := executeSub sub_sp_16 false (snd r3) in
   succeeds r1 && succeeds r2 && succeeds r3 && succeeds r4 = true)
  /\ ~ pair_restores after_unbalanced_frames.
Proof.
  split.
  - vm_compute. reflexivity.
  - intros H.
    specialize (H (snd (executeSub sub_sp_16 false after_unbalanced_frames))
                  (snd (executeAdd add_sp_16
                          (snd (executeSub sub_sp_16 false after_unbalanced_frames))))).
    destruct H as [_ H].
    + apply ok_run. vm_compute. reflexivity.
    + apply ok_run. vm_compute. reflexivity.
    + apply (f_equal (map f_id)) in H. vm_compute in H. discriminate H.
Qed.

(** C5, amended.  At a state whose stack pointer is a multiple of 16,
    at least 16 and below 2^53, whose frame list is in the order the
    simulator keeps it and has no frame of size 16 at [sp - 16],
    [sub sp, sp, #16] and then [add sp, sp, #16] both succeed, the stack
    pointer is back to its value and the frame list is the list before
    the pair.  An [add], [adds], [sub] or [subs] with destination [sp]
    and a second operand (an immediate, a register or, for [add], a
    [:lo12:] label) succeeds only if the operand value is a multiple of
    16 and the stack pointer it leaves is a multiple of 16 (and not
    negative for a subtraction); a successful subtraction adds exactly
    one frame record, a successful addition removes exactly one when
    the list is not empty and none when it is; both keep the list
    ordered when it was. *)
Theorem stack_operations_keep_alignment_and_frames :
  forall (s : Simulator),
    (forall oldSP,
        registers s !! "sp" = Some oldSP ->
        16 <= oldSP < 2 ^ 53 ->
        Z.rem oldSP 16 = 0 ->
        sorted_desc (stackFrames s) ->
        Forall (fun f => ~ (f_sp f = oldSP - 16 /\ f_size f = 16)) (stackFrames s) ->
        exists s1 s2,
          executeSub sub_sp_16 false s = (Ok tt, s1)
          /\ executeAdd add_sp_16 s1 = (Ok tt, s2)
          /\ registers s1 !! "sp" = Some (oldSP - 16)
          /\ registers s2 !! "sp" = Some oldSP
          /\ stackFrames s2 = stackFrames s)
    /\ (forall p s' val2,
        dest p = Some RSp ->
        let val1 := getRegisterValue s (src1 p) in
        let frames := stackFrames s in
        (add_operand s p = Some val2 ->
         executeAdd p s = (Ok tt, s') ->
           Z.rem val2 16 = 0 /\ Z.rem (val1 + val2) 16 = 0
           /\ registers s' !! "sp" = Some (val1 + val2)
           /\ length (stackFrames s') = pred (length frames)
           /\ (sorted_desc frames -> sorted_desc (stackFrames s')))
        /\ (operand2 s p = Some val2 ->
            executeArithmeticWithFlags p op_add true s = (Ok tt, s') ->
              Z.rem val2 16 = 0 /\ Z.rem (val1 + val2) 16 = 0
              /\ registers s' !! "sp" = Some (val1 + val2)
              /\ length (stackFrames s') = pred (length frames)
              /\ (sorted_desc frames -> sorted_desc (stackFrames s')))
        /\ (forall setFlags,
            operand2 s p = Some val2 ->
            executeSub p setFlags s = (Ok tt, s') ->
              Z.rem val2 16 = 0 /\ Z.rem (val1 - val2) 16 = 0
              /\ 0 <= val1 - val2
              /\ registers s' !! "sp" = Some (val1 - val2)
              /\ length (stackFrames s') = S (length frames)
              /\ sorted_desc (stackFrames s'))
        /\ (operand2 s p = Some val2 ->
            executeArithmeticWithFlags p op_sub true s = (Ok tt, s') ->
              Z.rem val2 16 = 0 /\ Z.rem (val1 - val2) 16 = 0
              /\ 0 <= val1 - val2
              /\ registers s' !! "sp" = Some (val1 - val2)
              /\ length (stackFrames s') = S (length frames)
              /\ sorted_desc (stackFrames s'))).
Proof.
  intros s. split.
  - intros oldSP Hsp Hrange Hal Hsorted Hfresh.
    exists (sp_subtracted s (oldSP - 16) 16),
           (sp_added (sp_subtracted s (oldSP - 16) 16) oldSP 16).
    split; [now apply sub_sp_16_runs|].
    split; [now apply add_sp_16_runs_after|].
    split; [cbn; apply lookup_insert_eq|].
    split; [apply pair_sp|]. now apply pair_frames.
  - intros p s' val2 Hdest val1 frames.
    assert (Hdsort : forall newSP size l,
               sorted_desc l -> sorted_desc (destroy_frames newSP size l)).
    { intros newSP size l Hl. unfold destroy_frames.
      destruct (findIndex _ l) as [i|].
      - clear -Hl. revert i. induction l as [|y l IH]; intros i; [now destruct i|].
        destruct Hl as [Hy Hl]. destruct i as [|i]; [exact Hl|].
        change (sorted_desc (y :: delete i l)). split; [|now apply IH].
        clear -Hy. revert i. induction Hy as [|z l Hz Hl IH]; intros i; [now destruct i|].
        destruct i as [|i]; [exact Hl|]. change (Forall (fun y0 => f_sp y0 <= f_sp y) (z :: delete i l)).
        constructor; auto.
      - pose proof (sort_frames_sorted l) as Hs.
        destruct (sort_frames l); [exact I|]. now destruct Hs. }
    split; [|split; [|split]].
    + intros Hop Hrun. destruct (executeAdd_sp s p Hdest s' Hrun)
        as [[Hnone _]|(v & Hv & H1 & H2 & ->)]; [congruence|].
      assert (v = val2) by congruence. subst v.
      repeat split; auto.
      * cbn. apply lookup_insert_eq.
      * cbn [stackFrames sp_added set_stackFrames add_changedRegisters set_registers].
        apply destroy_frames_length.
      * intros Hs. cbn [stackFrames sp_added set_stackFrames add_changedRegisters set_registers].
        now apply Hdsort.
    + intros Hop Hrun. destruct (flags_handler_sp s p Hdest op_add s' Hrun)
        as (v & Hv & H1 & H2 & Hr & Hf).
      assert (v = val2) by congruence. subst v.
      repeat split; auto.
      * rewrite Hr. cbn. apply lookup_insert_eq.
      * rewrite Hf.
        cbn [stackFrames sp_added set_stackFrames add_changedRegisters set_registers].
        apply destroy_frames_length.
      * intros Hs. rewrite Hf.
        cbn [stackFrames sp_added set_stackFrames add_changedRegisters set_registers].
        now apply Hdsort.
    + intros setFlags Hop Hrun. destruct (executeSub_sp s p Hdest setFlags s' Hrun)
        as (v & Hv & H1 & H2 & H3 & ->).
      assert (v = val2) by congruence. subst v.
      repeat split; auto.
      * cbn. apply lookup_insert_eq.
      * cbn [stackFrames sp_subtracted set_stackFrames add_changedRegisters set_registers].
        apply create_frames_length.
      * cbn [stackFrames sp_subtracted set_stackFrames add_changedRegisters set_registers].
        apply create_frames_sorted.
    + intros Hop Hrun. destruct (flags_handler_sp s p Hdest op_sub s' Hrun)
        as (v & Hv & H1 & H2 & H3 & Hr & Hf).
      assert (v = val2) by congruence. subst v.
      repeat split; auto.
      * rewrite Hr. cbn. apply lookup_insert_eq.
      * rewrite Hf.
        cbn [stackFrames sp_subtracted set_stackFrames add_changedRegisters set_registers].
        apply create_frames_length.
      * rewrite Hf.
        cbn [stackFrames sp_subtracted set_stackFrames add_changedRegisters set_registers].
        apply create_frames_sorted.
Qed.

(** The pair after [sub sp, sp, #32] from [reset], where the list holds
    one frame (of size 32, at 0x07FFFFE0); and [add sp, sp, #16] at
    that state, which removes no record of that size and address, so
    the list keeps its length less one. *)
Lemma stack_operations_keep_alignment_and_frames_witness :
  (exists s1 s2,
      executeSub sub_sp_16 false after_sub_sp_32 = (Ok tt, s1)
      /\ executeAdd add_sp_16 s1 = (Ok tt, s2)
      /\ registers s1 !! "sp" = Some (0x07FFFFE0 - 16)
      /\ registers s2 !! "sp" = Some 0x07FFFFE0
      /\ stackFrames s2 = stackFrames after_sub_sp_32)
  /\ (Z.rem 16 16 = 0 /\ Z.rem (0x07FFFFE0 + 16) 16 = 0
      /\ registers (snd (executeAdd add_sp_16 after_sub_sp_32)) !! "sp"
         = Some (0x07FFFFE0 + 16)
      /\ length (stackFrames (snd (executeAdd add_sp_16 after_sub_sp_32)))
         = pred (length (stackFrames after_sub_sp_32))
      /\ (sorted_desc (stackFrames after_sub_sp_32) ->
          sorted_desc (stackFrames (snd (executeAdd add_sp_16 after_sub_sp_32))))).
Proof.
  assert (Hframes : stackFrames after_sub_sp_32 = [mkFrame 1 0x07FFFFE0 32 0x08000000])
    by (vm_compute; reflexivity).
  split.
  - apply (proj1 (stack_operations_keep_alignment_and_frames after_sub_sp_32) 0x07FFFFE0).
    + vm_compute. reflexivity.
    + lia.
    + reflexivity.
    + rewrite Hframes. split; [constructor|exact I].
    + rewrite Hframes. constructor; [|constructor]. cbn [f_sp f_size]. lia.
  - apply (proj1 (proj2 (stack_operations_keep_alignment_and_frames after_sub_sp_32)
                    add_sp_16 (snd (executeAdd add_sp_16 after_sub_sp_32)) 16 eq_refl)).
    + reflexivity.
    + apply ok_run. vm_compute. reflexivity.
Defined.

(** The case the statement above sets aside: an [add] without a second
    operand returns without doing anything, whatever its destination,
    where [sub] throws.  So [add sp, sp, foo] succeeds, moves no stack
    pointer and removes no frame. *)
Lemma add_without_second_operand_does_nothing :
  (forall s p s',
      add_operand s p = None ->
      executeAdd p s = (Ok tt, s') -> s' = s)
  /\ (forall s, executeAdd add_sp_foo s = (Ok tt, s))
  /\ forall s setFlags,
        executeSub (mkParsed "sub" (Some RSp) None (Some RSp) None None None None
                             None None None None None) setFlags s
        = (Throw (InvalidInstruction "sub"), s).
Proof.
  split; [|split].
  - intros s p s' Hnone. unfold executeAdd.
    destruct (dest p) as [d|]; [|discriminate].
    destruct (src1 p) as [r1|]; [|discriminate].
    unfold bind at 1. unfold get at 1. cbv beta iota. unfold bind at 1.
    destruct (add_second_operand_cases p s) as [[l Hl]|Hpick];
      [rewrite Hl; discriminate|].
    rewrite Hpick, Hnone. unfold ret. now intros [= <-].
  - intros s. reflexivity.
  - intros s setFlags. reflexivity.
Qed.

(** ** Legality of [mov] immediates (C2) *)

Section ChunkArithmetic.

Lemma land_chunk_mask u s :
  0 <= s -> Z.land u (0xFFFF * 2 ^ s) = (u / 2 ^ s) mod 2 ^ 16 * 2 ^ s.
Proof.
  intros Hs. rewrite <- !Z.shiftl_mul_pow2, <- Z.shiftr_div_pow2 by lia.
  change 0xFFFF with (Z.ones 16). rewrite <- Z.land_ones by lia.
  apply Z.bits_inj'. intros i Hi.
  rewrite Z.land_spec. destruct (Z_lt_le_dec i s).
  - rewrite !Z.shiftl_spec_low by lia. apply andb_false_r.
  - rewrite !Z.shiftl_spec by lia. rewrite Z.land_spec, Z.shiftr_spec by lia.
    now replace (i - s + s) with i by lia.
Qed.

Lemma shiftr_chunk u s :
  0 <= s -> Z.shiftr (Z.land u (0xFFFF * 2 ^ s)) s = (u / 2 ^ s) mod 2 ^ 16.
Proof.
  intros Hs. rewrite land_chunk_mask by lia.
  rewrite Z.shiftr_div_pow2 by lia. apply Z.div_mul.
  apply Z.pow_nonzero; lia.
Qed.

Lemma land_lnot_sub u m : Z.land u (Z.lnot m) = u - Z.land u m.
Proof.
  rewrite <- Z.ldiff_land.
  assert (H : Z.ldiff u m + Z.land u m = u).
  { rewrite <- lor_disjoint_add.
    - apply Z.lor_ldiff_and.
    - apply Z.bits_inj'. intros i Hi.
      rewrite !Z.land_spec, Z.ldiff_spec, Z.bits_0.
      destruct (Z.testbit u i), (Z.testbit m i); reflexivity. }
  lia.
Qed.

Lemma land_lnot_ones u w :
  0 <= w -> 0 <= u <= Z.ones w -> Z.land (Z.lnot u) (Z.ones w) = Z.ones w - u.
Proof.
  intros Hw Hu. rewrite Z.land_ones by lia. unfold Z.lnot.
  rewrite Z.ones_equiv in *. symmetry.
  apply Z.mod_unique with (-1); lia.
Qed.

Lemma land_ones_small u w :
  0 <= w -> 0 <= u <= Z.ones w -> Z.land u (Z.ones w) = u.
Proof.
  intros Hw Hu. rewrite Z.land_ones by lia. rewrite Z.ones_equiv in Hu.
  apply Z.mod_small. lia.
Qed.

Lemma countBits_pos_le_size p :
  1 <= countBits_pos p <= Z.of_nat (Pos.size_nat p).
Proof.
  induction p as [p IH|p IH|]; cbn [countBits_pos Pos.size_nat]; lia.
Qed.

Lemma countBits_pos_full p :
  countBits_pos p = Z.of_nat (Pos.size_nat p) ->
  Z.pos p = 2 ^ Z.of_nat (Pos.size_nat p) - 1.
Proof.
  induction p as [p IH|p IH|]; cbn [countBits_pos Pos.size_nat]; intros H.
  - rewrite Nat2Z.inj_succ, Z.pow_succ_r by lia.
    rewrite Pos2Z.inj_xI, IH by lia. lia.
  - pose proof (countBits_pos_le_size p). lia.
  - reflexivity.
Qed.

Lemma pow_size_le p : 2 ^ Z.of_nat (Pos.size_nat p) <= 2 * Z.pos p.
Proof.
  induction p as [p IH|p IH|]; cbn [Pos.size_nat];
    rewrite ?Nat2Z.inj_succ, ?Z.pow_succ_r by lia; cbn; lia.
Qed.

(** Only 0xFFFF has sixteen bits set among the 16-bit values. *)
Lemma countBits_16 c :
  0 <= c <= 0xFFFF -> (countBits c <? 16) = negb (c =? 0xFFFF).
Proof.
  intros Hc. destruct (Z.eqb_spec c 0xFFFF) as [->|Hne]; [reflexivity|].
  cbn [negb]. apply Z.ltb_lt.
  destruct c as [|p|p]; cbn [countBits]; [lia| |lia].
  pose proof (countBits_pos_le_size p) as Hle.
  pose proof (pow_size_le p) as Hsz.
  assert (Hn : (Pos.size_nat p <= 16)%nat).
  { destruct (le_lt_dec (Pos.size_nat p) 16) as [|Hgt]; [assumption|exfalso].
    assert (2 ^ 17 <= 2 ^ Z.of_nat (Pos.size_nat p))
      by (apply Z.pow_le_mono_r; lia).
    change (2 ^ 17) with 131072 in *. lia. }
  destruct (Z.eq_dec (countBits_pos p) 16) as [E|]; [exfalso|lia].
  assert (Hs : Z.of_nat (Pos.size_nat p) = 16) by lia.
  pose proof (countBits_pos_full p) as Hfull. rewrite Hs in Hfull.
  specialize (Hfull E). change (2 ^ 16 - 1) with 65535 in Hfull. congruence.
Qed.

End ChunkArithmetic.

Section MovLegality.

Variable is64Bit : bool.
Variable u : Z.
Hypothesis Hu : 0 <= u <= mov_mask is64Bit.

Lemma mov_mask_ones : mov_mask is64Bit = Z.ones (if is64Bit then 64 else 32).
Proof. destruct is64Bit; reflexivity. Qed.

Lemma mask_land_lnot x :
  0 <= x <= mov_mask is64Bit ->
  Z.land (Z.lnot x) (mov_mask is64Bit) = mov_mask is64Bit - x.
Proof.
  intros Hx. rewrite mov_mask_ones in *.
  apply land_lnot_ones; [destruct is64Bit; lia|exact Hx].
Qed.

Lemma mask_land_small x :
  0 <= x <= mov_mask is64Bit -> Z.land x (mov_mask is64Bit) = x.
Proof.
  intros Hx. rewrite mov_mask_ones in *.
  apply land_ones_small; [destruct is64Bit; lia|exact Hx].
Qed.

Lemma shift_facts shift :
  In shift (mov_shifts is64Bit) ->
  0 <= shift
  /\ Z.land (Z.shiftl 0xFFFF shift) (mov_mask is64Bit) = 0xFFFF * 2 ^ shift
  /\ 0xFFFF * 2 ^ shift <= mov_mask is64Bit.
Proof.
  destruct is64Bit; cbn [mov_shifts In]; intros H;
    repeat (destruct H as [<-|H]; [repeat split; (reflexivity || discriminate)|]);
    contradiction.
Qed.

Lemma movz_at_spec shift :
  In shift (mov_shifts is64Bit) ->
  movz_at u (mov_mask is64Bit) shift = true
  <-> exists imm16, 1 <= imm16 <= 0xFFFF /\ u = imm16 * 2 ^ shift.
Proof.
  intros Hin. destruct (shift_facts shift Hin) as (Hs & Hm & _).
  unfold movz_at. rewrite Hm, shiftr_chunk, land_lnot_sub, land_chunk_mask by lia.
  assert (Hp : 0 < 2 ^ shift) by (apply Z.pow_pos_nonneg; lia).
  pose proof (Z.mod_pos_bound (u / 2 ^ shift) (2 ^ 16) ltac:(lia)) as Hc.
  rewrite !andb_true_iff, Z.eqb_eq, Z.leb_le, Z.ltb_lt. split.
  - intros [[H1 H2] H3]. exists ((u / 2 ^ shift) mod 2 ^ 16). lia.
  - intros (c & Hc1 & ->). rewrite Z.div_mul by lia.
    rewrite Z.mod_small by lia. lia.
Qed.

Lemma chunk_of_complement shift e :
  In shift (mov_shifts is64Bit) ->
  0 <= e <= 0xFFFF ->
  u = mov_mask is64Bit - e * 2 ^ shift ->
  forall checkShift, In checkShift (mov_shifts is64Bit) ->
    (u / 2 ^ checkShift) mod 2 ^ 16
    = if checkShift =? shift then 0xFFFF - e else 0xFFFF.
Proof.
  intros Hin He ->. 
  destruct is64Bit; cbn [mov_shifts In mov_mask] in *; intros cs Hcs;
    repeat (destruct Hin as [<-|Hin]; [|]); try contradiction;
    repeat (destruct Hcs as [<-|Hcs]; [|]); try contradiction;
    cbn [Z.eqb Pos.eqb]; Z.div_mod_to_equations; lia.
Qed.

Lemma movn_chunk_ok_spec shift e checkShift :
  In shift (mov_shifts is64Bit) ->
  0 < e <= 0xFFFF ->
  u = mov_mask is64Bit - e * 2 ^ shift ->
  In checkShift (mov_shifts is64Bit) ->
  movn_chunk_ok u (mov_mask is64Bit) shift e checkShift
  = if checkShift =? shift then e =? 0xFFFF else true.
Proof.
  intros Hin He Hue Hcs.
  destruct (shift_facts checkShift Hcs) as (Hs & Hm & _).
  unfold movn_chunk_ok. rewrite Hm, shiftr_chunk by lia.
  rewrite (chunk_of_complement shift e Hin ltac:(lia) Hue checkShift Hcs).
  destruct (checkShift =? shift).
  - change 0xFFFF with (Z.ones 16) at 2.
    rewrite land_lnot_ones by (change (Z.ones 16) with 0xFFFF; lia).
    change (Z.ones 16) with 0xFFFF.
    rewrite Z.eqb_refl. cbn [negb].
    rewrite countBits_16 by lia.
    destruct (Z.eqb_spec (0xFFFF - e) 0xFFFF); [lia|]. cbn [negb andb].
    destruct (Z.eqb_spec (0xFFFF - e) 0), (Z.eqb_spec e 0xFFFF); cbn; lia || reflexivity.
  - rewrite Z.eqb_refl. reflexivity.
Qed.

Lemma movn_at_spec shift :
  In shift (mov_shifts is64Bit) ->
  movn_at u (mov_mask is64Bit) (mov_shifts is64Bit) shift = true
  <-> u = mov_mask is64Bit - 0xFFFF * 2 ^ shift.
Proof.
  intros Hin. destruct (shift_facts shift Hin) as (Hs & Hm & Hfit).
  assert (Hp : 0 < 2 ^ shift) by (apply Z.pow_pos_nonneg; lia).
  unfold movn_at. rewrite Hm.
  assert (Hnv : Z.land (Z.lnot u) (mov_mask is64Bit) = mov_mask is64Bit - u).
  { now apply mask_land_lnot. }
  rewrite Hnv. set (nv := mov_mask is64Bit - u).
  rewrite shiftr_chunk, land_lnot_sub, land_chunk_mask by lia.
  set (e := (nv / 2 ^ shift) mod 2 ^ 16).
  pose proof (Z.mod_pos_bound (nv / 2 ^ shift) (2 ^ 16) ltac:(lia)) as He. fold e in He.
  destruct ((nv - e * 2 ^ shift =? 0) && (0 <=? e) && (e <=? 65535) && (0 <? e)) eqn:T.
  - rewrite !andb_true_iff, Z.eqb_eq, !Z.leb_le, Z.ltb_lt in T.
    destruct T as [[[T1 T2] T3] T4].
    assert (Hue : u = mov_mask is64Bit - e * 2 ^ shift) by (subst nv; lia).
    assert (Hrec : Z.land (Z.shiftl e shift) (mov_mask is64Bit) = e * 2 ^ shift).
    { rewrite Z.shiftl_mul_pow2 by lia. apply mask_land_small. subst nv. lia. }
    rewrite Hrec.
    assert (Horig : Z.land (Z.lnot (e * 2 ^ shift)) (mov_mask is64Bit) = u).
    { rewrite mask_land_lnot by (subst nv; lia). lia. }
    rewrite Horig.
    assert (E1 : (e * 2 ^ shift =? nv) = true) by (apply Z.eqb_eq; lia).
    rewrite E1, Z.eqb_refl. cbn [andb].
    rewrite forallb_forall. split.
    + intros Hall. specialize (Hall shift Hin).
      rewrite (movn_chunk_ok_spec shift e shift Hin ltac:(lia) Hue Hin) in Hall.
      rewrite Z.eqb_refl in Hall. apply Z.eqb_eq in Hall. lia.
    + intros Hfull cs Hcs.
      rewrite (movn_chunk_ok_spec shift e cs Hin ltac:(lia) Hue Hcs).
      destruct (cs =? shift); [|reflexivity]. apply Z.eqb_eq. nia.
  - split; [discriminate|]. intros Hfull. exfalso.
    assert (Hnv2 : nv = 0xFFFF * 2 ^ shift) by (subst nv; lia).
    assert (He2 : e = 0xFFFF).
    { subst e. rewrite Hnv2, Z.div_mul by lia. reflexivity. }
    rewrite He2, Hnv2 in T.
    rewrite Z.sub_diag in T. cbn in T. discriminate T.
Qed.

Lemma isMovImmediateEncodable_spec :
  isMovImmediateEncodable u is64Bit = true
  <-> (exists shift imm16,
          In shift (mov_shifts is64Bit) /\ 1 <= imm16 <= 0xFFFF
          /\ u = imm16 * 2 ^ shift)
      \/ full_chunk_cleared is64Bit u.
Proof.
  unfold isMovImmediateEncodable, full_chunk_cleared.
  assert (Hid : Z.land u (mov_mask is64Bit) = u).
  { now apply mask_land_small. }
  rewrite Hid.
  destruct (existsb (movz_at u (mov_mask is64Bit)) (mov_shifts is64Bit)) eqn:Ez.
  - split; [intros _|reflexivity]. left.
    apply existsb_exists in Ez as (shift & Hin & Hz).
    apply movz_at_spec in Hz as (c & Hc & Hu'); [|exact Hin]. eauto.
  - destruct (existsb (movn_at u (mov_mask is64Bit) (mov_shifts is64Bit))
                      (mov_shifts is64Bit)) eqn:En.
    + split; [intros _|reflexivity]. right.
      apply existsb_exists in En as (shift & Hin & Hn).
      apply movn_at_spec in Hn; eauto.
    + split; [discriminate|]. intros [(shift & c & Hin & Hc & Hu')|(shift & Hin & Hu')]; exfalso.
      * assert (existsb (movz_at u (mov_mask is64Bit)) (mov_shifts is64Bit) = true);
          [|congruence].
        apply existsb_exists. exists shift. split; [exact Hin|].
        apply movz_at_spec; eauto.
      * assert (existsb (movn_at u (mov_mask is64Bit) (mov_shifts is64Bit))
                        (mov_shifts is64Bit) = true); [|congruence].
        apply existsb_exists. exists shift. split; [exact Hin|].
        now apply movn_at_spec.
Qed.

End MovLegality.

Lemma ToUint32_ToInt32 x :
  0 <= x < 2 ^ 32 -> JS.ToUint32 (JS.ToInt32 (JS.ToInt32 x)) = x.
Proof.
  intros Hx. unfold JS.ToUint32, JS.ToInt32.
  change (2 ^ 32) with 4294967296 in *. change (2 ^ 31) with 2147483648.
  Z.div_mod_to_equations. lia.
Qed.

(** [executeMov] on an immediate: the outcome in terms of the check. *)
Lemma executeMov_immediate s d v :
  let is64Bit := negb (is_w (Some d)) in
  let u := Z.land v (mov_mask is64Bit) in
  executeMov (mov_imm d v) s
  = if isMovImmediateEncodable u is64Bit
    then setRegisterValue (Some d) u s
    else (Throw (MovNotEncodable u), s).
Proof.
  cbv zeta. unfold executeMov. cbn [dest immediate mov_imm].
  destruct (isMovImmediateEncodable _ _); cbn [negb]; [|reflexivity].
  destruct (is_w (Some d)) eqn:Ew; [|reflexivity]. cbn [negb mov_mask].
  assert (Hb : 0 <= Z.land v 0xFFFFFFFF < 2 ^ 32).
  { rewrite land_ones_32. apply Z.mod_pos_bound. lia. }
  rewrite Number_small by lia. now rewrite ToUint32_ToInt32.
Qed.

Lemma mov_pattern_range is64Bit v :
  0 <= Z.land v (mov_mask is64Bit) <= mov_mask is64Bit.
Proof.
  destruct is64Bit; cbn [mov_mask]; rewrite ?land_ones_64, ?land_ones_32.
  - pose proof (Z.mod_pos_bound v (2 ^ 64)). lia.
  - pose proof (Z.mod_pos_bound v (2 ^ 32)). lia.
Qed.

(** What the check accepts, for the pattern of any immediate. *)
Lemma executeMov_accepts s d v :
  let is64Bit := negb (is_w (Some d)) in
  let u := Z.land v (mov_mask is64Bit) in
  (succeeds (executeMov (mov_imm d v) s) = true
   <-> nonzero_chunk is64Bit u \/ full_chunk_cleared is64Bit u)
  /\ (succeeds (executeMov (mov_imm d v) s) = false ->
      executeMov (mov_imm d v) s = (Throw (MovNotEncodable u), s)).
Proof.
  cbv zeta. set (is64Bit := negb (is_w (Some d))).
  set (u := Z.land v (mov_mask is64Bit)).
  pose proof (mov_pattern_range is64Bit v) as Hu. fold u in Hu.
  pose proof (executeMov_immediate s d v) as Hrun. cbv zeta in Hrun.
  fold is64Bit in Hrun. fold u in Hrun.
  pose proof (isMovImmediateEncodable_spec is64Bit u Hu) as Hspec.
  fold (nonzero_chunk is64Bit u) in Hspec.
  destruct (setRegisterValue_ok (Some d) u s) as [s' Hset].
  destruct (isMovImmediateEncodable u is64Bit) eqn:Henc;
    rewrite Hrun, ?Hset; cbn [succeeds].
  - split; [|discriminate]. split; [intros _; now apply Hspec|reflexivity].
  - split; [|reflexivity]. split; [discriminate|]. intros H.
    apply Hspec in H. discriminate H.
Qed.

(** The complement of a 16-bit value below 0xFFFF at a legal offset is
    none of the accepted patterns, and neither is zero. *)
Lemma complement_not_accepted is64Bit shift imm16 :
  In shift (mov_shifts is64Bit) -> 0 <= imm16 < 0xFFFF ->
  let u := mov_mask is64Bit - imm16 * 2 ^ shift in
  ~ (nonzero_chunk is64Bit u \/ full_chunk_cleared is64Bit u).
Proof.
  intros Hin Hi u [(sh & c & Hsh & Hc & E)|(sh & Hsh & E)]; subst u;
    destruct is64Bit; cbn [mov_shifts In mov_mask] in *;
    repeat (destruct Hin as [<-|Hin]; [|]); try contradiction;
    repeat (destruct Hsh as [<-|Hsh]; [|]); try contradiction;
    cbn in E; lia.
Qed.

Lemma zero_not_accepted is64Bit :
  ~ (nonzero_chunk is64Bit 0 \/ full_chunk_cleared is64Bit 0).
Proof.
  intros [(sh & c & Hsh & Hc & E)|(sh & Hsh & E)];
    destruct is64Bit; cbn [mov_shifts In mov_mask] in *;
    repeat (destruct Hsh as [<-|Hsh]; [|]); try contradiction;
    cbn in E; lia.
Qed.

(** C2.  The code against the specification.  [mov dest, #v] succeeds
    exactly when the pattern of [v] at the width of the destination is
    a non-zero 16-bit value at offset 0, 16, 32 or 48 (0 or 16 for a w
    destination) with all other bits zero, or all ones with the 16-bit
    chunk at one of those offsets cleared; every other immediate throws
    the encoding error and changes nothing.  So the complement of a
    16-bit value below 0xFFFF positioned at a legal offset, a MOVN form
    of the specification, is refused for every destination and state,
    and so is the pattern zero, a MOVZ form of the specification: on
    these immediates the stated equivalence fails. *)
Theorem mov_refuses_complement_forms :
  forall (s : Simulator) (d : Register),
    let is64Bit := negb (is_w (Some d)) in
    let mask := mov_mask is64Bit in
    (forall v,
        let u := Z.land v mask in
        (succeeds (executeMov (mov_imm d v) s) = true
         <-> nonzero_chunk is64Bit u \/ full_chunk_cleared is64Bit u)
        /\ (succeeds (executeMov (mov_imm d v) s) = false ->
            executeMov (mov_imm d v) s = (Throw (MovNotEncodable u), s)))
    /\ (forall shift imm16,
          In shift (mov_shifts is64Bit) -> 0 <= imm16 < 0xFFFF ->
          let v := Z.lnot (imm16 * 2 ^ shift) in
          spec_movn_form is64Bit (Z.land v mask)
          /\ executeMov (mov_imm d v) s = (Throw (MovNotEncodable (Z.land v mask)), s)
          /\ ~ mov_succeeds_iff_spec_form s d v)
    /\ (spec_movz_form is64Bit 0
        /\ executeMov (mov_imm d 0) s = (Throw (MovNotEncodable 0), s)
        /\ ~ mov_succeeds_iff_spec_form s d 0).
Proof.
  intros s d is64Bit mask. split; [|split].
  - intros v. exact (executeMov_accepts s d v).
  - intros shift imm16 Hin Hi v.
    assert (Hform : spec_movn_form is64Bit (Z.land v mask)).
    { exists shift, imm16. split; [exact Hin|]. split; [lia|reflexivity]. }
    assert (Hu : Z.land v mask = mask - imm16 * 2 ^ shift).
    { assert (H0 : 0 <= 0 <= mov_mask is64Bit) by (destruct is64Bit; cbn; lia).
      subst v mask. apply (mask_land_lnot is64Bit 0 H0).
      destruct (shift_facts is64Bit 0 H0 shift Hin) as (Hs & _ & Hfit).
      assert (0 < 2 ^ shift) by (apply Z.pow_pos_nonneg; lia). nia. }
    destruct (executeMov_accepts s d v) as [Hiff Hthrow].
    fold is64Bit in Hiff, Hthrow. fold mask in Hiff, Hthrow.
    assert (Hfails : succeeds (executeMov (mov_imm d v) s) = false).
    { destruct (succeeds (executeMov (mov_imm d v) s)) eqn:E; [exfalso|reflexivity].
      apply (complement_not_accepted is64Bit shift imm16 Hin Hi). cbv zeta.
      fold mask. rewrite <- Hu. now apply Hiff. }
    split; [exact Hform|]. split; [now apply Hthrow|].
    unfold mov_succeeds_iff_spec_form. cbv zeta. fold is64Bit. fold mask.
    intros [_ H]. rewrite Hfails in H. enough (false = true) by discriminate.
    apply H. now right.
  - assert (Hform : spec_movz_form is64Bit 0).
    { destruct is64Bit; exists 0, 0; (split; [cbn; tauto|]); split; lia || reflexivity. }
    destruct (executeMov_accepts s d 0) as [Hiff Hthrow].
    fold is64Bit in Hiff, Hthrow. fold mask in Hiff, Hthrow.
    change (Z.land 0 mask) with 0 in Hiff, Hthrow.
    assert (Hfails : succeeds (executeMov (mov_imm d 0) s) = false).
    { destruct (succeeds (executeMov (mov_imm d 0) s)) eqn:E; [exfalso|reflexivity].
      apply (zero_not_accepted is64Bit). now apply Hiff. }
    split; [exact Hform|]. split; [now apply Hthrow|].
    unfold mov_succeeds_iff_spec_form. cbv zeta. fold is64Bit. fold mask.
    change (Z.land 0 mask) with 0.
    intros [_ H]. rewrite Hfails in H. enough (false = true) by discriminate.
    apply H. now left.
Qed.

(** [mov x0, #-2] at the reset state: -2 is the complement of 1 at
    offset 0, and the instruction throws. *)
Lemma mov_refuses_complement_forms_witness :
  spec_movn_form true 0xFFFFFFFFFFFFFFFE
  /\ executeMov (mov_imm (RObj x_type 0) (-2)) reset
     = (Throw (MovNotEncodable 0xFFFFFFFFFFFFFFFE), reset)
  /\ ~ mov_succeeds_iff_spec_form reset (RObj x_type 0) (-2).
Proof.
  refine (proj1 (proj2 (mov_refuses_complement_forms reset (RObj x_type 0))) 0 1 _ _).
  - cbn. tauto.
  - lia.
Defined.

(** The two examples of the specification, evaluated: [mov x0,
    #0x10000] succeeds and leaves 0x10000 in [x0], and [mov x0,
    #0xFFFFFFFFFFFFF] throws the encoding error.  The second immediate
    is the complement of 0xFFF0 positioned at bit 48: it is refused
    like every other complement of a value below 0xFFFF. *)
Lemma mov_examples_of_the_specification :
  (exists s',
      executeMov (mov_imm (RObj x_type 0) 0x10000) reset = (Ok tt, s')
      /\ registers s' !! "x0" = Some 0x10000)
  /\ executeMov (mov_imm (RObj x_type 0) 0xFFFFFFFFFFFFF) reset
     = (Throw (MovNotEncodable 0xFFFFFFFFFFFFF), reset)
  /\ spec_movn_form true 0xFFFFFFFFFFFFF.
Proof.
  split; [|split].
  - eexists. split; [apply ok_run; vm_compute; reflexivity|].
    vm_compute. reflexivity.
  - rewrite (executeMov_immediate reset (RObj x_type 0) 0xFFFFFFFFFFFFF).
    reflexivity.
  - exists 48, 0xFFF0. split; [cbn; tauto|]. split; [lia|reflexivity].
Qed.

(** ** Return (C4) *)

Section Return.

Lemma find_index_from_bounds instrs addr i :
  0 <= i ->
  0 <= find_index_from instrs addr i
  /\ (find_index_from instrs addr i = 0
      \/ find_index_from instrs addr i < i + Z.of_nat (length instrs)).
Proof.
  revert i. induction instrs as [|ins rest IH]; intros i Hi; cbn [find_index_from length].
  - lia.
  - destruct (address ins =? addr); [lia|].
    destruct (addr <? address ins).
    + destruct (Z.ltb_spec 0 i); lia.
    + destruct (IH (i + 1) ltac:(lia)) as [H1 H2]. lia.
Qed.

(** The index [findInstructionIndexByAddress] returns is never outside
    a non-empty program, whatever the address. *)
Lemma findInstructionIndexByAddress_in_range s addr :
  instructions s <> [] ->
  0 <= findInstructionIndexByAddress s addr < Z.of_nat (length (instructions s)).
Proof.
  intros Hne. unfold findInstructionIndexByAddress.
  destruct (find_index_from_bounds (instructions s) addr 0 ltac:(lia)) as [H1 H2].
  destruct (instructions s); [congruence|]. cbn [length] in *. lia.
Qed.

Variable s : Simulator.
Variable p : Parsed.
Variable pcv : Z.
Hypothesis Hpc : registers s !! "pc" = Some pcv.

Lemma executeRet_in_entry :
  in_entry_function s pcv = true ->
  executeRet p s = (Ok false, set_pc 0 s).
Proof. unfold executeRet. rewrite Hpc. now intros ->. Qed.

Lemma executeRet_zero_or_negative :
  in_entry_function s pcv = false ->
  return_address s p <= 0 ->
  executeRet p s = (Ok false, set_pc 0 s).
Proof.
  unfold executeRet, return_address. rewrite Hpc.
  intros -> Hra.
  set (ra := match src p with Some _ => _ | None => _ end) in *.
  destruct (Z.eqb_spec ra 0); [reflexivity|].
  destruct (Z.ltb_spec ra 0); [reflexivity|lia].
Qed.

(** Outside the entry function, every positive return address is
    jumped to, whether or not an instruction lives there: the range
    test on the index can never fire in a non-empty program. *)
Lemma executeRet_positive :
  in_entry_function s pcv = false ->
  instructions s <> [] ->
  0 < return_address s p ->
  executeRet p s
  = (Ok true,
     set_currentInstructionIndex (findInstructionIndexByAddress s (return_address s p))
       (set_pc (return_address s p) s)).
Proof.
  unfold executeRet, return_address. rewrite Hpc.
  intros -> Hne Hra.
  set (ra := match src p with Some _ => _ | None => _ end) in *.
  destruct (Z.eqb_spec ra 0); [lia|].
  destruct (Z.ltb_spec ra 0); [lia|]. cbn [orb].
  pose proof (findInstructionIndexByAddress_in_range s ra Hne) as Hr.
  destruct (Z.ltb_spec (findInstructionIndexByAddress s ra) 0); [lia|].
  destruct (Z.leb_spec (Z.of_nat (length (instructions s)))
                       (findInstructionIndexByAddress s ra)); [lia|].
  reflexivity.
Qed.

End Return.

(** C4, the failing input evaluated.  Two steps from the loaded
    program ([bl helper], [mov x30, #0x1000]) reach the [ret] of [helper] with x30 = 0x1000: a positive
    return address that is the address of no instruction, at a [ret]
    outside the entry function.  There [executeRet] reports a redirected
    PC, sets the PC to 0x1000 and the cursor to index 0, inside the
    program, so the third step returns "continue" instead of "halt",
    and the program is still running (from [bl helper] again) after
    forty steps; whatever the handlers outside the model do. *)
Theorem ret_to_address_outside_program_continues :
  forall (io : string -> M unit) (logical shift_op : Parsed -> string -> M unit)
         (adr adrp : Parsed -> Z -> M unit),
    let run n := steps io logical shift_op adr adrp n helper_loaded in
    (fst (run 2%nat) = Ok true
     /\ registers (snd (run 2%nat)) !! "x30" = Some 0x1000
     /\ registers (snd (run 2%nat)) !! "pc" = Some 12
     /\ currentInstructionIndex (snd (run 2%nat)) = 3)
    /\ in_entry_function at_helper_ret 12 = false
    /\ getRegisterValue at_helper_ret (Some (RObj x_type 30)) = 0x1000
    /\ is_instruction_address at_helper_ret 0x1000 = false
    /\ (let out := executeRet ret_parsed at_helper_ret in
        fst out = Ok true
        /\ registers (snd out) !! "pc" = Some 0x1000
        /\ currentInstructionIndex (snd out) = 0
        /\ currentInstructionIndex (snd out)
           < Z.of_nat (length (instructions (snd out))))
    /\ (fst (run 3%nat) = Ok true
        /\ registers (snd (run 3%nat)) !! "pc" = Some 0x1000
        /\ currentInstructionIndex (snd (run 3%nat)) = 0)
    /\ fst (run 40%nat) = Ok true.
Proof.
  intros io logical shift_op adr adrp run. subst run. cbv beta.
  repeat split; vm_compute; reflexivity.
Qed.

(** ** Instruction lines with a leading label (C8) *)

(** C8, the failing input evaluated.  Pass 1 counts both instruction
    lines of [labelled_lines]: [main] is at 0, [done], the label of the
    [ret] line, is at 4, and the text counter ends at 8.  Pass 2 hands
    the whole first line, label included, to the instruction parser,
    which takes [main:] for an unknown opcode: no entry is emitted for
    that line, and the only entry, [ret], carries address 0 instead of
    the 4 that Pass 1 gave its line.  With the label on its own line
    both passes agree: two entries, at 0 and 4. *)
Theorem labelled_instruction_line_is_dropped :
  forall parseOperands : string -> list string -> Res Parsed,
    (exists st1,
        Parser.buildSymbolTable labelled_lines = Ok st1
        /\ sym_address <$> (Parser.p1_symbolTable st1 !! "main") = Some 0
        /\ sym_address <$> (Parser.p1_symbolTable st1 !! "done") = Some 4
        /\ Parser.c_text (Parser.p1_sectionCounters st1) = 8
        /\ exists st2,
            Parser.parseProgram parseOperands labelled_lines (Parser.p1_symbolTable st1)
            = Ok st2
            /\ Parser.p2_instructions st2 = [mkInstruction "ret" 0 (Some (parsed0 "ret"))]
            /\ Parser.c_text (Parser.p2_sectionCounters st2) = 4)
    /\ (exists st1,
        Parser.buildSymbolTable unlabelled_lines = Ok st1
        /\ sym_address <$> (Parser.p1_symbolTable st1 !! "done") = Some 4
        /\ match parseOperands "mov" ["mov"; "x0,"; "#5"]%string with
           | Ok p =>
               exists st2,
                 Parser.parseProgram parseOperands unlabelled_lines
                                     (Parser.p1_symbolTable st1) = Ok st2
                 /\ Parser.p2_instructions st2
                    = [mkInstruction "mov x0, #5" 0 (Some p);
                       mkInstruction "ret" 4 (Some (parsed0 "ret"))]
           | Throw e =>
               Parser.parseProgram parseOperands unlabelled_lines
                                   (Parser.p1_symbolTable st1) = Throw e
           end).
Proof.
  intros parseOperands. split.
  - eexists. split; [vm_compute; reflexivity|].
    split; [vm_compute; reflexivity|].
    split; [vm_compute; reflexivity|].
    split; [reflexivity|].
    eexists. split; [reflexivity|]. split; reflexivity.
  - eexists. split; [vm_compute; reflexivity|].
    split; [vm_compute; reflexivity|].
    vm_compute.
    destruct (parseOperands _ _) as [p|e]; [|reflexivity].
    eexists. split; reflexivity.
Qed.

(** * Further properties of the code *)

(** ** Memory contents *)

Section ByteOrder.

Variables (addr value : Z).
Hypothesis Haddr : 0 <= addr.

Lemma byte_range i : 0 <= Z.land (Z.shiftr value (i * 8)) 0xFF < 256.
Proof.
  change 0xFF with (Z.ones 8). rewrite Z.land_ones by lia.
  apply Z.mod_pos_bound. lia.
Qed.

Lemma store_bytes_lookup n :
  forall i (m : gmap Z Z) j,
    0 <= i -> addr + i + Z.of_nat n < 2 ^ 53 ->
    i <= j < i + Z.of_nat n ->
    store_bytes addr value i n m !! (addr + j)
    = Some (Z.land (Z.shiftr value (j * 8)) 0xFF).
Proof.
  induction n as [|n IH]; intros i m j Hi Hb Hj; [lia|].
  cbn [store_bytes].
  destruct (Z.eq_dec j i) as [->|Hne].
  - rewrite store_bytes_other by lia.
    unfold JS.nadd. rewrite (Number_small (addr + i)) by lia.
    rewrite lookup_insert_eq. f_equal.
    apply Number_small. pose proof (byte_range i). lia.
  - apply IH; lia.
Qed.

Lemma load_bytes_stored (m : gmap Z Z) n :
  forall i acc,
    0 <= i -> addr + i + Z.of_nat n < 2 ^ 53 ->
    (forall j, i <= j < i + Z.of_nat n ->
       m !! (addr + j) = Some (Z.land (Z.shiftr value (j * 8)) 0xFF)) ->
    load_bytes m addr i n acc
    = Z.lor acc (Z.shiftl (Z.land (Z.shiftr value (i * 8)) (Z.ones (8 * Z.of_nat n)))
                          (i * 8)).
Proof.
  induction n as [|n IH]; intros i acc Hi Hb Hm.
  - cbn [load_bytes]. change (8 * Z.of_nat 0) with 0. cbn [Z.ones].
    rewrite Z.land_0_r, Z.shiftl_0_l, Z.lor_0_r. reflexivity.
  - cbn [load_bytes]. unfold JS.nadd. rewrite (Number_small (addr + i)) by lia.
    rewrite (Hm i) by lia.
    assert (Hbyte : JS.or_default (Some (Z.land (Z.shiftr value (i * 8)) 0xFF)) 0
                    = Z.land (Z.shiftr value (i * 8)) 0xFF).
    { cbn [JS.or_default]. destruct (Z.eqb_spec (Z.land (Z.shiftr value (i * 8)) 255) 0);
        congruence. }
    rewrite Hbyte, IH by (try lia; intros; apply Hm; lia).
    rewrite <- Z.lor_assoc. f_equal.
    apply Z.bits_inj'. intros k Hk.
    rewrite !Z.lor_spec.
    change 0xFF with (Z.ones 8).
    destruct (Z_lt_le_dec k (i * 8)).
    + rewrite !Z.shiftl_spec_low by lia. reflexivity.
    + rewrite !Z.shiftl_spec by lia.
      rewrite !Z.land_spec, !Z.shiftr_spec by lia.
      replace (k - (i + 1) * 8 + (i + 1) * 8) with k by lia.
      replace (k - i * 8 + i * 8) with k by lia.
      destruct (Z_lt_le_dec (k - i * 8) 8).
      * rewrite (Z.ones_spec_low 8), (Z.ones_spec_low (8 * Z.of_nat (S n))) by lia.
        rewrite (Z.testbit_neg_r _ (k - (i + 1) * 8)) by lia.
        now rewrite andb_true_r, orb_false_r.
      * rewrite (Z.ones_spec_high 8) by lia. rewrite andb_false_r, orb_false_l.
        rewrite ?Z.land_spec, ?Z.shiftr_spec by lia.
        replace (k - (i + 1) * 8 + (i + 1) * 8) with k by lia.
        destruct (Z_lt_le_dec (k - i * 8) (8 * Z.of_nat (S n))).
        -- rewrite !Z.ones_spec_low by lia. reflexivity.
        -- rewrite !Z.ones_spec_high by lia. reflexivity.
Qed.

Lemma load_store_bytes (m : gmap Z Z) n :
  addr + Z.of_nat n < 2 ^ 53 ->
  load_bytes (store_bytes addr value 0 n m) addr 0 n 0
  = value mod 2 ^ (8 * Z.of_nat n).
Proof.
  intros Hb.
  rewrite load_bytes_stored; try lia.
  - rewrite Z.lor_0_l. change (0 * 8) with 0.
    rewrite Z.shiftl_0_r, Z.shiftr_0_r. apply Z.land_ones. lia.
  - intros j Hj. apply store_bytes_lookup; lia.
Qed.

End ByteOrder.

Lemma load_bytes_ext (m m' : gmap Z Z) addr n :
  forall i acc,
    (forall j, i <= j < i + Z.of_nat n ->
       m' !! JS.nadd addr j = m !! JS.nadd addr j) ->
    load_bytes m' addr i n acc = load_bytes m addr i n acc.
Proof.
  induction n as [|n IH]; intros i acc H; [reflexivity|].
  cbn [load_bytes]. rewrite H by lia. apply IH. intros j Hj. apply H. lia.
Qed.

Lemma sign_extension_32 v :
  0 <= v < 2 ^ 32 ->
  (if negb (Z.land v 0x80000000 =? 0) then Z.lor v 0xFFFFFFFF00000000 else v)
  = if 2 ^ 31 <=? v then v + 0xFFFFFFFF00000000 else v.
Proof.
  intros Hv.
  change 0x80000000 with (2 ^ 31).
  rewrite land_pow2_testbit, negb_involutive by lia.
  change (Z.testbit v 31) with (sign_bit 32 v).
  rewrite (sign_bit_ge 32 (or_introl eq_refl) v Hv).
  change (2 ^ (32 - 1)) with (2 ^ 31).
  destruct (2 ^ 31 <=? v); [|reflexivity].
  apply lor_disjoint_add.
  change 0xFFFFFFFF00000000 with (Z.shiftl (Z.ones 32) 32).
  apply Z.bits_inj'. intros k Hk. rewrite Z.land_spec, Z.bits_0.
  destruct (Z_lt_le_dec k 32).
  - rewrite Z.shiftl_spec_low by lia. apply andb_false_r.
  - rewrite (Z.bits_above_log2 v k); [reflexivity|lia|].
    destruct (Z.eq_dec v 0) as [->|]; [cbn; lia|].
    apply Z.lt_le_trans with 32; [apply Z.log2_lt_pow2; lia|lia].
Qed.

(** X1.  A read of the range a write has just filled returns the low
    [size] bytes of the written value, for every positive size and for
    checked and initialising writes alike; at size 4 the result is the
    64-bit pattern of the sign extension of those 32 bits, as
    [readMemory] widens every four-byte read. *)
Theorem write_then_read_round_trip :
  forall (s s' : Simulator) (addr value size : Z) (skip : bool),
    1 <= size ->
    writeMemory addr value size skip s = (Ok tt, s') ->
    readMemory addr size s' = (Ok (read_back value size), s').
Proof.
  intros s s' addr value size skip Hsize Hw.
  apply writeMemory_ok_inv in Hw as (-> & Hwin & Hr).
  pose proof (region_range _ _ Hwin) as Hrange.
  destruct (validate_read_ok addr size
              (set_memory (store_bytes (JS.Number addr) value 0 (Z.to_nat size)) s)
              Hsize Hwin) as [r Hv].
  unfold readMemory, bind, get. rewrite Hv. cbn [memory set_memory].
  rewrite Number_small by lia.
  rewrite load_store_bytes by (rewrite ?Z2Nat.id; lia).
  rewrite Z2Nat.id by lia.
  unfold read_back. cbv zeta.
  destruct (Z.eqb_spec size 4) as [->|Hne]; cbn [andb]; [|reflexivity].
  assert (Hv4 : 0 <= value mod 2 ^ (8 * 4) < 2 ^ 32) by (apply Z.mod_pos_bound; lia).
  pose proof (sign_extension_32 _ Hv4) as E.
  destruct (negb (Z.land (value mod 2 ^ (8 * 4)) 0x80000000 =? 0));
    destruct (2 ^ 31 <=? value mod 2 ^ (8 * 4)); unfold ret; congruence.
Qed.

(** Four bytes of 0x1FFFFFFFE stored at the start of the heap read back
    as 0xFFFFFFFFFFFFFFFE. *)
Lemma write_then_read_round_trip_witness :
  readMemory 0x00400000 4 (snd (writeMemory 0x00400000 0x1FFFFFFFE 4 false reset))
  = (Ok 0xFFFFFFFFFFFFFFFE, snd (writeMemory 0x00400000 0x1FFFFFFFE 4 false reset)).
Proof.
  refine (write_then_read_round_trip reset _ 0x00400000 0x1FFFFFFFE 4 false _ _).
  - lia.
  - apply ok_run. vm_compute. reflexivity.
Defined.

(** ** Reads elsewhere, byte order, dead checks *)

Lemma validate_read_any_state addr size s s0 :
  fst (validateMemoryAccess addr size false s)
  = fst (validateMemoryAccess addr size false s0).
Proof.
  unfold validateMemoryAccess, throw, ret.
  repeat match goal with
         | |- context [if ?b then _ else _] => destruct b
         | |- context [match ?o with Some _ => _ | None => _ end] => destruct o
         end; reflexivity.
Qed.

Lemma readMemory_same_bytes addr size s s0 :
  (1 <= size -> within_one_region addr size ->
   forall j, 0 <= j < size -> memory s0 !! (addr + j) = memory s !! (addr + j)) ->
  fst (readMemory addr size s0) = fst (readMemory addr size s).
Proof.
  intros Hm. unfold readMemory, bind, get.
  pose proof (validate_read_any_state addr size s s0) as Hv.
  destruct (validateMemoryAccess addr size false s) as [[r|e] s1] eqn:E1;
    destruct (validateMemoryAccess addr size false s0) as [[r0|e0] s2] eqn:E2;
    cbn [fst] in Hv; try discriminate; [|cbn [fst]; congruence].
  apply validate_ok_within in E1 as (-> & Hin & Hlo & Hhi).
  apply validate_ok_within in E2 as (-> & _).
  destruct (Z_le_gt_dec size 0) as [Hs|Hs].
  - rewrite (Z2Nat.nonpos size) by lia. cbn [load_bytes].
    destruct (_ && _); reflexivity.
  - assert (Hwin : within_one_region addr size)
      by (exists r; repeat split; auto; lia).
    pose proof (region_range _ _ Hwin) as Hr.
    rewrite (Number_small addr) by lia.
    rewrite (load_bytes_ext (memory s) (memory s0)).
    + destruct (_ && _); reflexivity.
    + intros j Hj. rewrite Z2Nat.id in Hj by lia.
      unfold JS.nadd. rewrite !Number_small by lia.
      apply Hm; [lia|exact Hwin|lia].
Qed.

(** X2.  A successful write changes the result of no read of a byte
    range that shares no address with the written one, whether that
    read returns a value or throws. *)
Theorem write_leaves_other_ranges :
  forall (s s' : Simulator) (a value n : Z) (skip : bool) (b k : Z),
    writeMemory a value n skip s = (Ok tt, s') ->
    disjoint_ranges a n b k ->
    fst (readMemory b k s') = fst (readMemory b k s).
Proof.
  intros s s' a value n skip b k Hw Hd.
  apply writeMemory_ok_inv in Hw as (-> & Hwin & Hr).
  apply readMemory_same_bytes. intros Hk Hbk j Hj.
  cbn [memory set_memory].
  destruct (Z_le_gt_dec n 0) as [Hn|Hn].
  - now rewrite (Z2Nat.nonpos n) by lia.
  - pose proof (region_range _ _ Hwin) as Hwr.
    rewrite Number_small by lia.
    unfold disjoint_ranges in Hd.
    apply store_bytes_other; lia.
Qed.

(** The eight bytes after an eight-byte store at the start of the heap. *)
Lemma write_leaves_other_ranges_witness :
  fst (readMemory 0x00400008 8 (snd (writeMemory 0x00400000 7 8 false reset)))
  = fst (readMemory 0x00400008 8 reset).
Proof.
  refine (write_leaves_other_ranges reset _ 0x00400000 7 8 false 0x00400008 8 _ _).
  - apply ok_run. vm_compute. reflexivity.
  - left. lia.
Defined.

(** X3.  [writeMemory] lays a value out with the least significant byte
    first: after a successful write of [n] bytes at [a], the byte at
    [a + i] is byte [i] of the value, for every [i] below [n]. *)
Theorem written_bytes_are_little_endian :
  forall (s s' : Simulator) (a value n : Z) (skip : bool) (i : Z),
    writeMemory a value n skip s = (Ok tt, s') ->
    0 <= i < n ->
    readMemory (a + i) 1 s' = (Ok (value / 2 ^ (8 * i) mod 256), s').
Proof.
  intros s s' a value n skip i Hw Hi.
  apply writeMemory_ok_inv in Hw as (-> & Hwin & Hr).
  pose proof (region_range _ _ Hwin) as Hwr.
  assert (Hin1 : within_one_region (a + i) 1).
  { destruct Hwin as (r & Hr1 & Hr2 & Hr3). exists r. repeat split; auto; lia. }
  destruct (validate_read_ok (a + i) 1
              (set_memory (store_bytes (JS.Number a) value 0 (Z.to_nat n)) s)
              ltac:(lia) Hin1) as [r Hv].
  unfold readMemory, bind, get. rewrite Hv. cbn [memory set_memory].
  change (Z.to_nat 1) with 1%nat. cbn [load_bytes andb Z.eqb].
  unfold JS.nadd.
  rewrite (Number_small a), (Number_small (a + i)) by lia.
  rewrite Z.add_0_r, (Number_small (a + i)) by lia.
  rewrite store_bytes_lookup by (rewrite ?Z2Nat.id; lia).
  pose proof (byte_range value i) as Hb.
  assert (Hbyte : JS.or_default (Some (Z.land (Z.shiftr value (i * 8)) 0xFF)) 0
                  = Z.land (Z.shiftr value (i * 8)) 0xFF).
  { cbn [JS.or_default]. destruct (Z.eqb_spec (Z.land (Z.shiftr value (i * 8)) 255) 0);
      congruence. }
  rewrite Hbyte. change (0 * 8) with 0. rewrite Z.shiftl_0_r, Z.lor_0_l.
  unfold ret. do 2 f_equal.
  change 0xFF with (Z.ones 8). rewrite Z.land_ones, Z.shiftr_div_pow2 by lia.
  now replace (i * 8) with (8 * i) by lia.
Qed.

(** The second byte of 0x1234 stored at the start of the heap. *)
Lemma written_bytes_are_little_endian_witness :
  readMemory (0x00400000 + 1) 1 (snd (writeMemory 0x00400000 0x1234 8 false reset))
  = (Ok (0x1234 / 2 ^ (8 * 1) mod 256), snd (writeMemory 0x00400000 0x1234 8 false reset)).
Proof.
  refine (written_bytes_are_little_endian reset _ 0x00400000 0x1234 8 false 1 _ _).
  - apply ok_run. vm_compute. reflexivity.
  - lia.
Defined.

(** The stack starts above the end of the heap, so no stack pointer is
    both inside the stack and below the end of the heap. *)
Lemma collision_none s addr : collision s addr = None.
Proof.
  unfold collision, in_region. cbn [r_start r_end heap stack].
  destruct (registers s !! "sp"%string) as [sp|]; [|reflexivity].
  repeat match goal with
         | |- context [?a <? ?b] => destruct (Z.ltb_spec a b)
         | |- context [?a <=? ?b] => destruct (Z.leb_spec a b)
         end; cbn [andb]; try reflexivity; lia.
Qed.

(** X4.  The stack/heap collision test at the end of
    [validateMemoryAccess] never fires: whatever the stack pointer, the
    address, the size and the kind of access, validation does not throw
    the collision error. *)
Theorem stack_heap_collision_is_never_reported :
  forall (s : Simulator) (addr size : Z) (isWrite : bool) (spv a : Z),
    fst (validateMemoryAccess addr size isWrite s) <> Throw (StackHeapCollision spv a).
Proof.
  intros s addr size isWrite spv a.
  unfold validateMemoryAccess, throw, ret. rewrite collision_none.
  repeat match goal with
         | |- context [if ?b then _ else _] => destruct b
         | |- context [match ?o with Some _ => _ | None => _ end] => destruct o
         end; discriminate.
Qed.

(** X5.  [getMemoryRegion] finds a region exactly for the addresses
    from 0x00100000 to 0x07FFFFFF, and no address lies in two regions:
    the five regions tile that range without gap or overlap. *)
Theorem memory_regions_tile_the_address_range :
  forall addr : Z,
    (0x00100000 <= addr <= 0x07FFFFFF <-> exists r, getMemoryRegion addr = Some r)
    /\ (forall r r', In r memoryLayout -> In r' memoryLayout ->
          in_region r addr = true -> in_region r' addr = true -> r = r').
Proof.
  intros addr. split; [split|].
  - intros Ha.
    destruct (Z_le_gt_dec addr (r_end rodata));
      [exists rodata; apply getMemoryRegion_unique; cbn in *; [tauto|lia]|].
    destruct (Z_le_gt_dec addr (r_end data));
      [exists data; apply getMemoryRegion_unique; cbn in *; [tauto|lia]|].
    destruct (Z_le_gt_dec addr (r_end bss));
      [exists bss; apply getMemoryRegion_unique; cbn in *; [tauto|lia]|].
    destruct (Z_le_gt_dec addr (r_end heap));
      [exists heap; apply getMemoryRegion_unique; cbn in *; [tauto|lia]|].
    exists stack; apply getMemoryRegion_unique; cbn in *; [tauto|lia].
  - intros [r Hr]. apply getMemoryRegion_some in Hr as [Hin Hr].
    unfold memoryLayout in Hin. cbn [In] in Hin.
    destruct Hin as [<-|[<-|[<-|[<-|[<-|[]]]]]]; cbn in Hr; lia.
  - intros r r' Hin Hin' Hr Hr'.
    unfold in_region in Hr, Hr'.
    apply andb_true_iff in Hr as [H1 H2]. apply andb_true_iff in Hr' as [H3 H4].
    pose proof (getMemoryRegion_unique addr r Hin ltac:(lia)) as E1.
    pose proof (getMemoryRegion_unique addr r' Hin' ltac:(lia)) as E2.
    congruence.
Qed.

(** The first byte of the stack region. *)
Lemma memory_regions_tile_the_address_range_witness :
  exists r, getMemoryRegion 0x07FF0000 = Some r.
Proof.
  apply (proj1 (proj1 (memory_regions_tile_the_address_range 0x07FF0000))). lia.
Defined.

(** ** [str] followed by [ldr] *)

Lemma getRegisterValue_registers s s0 r :
  registers s0 = registers s -> getRegisterValue s0 r = getRegisterValue s r.
Proof.
  intros E. destruct r as [[| | |[] n]|]; cbn [getRegisterValue];
    unfold reg_lookup; now rewrite ?E.
Qed.

Lemma effective_offset_registers s s0 p q :
  registers s0 = registers s -> same_address_operands p q ->
  effective_offset s0 q = effective_offset s p.
Proof.
  intros E (Hb & Ht & Hr & Hs & Ho). unfold effective_offset.
  rewrite Ht, Hr, Hs, Ho, !(getRegisterValue_registers s s0) by exact E. reflexivity.
Qed.

Lemma reg_lookup_insert_eq s name v f :
  registers f = <[name := v]> (registers s) -> reg_lookup f name = v.
Proof.
  intros E. unfold reg_lookup. rewrite E, lookup_insert_eq. cbn [JS.or_default].
  destruct (Z.eqb_spec v 0); congruence.
Qed.

(** X6.  A [str] of a general register followed by an [ldr] with the
    same base and offset operands into a register of the same width
    loads what was stored: for x registers the value of the source
    modulo 2^64, for w registers exactly the value the source's 32-bit
    view reads. *)
Theorem store_then_load_round_trip :
  forall (s s1 : Simulator) (p q : Parsed) (type : RegType) (n d : nat) (b : Register),
    src p = Some (RObj type n) ->
    base p = Some b ->
    dest q = Some (RObj type d) ->
    same_address_operands p q ->
    executeStr p s = (Ok tt, s1) ->
    exists s2,
      executeLdr q s1 = (Ok tt, s2)
      /\ getRegisterValue s2 (Some (RObj type d))
         = match type with
           | x_type => getRegisterValue s (Some (RObj x_type n)) mod 2 ^ 64
           | w_type => getRegisterValue s (Some (RObj w_type n))
           end.
Proof.
  intros s s1 p q type n d b Hsrc Hbase Hdest Hsame Hstr.
  pose proof Hsame as (Hb & _).
  unfold executeStr in Hstr. rewrite Hsrc, Hbase in Hstr.
  unfold bind at 1 in Hstr. unfold get at 1 in Hstr. cbv beta iota zeta in Hstr.
  rewrite <- Hsrc, <- Hbase in Hstr.
  set (address := getRegisterValue s (base p) + effective_offset s p) in *.
  set (size := if is_w (src p) then 4 else 8) in *.
  set (value := getRegisterValue s (src p)) in *.
  unfold bind in Hstr.
  destruct (writeMemory address value size false s) as [[[]|e] sw] eqn:Hw;
    [|discriminate].
  unfold modify in Hstr. injection Hstr as <-.
  assert (Hsize : 1 <= size) by (unfold size; destruct (is_w (src p)); lia).
  pose proof (write_then_read_round_trip _ _ _ _ _ _ Hsize Hw) as Hread.
  pose proof (writeMemory_ok_inv _ _ _ _ _ _ Hw) as (Esw & _).
  set (s1 := add_changedMemory (touched (JS.Number address) 0 (Z.to_nat size)) sw).
  assert (Hregs : registers s1 = registers s) by (unfold s1; rewrite Esw; reflexivity).
  assert (Hmem : memory s1 = memory sw) by reflexivity.
  assert (Hread1 : readMemory address size s1 = (Ok (read_back value size), s1)).
  { pose proof (readMemory_same_bytes address size sw s1
                  (fun _ _ j _ => f_equal (fun m => m !! (address + j)) Hmem)) as Hfst.
    rewrite Hread in Hfst. cbn [fst] in Hfst.
    destruct (readMemory address size s1) as [[v|e] s2] eqn:Er; cbn [fst] in Hfst;
      [|discriminate].
    injection Hfst as ->. f_equal.
    unfold readMemory, bind, get in Er.
    destruct (validateMemoryAccess address size false s1) as [[r|e0] s3] eqn:Ev;
      [|discriminate].
    apply validate_ok_within in Ev as (-> & _).
    destruct (_ && _); unfold ret in Er; congruence. }
  unfold executeLdr. rewrite Hdest, Hb, Hbase.
  unfold bind at 1. unfold get at 1. cbv beta iota zeta.
  rewrite <- Hbase, <- Hdest.
  assert (Haddr : getRegisterValue s1 (base p) + effective_offset s1 q = address).
  { unfold address.
    rewrite (getRegisterValue_registers s s1), (effective_offset_registers s s1 p q);
      auto. }
  assert (Hsz : (if is_w (dest q) then 4 else 8) = size).
  { unfold size. rewrite Hdest, Hsrc. reflexivity. }
  rewrite Haddr, Hsz. unfold bind at 1. rewrite Hread1.
  unfold bind.
  destruct (setRegisterValue_obj type d (read_back value size) s1)
    as (sa & Hsa & Hregsa & _).
  rewrite Hdest, Hsa. unfold modify.
  eexists. split; [reflexivity|].
  set (s2 := add_changedMemory _ sa).
  assert (Hregs2 : registers s2 = <[xname d := written type (read_back value size)]>
                                    (registers s1)) by exact Hregsa.
  clearbody s2. clear Hread Hread1 Hw Hsz Hsize Haddr Esw Hsa.
  subst value size address. rewrite Hsrc in Hregs2.
  destruct type; cbn [is_w written] in *.
  - cbn [getRegisterValue].
    rewrite (reg_lookup_insert_eq _ _ _ _ Hregs2).
    unfold read_back. cbn [Z.eqb andb]. reflexivity.
  - rewrite !w_read_value. unfold stored at 1 2.
    rewrite !(reg_lookup_insert_eq _ _ _ _ Hregs2).
    rewrite !w_read_value.
    set (xv := stored n s).
    assert (Hl : 0 <= xv mod 2 ^ 32 < 2 ^ 32) by (apply Z.mod_pos_bound; lia).
    assert (Elow : (xv mod 2 ^ 32 + (if Z.testbit xv 31 then 2 ^ 64 - 2 ^ 32 else 0))
                   mod 2 ^ (8 * 4) = xv mod 2 ^ 32).
    { destruct (Z.testbit xv 31).
      - symmetry. apply Z.mod_unique with (2 ^ 32 - 1); lia.
      - rewrite Z.add_0_r. apply Z.mod_small. exact Hl. }
    assert (Eback : read_back (xv mod 2 ^ 32
                               + (if Z.testbit xv 31 then 2 ^ 64 - 2 ^ 32 else 0)) 4
                    mod 2 ^ 32 = xv mod 2 ^ 32).
    { unfold read_back. cbv zeta. rewrite Elow.
      change (4 =? 4) with true. cbn [andb].
      destruct (2 ^ 31 <=? xv mod 2 ^ 32).
      - symmetry. apply Z.mod_unique with (2 ^ 32 - 1); lia.
      - apply Z.mod_small. exact Hl. }
    rewrite Eback. rewrite Z.mod_mod by lia.
    rewrite testbit_mod_pow2_low by lia. reflexivity.
Qed.

(** [str x0, [sp]] then [ldr x1, [sp]] after [sub sp, sp, #16]. *)
Lemma store_then_load_round_trip_witness :
  exists s2,
    executeLdr ldr_x1_sp (snd (executeStr str_x0_sp
                                 (snd (executeSub sub_sp_16 false reset))))
    = (Ok tt, s2)
    /\ getRegisterValue s2 (Some (RObj x_type 1))
       = getRegisterValue (snd (executeSub sub_sp_16 false reset))
           (Some (RObj x_type 0)) mod 2 ^ 64.
Proof.
  refine (store_then_load_round_trip (snd (executeSub sub_sp_16 false reset)) _
            str_x0_sp ldr_x1_sp x_type 0 1 RSp _ _ _ _ _).
  - reflexivity.
  - reflexivity.
  - reflexivity.
  - repeat split.
  - apply ok_run. vm_compute. reflexivity.
Defined.

(** ** Conditional branches after a comparison *)

Section Conditions.

Variable w : Z.
Hypothesis Hw : w = 32 \/ w = 64.
Variables a b : Z.
Hypothesis Ha : 0 <= a < 2 ^ w.
Hypothesis Hb : 0 <= b < 2 ^ w.

Local Abbreviation fl := (spec_flags op_sub w a b (masked_result op_sub w a b)).

(** The flags of [a - b] in terms of the operands. *)
Lemma sub_flags_meaning :
  flag_Z fl = (a =? b)
  /\ flag_C fl = (b <=? a)
  /\ Bool.eqb (flag_N fl) (flag_V fl) = (toSigned b w <=? toSigned a w).
Proof.
  destruct (pow_split w Hw) as [Hp Hpos].
  cbn [spec_flags flag_N flag_Z flag_C flag_V masked_result].
  assert (Hr : 0 <= (a - b) mod 2 ^ w < 2 ^ w) by (apply Z.mod_pos_bound; lia).
  rewrite !(sign_bit_ge w Hw) by assumption.
  rewrite !(toSigned_spec w Hw) by assumption.
  destruct (sub_result_cases w Hw a b Ha Hb) as [[H1 ->]|[H1 ->]];
    destruct (Z.leb_spec (2 ^ (w - 1)) a), (Z.leb_spec (2 ^ (w - 1)) b);
    repeat match goal with
           | |- context [?x <=? ?y] => destruct (Z.leb_spec x y)
           | |- context [?x =? ?y] => destruct (Z.eqb_spec x y)
           end;
    cbn [Bool.eqb andb negb]; repeat split; try reflexivity; lia.
Qed.

Lemma conditionMet_comparison condition res :
  comparison condition w a b = Some res ->
  conditionMet fl condition = Some res.
Proof.
  destruct sub_flags_meaning as (Hz & Hc & Hnv).
  destruct (pow_split w Hw) as [Hp Hpos].
  unfold comparison, conditionMet. cbv zeta.
  rewrite Hz, Hc, Hnv.
  rewrite !(toSigned_spec w Hw) by assumption.
  destruct (Z.leb_spec (2 ^ (w - 1)) a), (Z.leb_spec (2 ^ (w - 1)) b);
  repeat match goal with
         | |- context [String.eqb condition ?c] =>
             destruct (String.eqb_spec condition c) as [->|];
             [cbn [String.eqb Ascii.eqb Bool.eqb andb]|]
         end; try discriminate; intros [= <-]; f_equal;
    repeat match goal with
           | |- context [?x <=? ?y] => destruct (Z.leb_spec x y)
           | |- context [?x <? ?y] => destruct (Z.ltb_spec x y)
           | |- context [?x =? ?y] => destruct (Z.eqb_spec x y)
           end; cbn [andb orb negb]; try reflexivity; lia.
Qed.

End Conditions.

Lemma substring_all (c : string) : String.substring 0 (String.length c) c = c.
Proof. induction c as [|x c IH]; cbn; [reflexivity|now rewrite IH]. Qed.

Lemma condition_of_opcode (condition : string) :
  String.substring 1 (String.length ("b" +:+ condition) - 1) ("b" +:+ condition)
  = condition.
Proof.
  change ("b" +:+ condition) with (String "b" condition).
  cbn [String.length]. rewrite Nat.sub_1_r. cbn [Nat.pred String.substring].
  apply substring_all.
Qed.

(** X7.  A conditional branch that follows a successful [cmp] or [subs]
    decides as its condition code reads the two operands of the
    comparison at the width the handler chose: [eq] and [ne] by
    equality, [lo], [ls], [hi], [hs] by the unsigned order, [lt], [le],
    [gt], [ge] by the order of the two's-complement readings.  A branch
    that is taken sets the PC to the address of its label; one that is
    not taken changes nothing. *)
Theorem conditional_branch_after_compare :
  forall (s s' : Simulator) (p q : Parsed) (writeResult : bool) (val2 : Z)
         (condition l : string) (info : Symbol) (res : bool),
    executeArithmeticWithFlags p op_sub writeResult s = (Ok tt, s') ->
    operand2 s p = Some val2 ->
    comparison condition (flags_size p)
      (getRegisterValue s (src1 p) mod 2 ^ flags_size p)
      (val2 mod 2 ^ flags_size p) = Some res ->
    label q = Some l -> l <> ""%string ->
    symbolTable s' !! l = Some info ->
    let out := executeConditionalBranch q ("b" +:+ condition) s' in
    fst out = Ok res
    /\ (res = true -> registers (snd out) !! "pc" = Some (sym_address info))
    /\ (res = false -> snd out = s').
Proof.
  intros s s' p q writeResult val2 condition l info res Hrun Hop Hcmp Hl Hne Hsym.
  destruct (executeArithmeticWithFlags_flags _ _ _ _ _ Hrun) as (v & Hop' & Hfl).
  rewrite Hop in Hop'. injection Hop' as <-. cbv zeta in Hfl.
  pose proof (flags_size_cases p) as Hw.
  assert (H2w : 0 < 2 ^ flags_size p) by (apply Z.pow_pos_nonneg; lia).
  pose proof (conditionMet_comparison (flags_size p) Hw _ _
                (Z.mod_pos_bound _ _ H2w) (Z.mod_pos_bound _ _ H2w)
                condition res Hcmp) as Hmet.
  rewrite <- Hfl in Hmet.
  cbv zeta. unfold executeConditionalBranch.
  assert (Ht : truthy (label q) = Some l).
  { rewrite Hl. cbn [truthy]. destruct (String.eqb_spec l ""); congruence. }
  rewrite Ht. unfold bind, get. rewrite condition_of_opcode, Hmet.
  destruct res.
  - unfold branch_to_label. rewrite Hl, Hsym. cbn [fst snd].
    split; [reflexivity|]. split; [|discriminate].
    intros _. unfold jump_to, set_pc. cbn [registers set_currentInstructionIndex set_registers].
    apply lookup_insert_eq.
  - unfold ret. cbn [fst snd]. split; [reflexivity|]. split; [discriminate|reflexivity].
Qed.

(** [cmp x0, x1] with x0 = 5 and x1 = 10, then [blt loop]: taken. *)
Lemma conditional_branch_after_compare_witness :
  fst (executeConditionalBranch blt_loop "blt"
         (snd (executeArithmeticWithFlags cmp_x0_x1 op_sub false sim_5_10_loop)))
  = Ok true.
Proof.
  refine (proj1 (conditional_branch_after_compare sim_5_10_loop _ cmp_x0_x1 blt_loop
                   false 10 "lt" "loop" (mkSymbol 0 "text" "code" false) true
                   _ _ _ _ _ _)).
  - apply ok_run. vm_compute. reflexivity.
  - reflexivity.
  - vm_compute. reflexivity.
  - reflexivity.
  - discriminate.
  - vm_compute. reflexivity.
Defined.

(** ** What the handlers leave alone *)

Section Keeps.

Context {B : Type} (proj : Simulator -> B).

Lemma keeps_ret {A} (a : A) : keeps proj (ret a).
Proof. intros s. reflexivity. Qed.

Lemma keeps_throw {A} (e : Error) : keeps proj (throw (A := A) e).
Proof. intros s. reflexivity. Qed.

Lemma keeps_get : keeps proj get.
Proof. intros s. reflexivity. Qed.

Lemma keeps_bind {A C} (m : M A) (k : A -> M C) :
  keeps proj m -> (forall a, keeps proj (k a)) -> keeps proj (bind m k).
Proof.
  intros Hm Hk s. unfold bind. specialize (Hm s).
  destruct (m s) as [[a|e] s1]; cbn [snd] in *; [|exact Hm].
  now rewrite Hk.
Qed.

Lemma keeps_modify (f : Simulator -> Simulator) :
  (forall s, proj (f s) = proj s) -> keeps proj (modify f).
Proof. intros Hf s. apply Hf. Qed.

Lemma keeps_validateMemoryAccess addr size isWrite :
  keeps proj (validateMemoryAccess addr size isWrite).
Proof.
  intros s. destruct (validateMemoryAccess addr size isWrite s) as [[r|e] s1] eqn:E.
  - now apply validate_ok_within in E as (-> & _).
  - now rewrite (validate_throw_state _ _ _ _ _ _ E).
Qed.

Lemma keeps_add_second_operand p : keeps proj (add_second_operand p).
Proof.
  intros s. unfold add_second_operand, ret, throw.
  repeat match goal with
         | |- context [match ?x with _ => _ end] => destruct x
         end; reflexivity.
Qed.

End Keeps.

Lemma keeps_readMemory {B} (proj : Simulator -> B) addr size :
  keeps proj (readMemory addr size).
Proof.
  unfold readMemory. apply keeps_bind; [apply keeps_validateMemoryAccess|intros r].
  apply keeps_bind; [apply keeps_get|intros s].
  destruct (_ && _); apply keeps_ret.
Qed.

Lemma keeps_flags_setRegisterValue reg value :
  keeps flags (setRegisterValue reg value).
Proof. intros s. destruct reg as [[| | |[] n]|]; reflexivity. Qed.

Lemma keeps_memory_setRegisterValue reg value :
  keeps memory (setRegisterValue reg value).
Proof. intros s. destruct reg as [[| | |[] n]|]; reflexivity. Qed.

Lemma keeps_flags_writeMemory addr value size skip :
  keeps flags (writeMemory addr value size skip).
Proof.
  intros s. destruct (writeMemory addr value size skip s) as [[[]|e] s1] eqn:E.
  - now apply writeMemory_ok_inv in E as (-> & _).
  - now rewrite (writeMemory_throw_state _ _ _ _ _ _ _ E).
Qed.

Create HintDb keeps.

#[local] Hint Resolve keeps_ret keeps_throw keeps_get keeps_validateMemoryAccess
  keeps_add_second_operand keeps_readMemory keeps_flags_setRegisterValue
  keeps_memory_setRegisterValue keeps_flags_writeMemory : keeps.

(** One step of a proof that a handler keeps a component: through binds,
    case distinctions and updates of other components. *)
Ltac keeps_step :=
  match goal with
  | |- keeps _ (bind _ _) => apply keeps_bind; [|intros ?]
  | |- keeps _ (modify _) => apply keeps_modify; intros ?; reflexivity
  | |- keeps _ (match ?x with _ => _ end) => destruct x
  | |- keeps _ _ => solve [auto with keeps]
  end.

Ltac keeps_tac := repeat keeps_step.

Lemma keeps_branch_to_label {B} (proj : Simulator -> B) p :
  (forall v i s, proj (set_currentInstructionIndex i (set_pc v s)) = proj s) ->
  keeps proj (branch_to_label p).
Proof.
  intros H s. unfold branch_to_label, throw, jump_to.
  destruct (label p); [|reflexivity].
  destruct (symbolTable s !! s0); [|reflexivity]. cbn [snd]. apply H.
Qed.

Lemma keeps_executeRet {B} (proj : Simulator -> B) p :
  (forall v s, proj (set_pc v s) = proj s) ->
  (forall i s, proj (set_currentInstructionIndex i s) = proj s) ->
  keeps proj (executeRet p).
Proof.
  intros H1 H2 s. unfold executeRet, throw.
  repeat match goal with
         | |- context [match ?x with _ => _ end] => destruct x
         end; cbn [snd]; rewrite ?H2, ?H1; reflexivity.
Qed.

Lemma keeps_executeAdr {B} (proj : Simulator -> B) p a :
  (forall reg v, keeps proj (setRegisterValue reg v)) ->
  keeps proj (executeAdr p a) /\ keeps proj (executeAdrp p a).
Proof.
  intros H. split; intros s; unfold executeAdr, executeAdrp, throw;
    repeat match goal with
           | |- context [match ?x with _ => _ end] => destruct x
           end; try reflexivity; apply H.
Qed.

(** X8.  Only the flag-setting instructions change the flags: [mov],
    [add], [sub], [str], [ldr], the shifts and [mvn], [adr], [adrp],
    the branches and [ret] leave all four flags as they were, whether
    they succeed or throw, and so do the logical operations other than
    [ands]; [ands] itself leaves C and V as they were. *)
Theorem flags_change_only_by_flag_setting_instructions :
  forall (p : Parsed) (lp : ShiftedParsed) (opcode : string) (addr : Z),
    keeps flags (executeMov p)
    /\ keeps flags (executeAdd p)
    /\ keeps flags (executeSub p false)
    /\ keeps flags (executeStr p)
    /\ keeps flags (executeLdr p)
    /\ keeps flags (executeShift p opcode)
    /\ keeps flags (executeAdr p addr)
    /\ keeps flags (executeAdrp p addr)
    /\ keeps flags (executeB p)
    /\ keeps flags (executeCbz p opcode)
    /\ keeps flags (executeConditionalBranch p opcode)
    /\ keeps flags (executeRet p)
    /\ (opcode <> "ands"%string -> keeps flags (executeLogical lp opcode))
    /\ keeps flags_CV (executeLogical lp opcode).
Proof.
  intros p lp opcode addr.
  assert (Hb : keeps flags (branch_to_label p))
    by (apply keeps_branch_to_label; reflexivity).
  repeat split.
  - unfold executeMov. keeps_tac.
  - unfold executeAdd, destroyStackFrame. keeps_tac.
  - unfold executeSub, createStackFrame. keeps_tac.
  - unfold executeStr. keeps_tac.
  - unfold executeLdr. keeps_tac.
  - unfold executeShift. keeps_tac.
  - apply keeps_executeAdr. auto with keeps.
  - apply keeps_executeAdr. auto with keeps.
  - unfold executeB. keeps_tac.
  - unfold executeCbz. keeps_tac.
  - unfold executeConditionalBranch. keeps_tac.
  - apply keeps_executeRet; reflexivity.
  - intros Hne. unfold executeLogical.
    destruct (String.eqb_spec opcode "ands"); [contradiction|]. keeps_tac.
  - unfold executeLogical.
    assert (Hs : forall reg v, keeps flags_CV (setRegisterValue reg v)).
    { intros reg v s. unfold flags_CV.
      now rewrite (keeps_flags_setRegisterValue reg v s). }
    keeps_tac; apply Hs.
Qed.

(** [and x0, x1, x2] at the reset state. *)
Lemma flags_change_only_by_flag_setting_instructions_witness :
  keeps flags (executeLogical (and_x0_x1_x2 "and") "and").
Proof.
  refine (proj1 (proj2 (proj2 (proj2 (proj2 (proj2 (proj2 (proj2 (proj2 (proj2
            (proj2 (proj2 (proj2
              (flags_change_only_by_flag_setting_instructions
                 (parsed0 "and") (and_x0_x1_x2 "and") "and" 0))))))))))))) _).
  discriminate.
Defined.

(** X9.  Which handlers leave the memory map alone.  [mov], [add],
    [sub] and [subs], [adds], [cmp] and [cmn], [ldr], the shifts and
    [mvn], the logical operations, [adr], [adrp], [b], [cbz] and
    [cbnz], the conditional branches and [ret] leave the memory map as
    it was, whether they succeed or throw, and so does a [bl] to a
    label that is not the name of a built-in function, whatever the
    built-in functions do.  (The built-in functions that [bl] calls by
    name are outside this statement: some of them store what they
    read.)  A [str] in turn changes no register, and a comparison
    ([cmp], [cmn]) changes neither a register nor the memory. *)
Theorem memory_changes_only_by_stores :
  forall (p : Parsed) (lp : ShiftedParsed) (opcode : string) (addr : Z)
         (operation : Operation) (setFlags writeResult : bool),
    keeps memory (executeMov p)
    /\ keeps memory (executeAdd p)
    /\ keeps memory (executeSub p setFlags)
    /\ keeps memory (executeArithmeticWithFlags p operation writeResult)
    /\ keeps memory (executeLdr p)
    /\ keeps memory (executeShift p opcode)
    /\ keeps memory (executeLogical lp opcode)
    /\ keeps memory (executeAdr p addr)
    /\ keeps memory (executeAdrp p addr)
    /\ keeps memory (executeB p)
    /\ keeps memory (executeCbz p opcode)
    /\ keeps memory (executeConditionalBranch p opcode)
    /\ keeps memory (executeRet p)
    /\ (forall (executeBuiltInFunctionSync : string -> M unit) (l : string),
          label p = Some l ->
          existsb (String.eqb l) builtInFunctions = false ->
          keeps memory (executeBl executeBuiltInFunctionSync p))
    /\ keeps registers (executeStr p)
    /\ keeps registers (executeArithmeticWithFlags p operation false).
Proof.
  intros p lp opcode addr operation setFlags writeResult.
  assert (Hb : keeps memory (branch_to_label p))
    by (apply keeps_branch_to_label; reflexivity).
  repeat match goal with |- _ /\ _ => split end.
  - unfold executeMov. keeps_tac.
  - unfold executeAdd, destroyStackFrame. keeps_tac.
  - unfold executeSub, createStackFrame, updateFlags. keeps_tac.
  - unfold executeArithmeticWithFlags, createStackFrame, destroyStackFrame. keeps_tac.
  - unfold executeLdr. keeps_tac.
  - unfold executeShift. keeps_tac.
  - unfold executeLogical. keeps_tac.
  - apply keeps_executeAdr. auto with keeps.
  - apply keeps_executeAdr. auto with keeps.
  - unfold executeB. keeps_tac.
  - unfold executeCbz. keeps_tac.
  - unfold executeConditionalBranch. keeps_tac.
  - apply keeps_executeRet; reflexivity.
  - intros builtin l Hl Hnb s. unfold executeBl. rewrite Hl. cbn [truthy].
    destruct (String.eqb l ""); [reflexivity|].
    destruct (registers s !! "pc") as [pcv|]; [|reflexivity].
    rewrite Hnb. destruct (symbolTable s !! l) as [labelInfo|]; [|reflexivity].
    reflexivity.
  - unfold executeStr. keeps_tac.
    intros s. destruct (writeMemory _ _ _ false s) as [[[]|e] s1] eqn:E.
    + now apply writeMemory_ok_inv in E as (-> & _).
    + now rewrite (writeMemory_throw_state _ _ _ _ _ _ _ E).
  - unfold executeArithmeticWithFlags. keeps_tac.
Qed.

(** [bl helper]: the memory map is kept whatever the built-in functions
    do, here with one that overwrites the byte at 0x00200000. *)
Lemma memory_changes_only_by_stores_witness :
  keeps memory
    (executeBl (fun _ => modify (set_memory (fun m => <[0x00200000 := 1]> m)))
               (bl_to "helper")).
Proof.
  refine (proj1 (proj2 (proj2 (proj2 (proj2 (proj2 (proj2 (proj2 (proj2 (proj2
            (proj2 (proj2 (proj2 (proj2
              (memory_changes_only_by_stores
                 (bl_to "helper") (and_x0_x1_x2 "and") "bl" 0 op_add false false))))))))))))))
            _ "helper" _ _).
  - reflexivity.
  - reflexivity.
Defined.

(** ** Shifts and logical operations *)

Lemma size_mask_width type : size_mask (width type) = Z.ones (width type).
Proof. destruct type; reflexivity. Qed.

Lemma land_mask_range z type :
  0 <= Z.land z (Z.ones (width type)) < 2 ^ width type.
Proof.
  rewrite Z.land_ones by (destruct type; cbn; lia).
  apply Z.mod_pos_bound. destruct type; cbn; lia.
Qed.

(** What a register object holds after a masked result was written. *)
Lemma setRegisterValue_masked type d z s :
  exists s',
    setRegisterValue (Some (RObj type d)) (Z.land z (Z.ones (width type))) s = (Ok tt, s')
    /\ registers s' = <[xname d := Z.land z (Z.ones (width type))]> (registers s)
    /\ flags s' = flags s.
Proof.
  destruct (setRegisterValue_obj type d (Z.land z (Z.ones (width type))) s)
    as (s' & H1 & H2 & H3).
  exists s'. split; [exact H1|]. split; [|exact H3].
  rewrite H2. f_equal. destruct type; cbn [written]; [reflexivity|].
  apply Z.mod_small. apply (land_mask_range z w_type).
Qed.

Section ShiftArithmetic.

Variable w : Z.
Hypothesis Hw : w = 32 \/ w = 64.

(** The sign extension both [asr] cases build is the two's-complement
    reading. *)
Lemma sign_extended_is_toSigned v :
  0 <= v < 2 ^ w ->
  (if negb (Z.land v (size_signMask w) =? 0)
   then Z.lor v (Z.lnot (size_mask w)) else v)
  = toSigned v w.
Proof.
  intros Hv. unfold toSigned, size_signMask.
  destruct (negb (Z.land v (Z.shiftl 1 (if w =? 64 then 63 else 31)) =? 0));
    [|reflexivity].
  rewrite (size_mask_ones w Hw).
  assert (Hz : Z.land v (Z.lnot (Z.ones w)) = 0).
  { rewrite land_lnot_sub, Z.land_ones by lia. rewrite Z.mod_small; lia. }
  rewrite lor_disjoint_add by exact Hz.
  rewrite Z.shiftl_1_l. unfold Z.lnot. rewrite Z.ones_equiv. lia.
Qed.

Lemma lsl_value v k :
  0 <= k -> Z.land (Z.shiftl v k) (size_mask w) = (v * 2 ^ k) mod 2 ^ w.
Proof.
  intros Hk. rewrite (land_mask_mod w Hw), Z.shiftl_mul_pow2 by lia. reflexivity.
Qed.

Lemma shiftr_value v k :
  0 <= k -> Z.land (Z.shiftr v k) (size_mask w) = (v / 2 ^ k) mod 2 ^ w.
Proof.
  intros Hk. rewrite (land_mask_mod w Hw), Z.shiftr_div_pow2 by lia. reflexivity.
Qed.

Lemma asr_value v k :
  0 <= k ->
  shifted_value "asr" w v k
  = Some (if k =? 0 then v mod 2 ^ w
          else (toSigned (v mod 2 ^ w) w / 2 ^ k) mod 2 ^ w).
Proof.
  intros Hk. unfold shifted_value. cbv zeta.
  destruct (k =? 0); [now rewrite (land_mask_mod w Hw)|].
  cbn [String.eqb Ascii.eqb Bool.eqb andb].
  rewrite (land_mask_mod w Hw v).
  rewrite sign_extended_is_toSigned by (apply Z.mod_pos_bound; destruct Hw; subst; lia).
  now rewrite shiftr_value.
Qed.

End ShiftArithmetic.

Lemma rem_small a b : 0 <= a < b -> Z.rem a b = a.
Proof. intros H. apply Z.rem_small. lia. Qed.

(** Rotation of an in-range 64-bit value. *)
Lemma ror_value v k :
  0 <= v < 2 ^ 64 -> 0 < k < 64 ->
  shifted_value "ror" 64 v k = Some (rotated v k).
Proof.
  intros Hv Hk. unfold shifted_value. cbv zeta.
  destruct (Z.eqb_spec k 0); [lia|].
  cbn [String.eqb Ascii.eqb Bool.eqb andb].
  rewrite Number_small by lia. rewrite rem_small by lia.
  destruct (Z.eqb_spec k 0); [lia|]. f_equal.
  rewrite Z.shiftl_1_l.
  replace (2 ^ k - 1) with (Z.ones k) by (rewrite Z.ones_equiv; lia).
  rewrite Z.land_ones by lia.
  rewrite Z.shiftr_div_pow2, Z.shiftl_mul_pow2 by lia.
  assert (H2k : 0 < 2 ^ k) by (apply Z.pow_pos_nonneg; lia).
  assert (H2r : 0 < 2 ^ (64 - k)) by (apply Z.pow_pos_nonneg; lia).
  assert (Hsplit : 2 ^ 64 = 2 ^ k * 2 ^ (64 - k)).
  { rewrite <- Z.pow_add_r by lia. f_equal. lia. }
  assert (Hq : 0 <= v / 2 ^ k < 2 ^ (64 - k)).
  { split; [apply Z.div_pos; lia|]. apply Z.div_lt_upper_bound; lia. }
  assert (Hm : 0 <= v mod 2 ^ k < 2 ^ k) by (apply Z.mod_pos_bound; lia).
  rewrite lor_disjoint_add by (apply land_low_high; lia).
  unfold rotated. change (size_mask 64) with (Z.ones 64).
  apply land_ones_small; [lia|]. rewrite Z.ones_equiv. nia.
Qed.

Lemma rotated_back v k :
  0 <= v < 2 ^ 64 -> 0 < k < 64 ->
  0 <= rotated v k < 2 ^ 64 /\ rotated (rotated v k) (64 - k) = v.
Proof.
  intros Hv Hk.
  assert (H2k : 0 < 2 ^ k) by (apply Z.pow_pos_nonneg; lia).
  assert (H2r : 0 < 2 ^ (64 - k)) by (apply Z.pow_pos_nonneg; lia).
  assert (Hsplit : 2 ^ 64 = 2 ^ k * 2 ^ (64 - k)).
  { rewrite <- Z.pow_add_r by lia. f_equal. lia. }
  assert (Hq : 0 <= v / 2 ^ k < 2 ^ (64 - k)).
  { split; [apply Z.div_pos; lia|]. apply Z.div_lt_upper_bound; lia. }
  assert (Hm : 0 <= v mod 2 ^ k < 2 ^ k) by (apply Z.mod_pos_bound; lia).
  unfold rotated. split; [nia|].
  replace (64 - (64 - k)) with k by lia.
  set (q := v / 2 ^ k) in *. set (m := v mod 2 ^ k) in *.
  assert (Ed : (q + m * 2 ^ (64 - k)) / 2 ^ (64 - k) = m)
    by (symmetry; apply Z.div_unique with q; lia).
  assert (Em : (q + m * 2 ^ (64 - k)) mod 2 ^ (64 - k) = q)
    by (symmetry; apply Z.mod_unique with m; lia).
  rewrite Ed, Em. pose proof (Z.div_mod v (2 ^ k)). subst q m. lia.
Qed.

Lemma shifted_value_masked opcode type v k r :
  shifted_value opcode (width type) v k = Some r ->
  exists z, r = Z.land z (Z.ones (width type)).
Proof.
  unfold shifted_value. cbv zeta.
  replace (size_mask (width type)) with (Z.ones (width type))
    by (destruct type; reflexivity).
  repeat match goal with
         | |- context [if ?b then _ else _] => destruct b
         end; intros [= <-]; eauto.
Qed.

(** What a successful shift other than [mvn] did. *)
Lemma executeShift_inv p opcode s s' type d :
  dest p = Some (RObj type d) ->
  String.eqb opcode "mvn" = false ->
  executeShift p opcode s = (Ok tt, s') ->
  exists k r,
    shift_amount s p = Some k
    /\ shifted_value opcode (width type) (getRegisterValue s (src1 p)) k = Some r
    /\ registers s' = <[xname d := r]> (registers s)
    /\ flags s' = flags s.
Proof.
  intros Hdest Hmvn. unfold executeShift, shift_amount. rewrite Hdest.
  destruct (src1 p) as [r1|] eqn:E1; [|discriminate].
  unfold bind at 1. unfold get at 1. cbv beta iota zeta. rewrite Hmvn.
  replace (if is_w (Some (RObj type d)) then 32 else 64) with (width type)
    by (destruct type; reflexivity).
  replace (if width type =? 64 then 63 else 31)
    with (if is_w (Some (RObj type d)) then 31 else 63)
    by (destruct type; reflexivity).
  assert (Hfinish : forall k,
    bind (match shifted_value opcode (width type) (getRegisterValue s (Some r1)) k with
          | Some result => ret result
          | None => throw (Unsupported opcode)
          end) (fun result => setRegisterValue (Some (RObj type d)) result) s
    = (Ok tt, s') ->
    exists r,
      shifted_value opcode (width type) (getRegisterValue s (Some r1)) k = Some r
      /\ registers s' = <[xname d := r]> (registers s) /\ flags s' = flags s).
  { intros k. unfold bind.
    destruct (shifted_value opcode (width type) (getRegisterValue s (Some r1)) k)
      as [r|] eqn:Ev; [|discriminate].
    unfold ret. destruct (shifted_value_masked _ _ _ _ _ Ev) as [z ->].
    destruct (setRegisterValue_masked type d z s) as (sa & Hsa & Hregs & Hfl).
    rewrite Hsa. intros [= <-]. eauto. }
  unfold bind at 1.
  destruct (immediate p) as [imm|].
  - unfold bind at 1. unfold ret at 1. intros H.
    destruct (Hfinish imm H) as (r & Hr). eauto.
  - destruct (src2 p) as [r2|] eqn:E2.
    + unfold bind at 1. unfold ret at 1. intros H.
      replace (if width type =? 64 then 63 else 31)
        with (if is_w (Some (RObj type d)) then 31 else 63) in H
        by (destruct type; reflexivity).
      destruct (Hfinish _ H) as (r & Hr). eauto.
    + discriminate.
Qed.

(** X10.  On an x register holding a 64-bit value [v], with a shift
    amount [k] from 1 to 63 (an immediate, or the low six bits of a
    register): [lsl] writes [v * 2^k] modulo 2^64, [lsr] the floor of
    [v / 2^k], [asr] the floor of the two's-complement reading of [v]
    divided by [2^k], as a 64-bit pattern, and [ror] the rotation of
    [v] by [k]; the flags stay as they were. *)
Theorem shifts_of_x_registers :
  forall (s s' : Simulator) (p : Parsed) (opcode : string) (d n : nat)
         (v k meaning : Z),
    dest p = Some (RObj x_type d) ->
    src1 p = Some (RObj x_type n) ->
    stored n s = v -> 0 <= v < 2 ^ 64 ->
    shift_amount s p = Some k -> 0 < k < 64 ->
    shift_meaning opcode v k = Some meaning ->
    executeShift p opcode s = (Ok tt, s') ->
    registers s' !! xname d = Some meaning /\ flags s' = flags s.
Proof.
  intros s s' p opcode d n v k meaning Hdest Hsrc Hv Hrange Hk Hkr Hmean Hrun.
  assert (Hmvn : String.eqb opcode "mvn" = false).
  { destruct (String.eqb_spec opcode "mvn") as [->|]; [discriminate|reflexivity]. }
  destruct (executeShift_inv _ _ _ _ _ _ Hdest Hmvn Hrun) as (k' & r & Hk' & Hr & Hregs & Hfl).
  rewrite Hk in Hk'. injection Hk' as <-.
  split; [|exact Hfl]. rewrite Hregs, lookup_insert_eq. f_equal.
  rewrite Hsrc in Hr. cbn [getRegisterValue width] in Hr. fold (stored n s) in Hr.
  rewrite Hv in Hr. clear Hregs Hrun Hk.
  assert (H64 : 64 = 32 \/ 64 = 64) by now right.
  unfold shift_meaning in Hmean.
  destruct (String.eqb_spec opcode "lsl") as [->|].
  { injection Hmean as <-. unfold shifted_value in Hr. cbv zeta in Hr.
    destruct (Z.eqb_spec k 0); [lia|].
    cbn [String.eqb Ascii.eqb Bool.eqb andb] in Hr.
    rewrite (lsl_value 64 H64) in Hr by lia. congruence. }
  destruct (String.eqb_spec opcode "lsr") as [->|].
  { injection Hmean as <-. unfold shifted_value in Hr. cbv zeta in Hr.
    destruct (Z.eqb_spec k 0); [lia|].
    cbn [String.eqb Ascii.eqb Bool.eqb andb] in Hr.
    rewrite (shiftr_value 64 H64) in Hr by lia.
    rewrite Z.mod_small in Hr; [congruence|].
    assert (0 < 2 ^ k) by (apply Z.pow_pos_nonneg; lia).
    split; [apply Z.div_pos; lia|].
    apply Z.div_lt_upper_bound; nia. }
  destruct (String.eqb_spec opcode "asr") as [->|].
  { injection Hmean as <-. rewrite (asr_value 64 H64) in Hr by lia.
    destruct (Z.eqb_spec k 0); [lia|].
    rewrite (Z.mod_small v) in Hr by lia. congruence. }
  destruct (String.eqb_spec opcode "ror") as [->|]; [|discriminate].
  injection Hmean as <-. rewrite ror_value in Hr by lia. congruence.
Qed.

(** [lsr x0, x1, #4] with x1 = 0xF0. *)
Lemma shifts_of_x_registers_witness :
  registers (snd (executeShift (shift_imm "lsr" x_type 0 1 4) "lsr" sim_x1_F0)) !! "x0"
  = Some 0xF.
Proof.
  refine (proj1 (shifts_of_x_registers sim_x1_F0 _ (shift_imm "lsr" x_type 0 1 4)
                   "lsr" 0 1 0xF0 4 0xF _ _ _ _ _ _ _ _)).
  - reflexivity.
  - reflexivity.
  - reflexivity.
  - lia.
  - reflexivity.
  - lia.
  - reflexivity.
  - apply ok_run. vm_compute. reflexivity.
Defined.

(** A shift whose amount and value are known runs. *)
Lemma executeShift_run p opcode s type d r1 k r :
  dest p = Some (RObj type d) ->
  src1 p = Some r1 ->
  String.eqb opcode "mvn" = false ->
  shift_amount s p = Some k ->
  shifted_value opcode (width type) (getRegisterValue s (src1 p)) k = Some r ->
  exists s',
    executeShift p opcode s = (Ok tt, s')
    /\ registers s' = <[xname d := r]> (registers s).
Proof.
  intros Hdest Hsrc Hmvn Hk Hr.
  destruct (shifted_value_masked _ _ _ _ _ Hr) as [z Hz].
  destruct (setRegisterValue_masked type d z s) as (sa & Hsa & Hregs & _).
  exists sa. split; [|now rewrite Hz].
  unfold executeShift. unfold shift_amount in Hk. rewrite Hdest, Hsrc in *.
  unfold bind at 1. unfold get at 1. cbv beta iota zeta. rewrite Hmvn.
  replace (if is_w (Some (RObj type d)) then 32 else 64) with (width type)
    by (destruct type; reflexivity).
  replace (if width type =? 64 then 63 else 31)
    with (if is_w (Some (RObj type d)) then 31 else 63)
    by (destruct type; reflexivity).
  destruct (immediate p) as [imm|].
  - injection Hk as ->. unfold bind, ret. rewrite Hr, Hz. exact Hsa.
  - destruct (src2 p) as [r2|]; [|discriminate].
    apply (inj Some) in Hk. rewrite <- Hk in Hr. unfold bind, ret.
    rewrite Hr, Hz. exact Hsa.
Qed.

Lemma executeShift_mvn type d n s :
  exists s',
    executeShift (mvn_reg type d n) "mvn" s = (Ok tt, s')
    /\ registers s'
       = <[xname d := Z.land (Z.lnot (getRegisterValue s (Some (RObj type n))))
                             (Z.ones (width type))]> (registers s).
Proof.
  destruct (setRegisterValue_masked type d
              (Z.lnot (getRegisterValue s (Some (RObj type n)))) s)
    as (sa & Hsa & Hregs & _).
  exists sa. split; [|exact Hregs].
  unfold executeShift, mvn_reg. cbn [dest src1].
  unfold bind, get, ret. cbn [String.eqb Ascii.eqb Bool.eqb andb].
  rewrite <- Hsa. destruct type; reflexivity.
Qed.

Lemma stored_insert s s' d v :
  registers s' = <[xname d := v]> (registers s) -> stored d s' = v.
Proof. intros H. unfold stored. now apply (reg_lookup_insert_eq s). Qed.

(** X11.  On an x register holding a 64-bit value, a rotation by [k]
    followed by a rotation by [64 - k] gives the value back, and so
    does [mvn] applied twice. *)
Theorem rotation_and_complement_round_trips :
  forall (s s1 s2 : Simulator) (d n : nat) (v k : Z),
    stored n s = v -> 0 <= v < 2 ^ 64 -> 0 < k < 64 ->
    (executeShift (shift_imm "ror" x_type d n k) "ror" s = (Ok tt, s1) ->
     executeShift (shift_imm "ror" x_type d d (64 - k)) "ror" s1 = (Ok tt, s2) ->
     stored d s1 = rotated v k /\ stored d s2 = v)
    /\ (executeShift (mvn_reg x_type d n) "mvn" s = (Ok tt, s1) ->
        executeShift (mvn_reg x_type d d) "mvn" s1 = (Ok tt, s2) ->
        stored d s1 = 2 ^ 64 - 1 - v /\ stored d s2 = v).
Proof.
  intros s s1 s2 d n v k Hv Hrange Hk. split.
  - intros H1 H2.
    destruct (executeShift_inv (shift_imm "ror" x_type d n k) "ror" s s1 x_type d
                eq_refl eq_refl H1)
      as (k1 & r1 & Hk1 & Hr1 & Hregs1 & _).
    destruct (executeShift_inv (shift_imm "ror" x_type d d (64 - k)) "ror" s1 s2
                x_type d eq_refl eq_refl H2)
      as (k2 & r2 & Hk2 & Hr2 & Hregs2 & _).
    cbn in Hk1, Hk2. injection Hk1 as <-. injection Hk2 as <-.
    cbn [shift_imm src1 getRegisterValue width] in Hr1, Hr2.
    fold (stored n s) in Hr1. fold (stored d s1) in Hr2.
    rewrite Hv, ror_value in Hr1 by lia. injection Hr1 as <-.
    pose proof (stored_insert _ _ _ _ Hregs1) as Hs1.
    destruct (rotated_back v k Hrange Hk) as [Hrr Hback].
    rewrite Hs1, ror_value in Hr2 by lia. injection Hr2 as <-.
    rewrite Hback in Hregs2. split; [exact Hs1|].
    exact (stored_insert _ _ _ _ Hregs2).
  - intros H1 H2.
    destruct (executeShift_mvn x_type d n s) as (s1' & E1 & Hregs1).
    rewrite E1 in H1. injection H1 as ->.
    destruct (executeShift_mvn x_type d d s1) as (s2' & E2 & Hregs2).
    rewrite E2 in H2. injection H2 as ->.
    cbn [getRegisterValue width] in Hregs1, Hregs2.
    fold (stored n s) in Hregs1. fold (stored d s1) in Hregs2.
    assert (Hv' : 0 <= v <= Z.ones 64) by (rewrite Z.ones_equiv; lia).
    rewrite Hv, land_lnot_ones in Hregs1 by lia.
    pose proof (stored_insert _ _ _ _ Hregs1) as Hs1.
    rewrite Hs1, land_lnot_ones in Hregs2 by (rewrite ?Z.ones_equiv in *; lia).
    pose proof (stored_insert _ _ _ _ Hregs2) as Hs2.
    rewrite Hs1, Hs2. rewrite Z.ones_equiv. lia.
Qed.

(** [ror x0, x1, #4] and [ror x0, x0, #60] with x1 = 0xF0. *)
Lemma rotation_and_complement_round_trips_witness :
  stored 0 (snd (executeShift (shift_imm "ror" x_type 0 0 (64 - 4)) "ror"
              (snd (executeShift (shift_imm "ror" x_type 0 1 4) "ror" sim_x1_F0))))
  = 0xF0.
Proof.
  refine (proj2 (proj1 (rotation_and_complement_round_trips sim_x1_F0 _ _ 0 1 0xF0 4
                          _ _ _) _ _)).
  - reflexivity.
  - lia.
  - lia.
  - apply ok_run. vm_compute. reflexivity.
  - apply ok_run. vm_compute. reflexivity.
Defined.

(** The value [lsr] and [asr] both compute from the 64-bit pattern a w
    view reads. *)
Lemma w_shift_right_value l k (negative : bool) :
  0 <= l < 2 ^ 32 -> 0 < k <= 32 ->
  negative = (2 ^ 31 <=? l) ->
  ((l + (if negative then 2 ^ 64 - 2 ^ 32 else 0)) / 2 ^ k) mod 2 ^ 32
  = ((if negative then l - 2 ^ 32 else l) / 2 ^ k) mod 2 ^ 32.
Proof.
  intros Hl Hk ->. destruct (2 ^ 31 <=? l); [|now rewrite Z.add_0_r].
  assert (H2k : 0 < 2 ^ k) by (apply Z.pow_pos_nonneg; lia).
  assert (E64 : 2 ^ 64 = 2 ^ (32 - k) * 2 ^ 32 * 2 ^ k).
  { rewrite <- !Z.pow_add_r by lia. f_equal. lia. }
  replace (l + (2 ^ 64 - 2 ^ 32)) with (l - 2 ^ 32 + 2 ^ (32 - k) * 2 ^ 32 * 2 ^ k) by lia.
  rewrite Z.div_add by lia. rewrite Z.mod_add by lia. reflexivity.
Qed.

(** X12.  On w registers [lsr] does what [asr] does: with a w source, a
    w destination and an amount from 1 to 32, the bits shifted in are
    copies of bit 31, because the shift is applied to the sign-extended
    64-bit pattern that a w view reads.  Both write the floor of the
    two's-complement reading divided by [2^k], as a 32-bit pattern. *)
Theorem lsr_of_w_registers_shifts_in_the_sign :
  forall (s s' : Simulator) (p : Parsed) (d n : nat) (k : Z),
    dest p = Some (RObj w_type d) ->
    src1 p = Some (RObj w_type n) ->
    shift_amount s p = Some k -> 0 < k <= 32 ->
    executeShift p "lsr" s = (Ok tt, s') ->
    registers s' !! xname d
    = Some ((toSigned (stored n s mod 2 ^ 32) 32 / 2 ^ k) mod 2 ^ 32)
    /\ exists s'', executeShift p "asr" s = (Ok tt, s'')
                   /\ registers s'' = registers s'.
Proof.
  intros s s' p d n k Hdest Hsrc Hk Hkr Hrun.
  assert (H32 : 32 = 32 \/ 32 = 64) by now left.
  destruct (executeShift_inv p "lsr" s s' w_type d Hdest eq_refl Hrun)
    as (k' & r & Hk' & Hr & Hregs & _).
  rewrite Hk in Hk'. injection Hk' as <-.
  assert (Hl : 0 <= stored n s mod 2 ^ 32 < 2 ^ 32) by (apply Z.mod_pos_bound; lia).
  assert (Hasr : shifted_value "asr" (width w_type) (getRegisterValue s (src1 p)) k
                 = Some r).
  { cbn [width] in *. rewrite (asr_value 32 H32) by lia.
    unfold shifted_value in Hr. cbv zeta in Hr.
    destruct (Z.eqb_spec k 0); [lia|].
    cbn [String.eqb Ascii.eqb Bool.eqb andb] in Hr.
    rewrite (shiftr_value 32 H32) in Hr by lia. rewrite <- Hr. f_equal.
    rewrite Hsrc, w_read_value.
    rewrite (toSigned_spec 32 H32) by (apply Z.mod_pos_bound; lia).
    assert (Em : (stored n s mod 2 ^ 32
                  + (if Z.testbit (stored n s) 31 then 2 ^ 64 - 2 ^ 32 else 0))
                 mod 2 ^ 32 = stored n s mod 2 ^ 32).
    { destruct (Z.testbit (stored n s) 31).
      - symmetry. apply Z.mod_unique with (2 ^ 32 - 1); lia.
      - rewrite Z.add_0_r. apply Z.mod_mod. lia. }
    rewrite Em.
    assert (Eb : Z.testbit (stored n s) 31 = (2 ^ 31 <=? stored n s mod 2 ^ 32)).
    { rewrite <- (testbit_mod_pow2_low (stored n s) 32 31) by lia.
      apply (sign_bit_ge 32 H32 _ Hl). }
    change (2 ^ (32 - 1)) with (2 ^ 31). rewrite <- Eb.
    symmetry. apply w_shift_right_value; auto. }
  split.
  - rewrite Hregs, lookup_insert_eq. f_equal.
    cbn [width] in Hasr. rewrite (asr_value 32 H32) in Hasr by lia.
    destruct (Z.eqb_spec k 0); [lia|]. injection Hasr as <-.
    rewrite Hsrc, w_read_value.
    assert (Em : (stored n s mod 2 ^ 32
                  + (if Z.testbit (stored n s) 31 then 2 ^ 64 - 2 ^ 32 else 0))
                 mod 2 ^ 32 = stored n s mod 2 ^ 32).
    { destruct (Z.testbit (stored n s) 31).
      - symmetry. apply Z.mod_unique with (2 ^ 32 - 1); lia.
      - rewrite Z.add_0_r. apply Z.mod_mod. lia. }
    now rewrite Em.
  - destruct (executeShift_run p "asr" s w_type d _ k r Hdest Hsrc eq_refl Hk Hasr)
      as (s'' & Hrun' & Hregs').
    exists s''. split; [exact Hrun'|]. congruence.
Qed.

(** [lsr w0, w1, #4] with w1 = 0x80000000 writes 0xF8000000. *)
Lemma lsr_of_w_registers_shifts_in_the_sign_witness :
  registers (snd (executeShift (shift_imm "lsr" w_type 0 1 4) "lsr" sim_x1_bit31))
    !! xname 0
  = Some ((toSigned (stored 1 sim_x1_bit31 mod 2 ^ 32) 32 / 2 ^ 4) mod 2 ^ 32).
Proof.
  refine (proj1 (lsr_of_w_registers_shifts_in_the_sign sim_x1_bit31 _
                   (shift_imm "lsr" w_type 0 1 4) 0 1 4 _ _ _ _ _)).
  - reflexivity.
  - reflexivity.
  - reflexivity.
  - lia.
  - apply ok_run. vm_compute. reflexivity.
Defined.

Lemma logical_value_masked opcode val1 val2 type r :
  logical_value opcode val1 val2 (size_mask (width type)) = Some r ->
  exists z, r = Z.land z (Z.ones (width type)).
Proof.
  unfold logical_value.
  replace (size_mask (width type)) with (Z.ones (width type))
    by (destruct type; reflexivity).
  repeat match goal with
         | |- context [if ?b then _ else _] => destruct b
         end; intros [= <-]; eauto.
Qed.

(** X13.  The shifts, [mvn] and the logical operations always leave a
    value of the destination's width in a general register: after a
    successful run the register holds a value from 0 to [2^64 - 1], or
    to [2^32 - 1] for a w destination.  After [ands], N is the top bit
    of that value at the destination's width, Z says that it is zero,
    and C and V are as before. *)
Theorem shift_and_logical_results_fit_the_destination :
  forall (s s' : Simulator) (p : Parsed) (lp : ShiftedParsed) (opcode : string)
         (type : RegType) (d : nat),
    (dest p = Some (RObj type d) ->
     executeShift p opcode s = (Ok tt, s') ->
     exists r, registers s' !! xname d = Some r /\ 0 <= r < 2 ^ width type)
    /\ (dest lp = Some (RObj type d) ->
        executeLogical lp opcode s = (Ok tt, s') ->
        exists r,
          registers s' !! xname d = Some r /\ 0 <= r < 2 ^ width type
          /\ (opcode = "ands"%string ->
              flags s' = mkFlags (Z.testbit r (width type - 1)) (r =? 0)
                                 (flag_C (flags s)) (flag_V (flags s)))).
Proof.
  intros s s' p lp opcode type d. split.
  - intros Hdest Hrun.
    destruct (String.eqb opcode "mvn") eqn:Hmvn.
    + unfold executeShift in Hrun. rewrite Hdest in Hrun.
      destruct (src1 p) as [r1|]; [|discriminate].
      unfold bind at 1 in Hrun. unfold get at 1 in Hrun. cbv beta iota zeta in Hrun.
      rewrite Hmvn in Hrun. unfold bind, ret in Hrun.
      replace (if is_w (Some (RObj type d)) then 32 else 64) with (width type) in Hrun
        by (destruct type; reflexivity).
      rewrite size_mask_width in Hrun.
      destruct (setRegisterValue_masked type d (Z.lnot (getRegisterValue s (Some r1))) s)
        as (sa & Hsa & Hregs & _).
      rewrite Hsa in Hrun. injection Hrun as <-.
      eexists. rewrite Hregs, lookup_insert_eq. split; [reflexivity|].
      apply land_mask_range.
    + destruct (executeShift_inv _ _ _ _ _ _ Hdest Hmvn Hrun)
        as (k & r & _ & Hr & Hregs & _).
      destruct (shifted_value_masked _ _ _ _ _ Hr) as [z ->].
      eexists. rewrite Hregs, lookup_insert_eq. split; [reflexivity|].
      apply land_mask_range.
  - intros Hdest Hrun. unfold executeLogical in Hrun. rewrite Hdest in Hrun.
    destruct (src1 lp) as [r1|]; [|discriminate].
    unfold bind at 1 in Hrun. unfold get at 1 in Hrun. cbv beta iota zeta in Hrun.
    unfold bind at 1 in Hrun.
    set (val1 := getRegisterValue s (Some r1)) in *.
    replace (if is_w (Some (RObj type d)) then 32 else 64) with (width type) in Hrun
      by (destruct type; reflexivity).
    assert (Hfinish : forall val2,
      bind (match logical_value opcode val1 val2 (size_mask (width type)) with
            | Some result => ret result
            | None => throw (Unsupported opcode)
            end)
        (fun result =>
           exec setRegisterValue (Some (RObj type d)) result
           then if String.eqb opcode "ands" then
                  modify (fun s'0 =>
                    set_flags (mkFlags (negb (Z.land result (size_signMask (width type)) =? 0))
                                       (Z.land result (size_mask (width type)) =? 0)
                                       (flag_C (flags s'0)) (flag_V (flags s'0))) s'0)
                else ret tt) s = (Ok tt, s') ->
      exists r,
        registers s' !! xname d = Some r /\ 0 <= r < 2 ^ width type
        /\ (opcode = "ands"%string ->
            flags s' = mkFlags (Z.testbit r (width type - 1)) (r =? 0)
                               (flag_C (flags s)) (flag_V (flags s)))).
    { intros val2. unfold bind.
      destruct (logical_value opcode val1 val2 (size_mask (width type))) as [r|] eqn:Ev;
        [|discriminate].
      unfold ret at 1. destruct (logical_value_masked _ _ _ _ _ Ev) as [z ->].
      destruct (setRegisterValue_masked type d z s) as (sa & Hsa & Hregs & Hfl).
      rewrite Hsa.
      assert (Hw : width type = 32 \/ width type = 64) by (destruct type; auto).
      pose proof (land_mask_range z type) as Hrange.
      destruct (String.eqb_spec opcode "ands") as [->|Hne].
      - unfold modify. intros [= <-]. eexists.
        cbn [registers set_flags flags]. rewrite Hregs, lookup_insert_eq.
        split; [reflexivity|]. split; [exact Hrange|]. intros _.
        rewrite Hfl. f_equal.
        + rewrite (sign_test (width type) Hw). reflexivity.
        + rewrite (land_mask_mod (width type) Hw).
          rewrite Z.mod_small by exact Hrange. reflexivity.
      - unfold ret. intros [= <-]. eexists. rewrite Hregs, lookup_insert_eq.
        split; [reflexivity|]. split; [exact Hrange|]. contradiction. }
    destruct (immediate lp) as [imm|].
    + unfold ret at 1 in Hrun. exact (Hfinish _ Hrun).
    + destruct (src2 lp) as [r2|]; [|discriminate].
      unfold ret at 1 in Hrun. exact (Hfinish _ Hrun).
Qed.

(** [ands x0, x1, x2] at the reset state. *)
Lemma shift_and_logical_results_fit_the_destination_witness :
  exists r,
    registers (snd (executeLogical (and_x0_x1_x2 "ands") "ands" reset)) !! xname 0
    = Some r /\ 0 <= r < 2 ^ 64.
Proof.
  destruct (proj2 (shift_and_logical_results_fit_the_destination reset
                     (snd (executeLogical (and_x0_x1_x2 "ands") "ands" reset))
                     (parsed0 "ands") (and_x0_x1_x2 "ands") "ands" x_type 0)
              eq_refl) as (r & Hr & Hrange & _).
  - apply ok_run. vm_compute. reflexivity.
  - exists r. split; assumption.
Defined.

(** ** [adr], [adrp] and the heap allocator *)

Lemma truthy_nonempty (l : string) : l <> ""%string -> truthy (Some l) = Some l.
Proof. intros H. cbn [truthy]. destruct (String.eqb_spec l ""); congruence. Qed.

Lemma page_and_offset a :
  Z.land a (Z.lnot 0xFFF) + Z.land a 0xFFF = a
  /\ Z.land a (Z.lnot 0xFFF) = 4096 * (a / 4096).
Proof.
  rewrite land_lnot_sub. change 0xFFF with (Z.ones 12).
  rewrite Z.land_ones by lia. change (2 ^ 12) with 4096.
  pose proof (Z.div_mod a 4096). lia.
Qed.

(** X14.  The pair [adrp xd, l] and [add xd, xd, :lo12:l] loads the
    address of a label that lies in the data regions or above: both
    instructions run, the first leaves the address with its low twelve
    bits cleared, a multiple of 4096, and the second leaves the
    address of the label. *)
Theorem adrp_then_add_lo12_gives_the_label_address :
  forall (s : Simulator) (d : nat) (l : string) (info : Symbol) (ia : Z),
    l <> ""%string ->
    symbolTable s !! l = Some info ->
    0x00100000 <= sym_address info ->
    exists s1 s2,
      executeAdrp (adrp_label d l) ia s = (Ok tt, s1)
      /\ registers s1 !! xname d = Some (4096 * (sym_address info / 4096))
      /\ executeAdd (add_lo12 d l) s1 = (Ok tt, s2)
      /\ registers s2 !! xname d = Some (sym_address info).
Proof.
  intros s d l info ia Hl Hsym Ha.
  destruct (page_and_offset (sym_address info)) as [Hsum Hpage].
  unfold executeAdrp, adrp_label. cbn [dest label].
  rewrite (truthy_nonempty l Hl), Hsym. cbv zeta.
  destruct (Z.ltb_spec (Z.land (sym_address info) (Z.lnot 0xFFF)) 0x00100000) as [Hlt|_].
  { exfalso. rewrite Hpage in Hlt.
    assert (256 <= sym_address info / 4096) by (apply Z.div_le_lower_bound; lia). lia. }
  cbn [andb setRegisterValue]. unfold modify.
  eexists. eexists. split; [reflexivity|].
  split; [cbn [registers add_changedRegisters set_registers];
          rewrite lookup_insert_eq, Hpage; reflexivity|].
  unfold executeAdd, add_lo12. cbn [dest src1 is_sp].
  unfold bind at 1. unfold get at 1. cbv beta iota.
  unfold bind at 1. unfold add_second_operand at 1.
  cbn [immediate labelOp label symbolTable add_changedRegisters set_registers].
  rewrite (truthy_nonempty l Hl), Hsym. unfold ret at 1.
  cbn [setRegisterValue getRegisterValue]. unfold modify. split; [reflexivity|].
  cbn [registers add_changedRegisters set_registers].
  rewrite lookup_insert_eq. f_equal.
  unfold reg_lookup. cbn [registers add_changedRegisters set_registers].
  rewrite lookup_insert_eq.
  cbn [JS.or_default].
  destruct (Z.eqb_spec (Z.land (sym_address info) (Z.lnot 0xFFF)) 0); lia.
Qed.

(** The pair for the label [msg] at 0x00200ABC. *)
Lemma adrp_then_add_lo12_gives_the_label_address_witness :
  exists s1 s2,
    executeAdrp (adrp_label 0 "msg") 0 sim_with_msg = (Ok tt, s1)
    /\ registers s1 !! xname 0 = Some (4096 * (0x00200ABC / 4096))
    /\ executeAdd (add_lo12 0 "msg") s1 = (Ok tt, s2)
    /\ registers s2 !! xname 0 = Some 0x00200ABC.
Proof.
  refine (adrp_then_add_lo12_gives_the_label_address sim_with_msg 0 "msg"
            (mkSymbol 0x00200ABC "data" "data" false) 0 _ _ _).
  - discriminate.
  - vm_compute. reflexivity.
  - cbn. lia.
Defined.

(** X15.  [adr] with an x destination writes the exact address of its
    label and changes no other register, except that it throws, and
    leaves the simulator as it was, when that address is above 0 and
    below 0x00100000: [adr] of a label in the text section, at an
    address from 4 to 0xFFFFC, fails. *)
Theorem adr_gives_the_address_or_refuses_the_zero_page :
  forall (s : Simulator) (p : Parsed) (d : nat) (l : string) (info : Symbol)
         (ia : Z),
    dest p = Some (RObj x_type d) ->
    label p = Some l -> l <> ""%string ->
    symbolTable s !! l = Some info ->
    (0 < sym_address info < 0x00100000 ->
       executeAdr p ia s = (Throw (ZeroPageAccess (sym_address info)), s))
    /\ (~ 0 < sym_address info < 0x00100000 ->
        exists s',
          executeAdr p ia s = (Ok tt, s')
          /\ registers s' = <[xname d := sym_address info]> (registers s)
          /\ memory s' = memory s /\ flags s' = flags s).
Proof.
  intros s p d l info ia Hdest Hlabel Hl Hsym.
  unfold executeAdr. rewrite Hdest, Hlabel, (truthy_nonempty l Hl), Hsym.
  cbv zeta.
  destruct (Z.ltb_spec (sym_address info) 0x00100000),
           (Z.ltb_spec 0 (sym_address info)); cbn [andb]; split;
    intros; try reflexivity; try lia;
    cbn [setRegisterValue]; unfold modify; eexists; repeat split.
Qed.

(** [adr x0, loop] with [loop] at address 8. *)
Lemma adr_gives_the_address_or_refuses_the_zero_page_witness :
  executeAdr adr_x0_loop 0 sim_with_loop_at_8
  = (Throw (ZeroPageAccess 8), sim_with_loop_at_8).
Proof.
  refine (proj1 (adr_gives_the_address_or_refuses_the_zero_page sim_with_loop_at_8
                   adr_x0_loop 0 "loop"
                   (mkSymbol 8 "text" "code" false) 0 _ _ _ _) _).
  - reflexivity.
  - reflexivity.
  - discriminate.
  - vm_compute. reflexivity.
  - cbn. lia.
Defined.

(** X16.  [allocateHeap] is a bump allocator whose collision test never
    fires: a request fails exactly when the heap pointer would pass the
    end of the heap region, and it never reports a heap/stack
    collision.  Two successive allocations of non-negative sizes return
    adjacent blocks, the first at the old heap pointer, and with a heap
    pointer that started in the heap region every allocated byte lies
    in that region, below its last address. *)
Theorem heap_allocations_are_adjacent_and_bounded :
  forall (s : Simulator) (size1 size2 : Z),
    (allocateHeap size1 s
     = if r_end heap <? heapPtr s + size1 then (HeapOverflow size1, s)
       else (Allocated (heapPtr s), set_heapPtr (heapPtr s + size1) s))
    /\ (forall p1 p2 s1 s2,
          0 <= size1 -> 0 <= size2 -> r_start heap <= heapPtr s ->
          allocateHeap size1 s = (Allocated p1, s1) ->
          allocateHeap size2 s1 = (Allocated p2, s2) ->
          p1 = heapPtr s /\ p2 = p1 + size1 /\ heapPtr s2 = p2 + size2
          /\ r_start heap <= p1 /\ p2 + size2 <= r_end heap).
Proof.
  intros s size1 size2.
  assert (Hrun : forall size st,
            allocateHeap size st
            = if r_end heap <? heapPtr st + size then (HeapOverflow size, st)
              else (Allocated (heapPtr st), set_heapPtr (heapPtr st + size) st)).
  { intros size st. unfold allocateHeap. cbv zeta.
    destruct (Z.ltb_spec (r_end heap) (heapPtr st + size)); [reflexivity|].
    destruct (registers st !! "sp"%string) as [sp|]; [|reflexivity].
    cbn [r_start r_end heap stack] in *.
    destruct (Z.ltb_spec sp 134217727), (Z.leb_spec 134152192 sp),
             (Z.leb_spec sp (heapPtr st + size)); cbn [andb]; try reflexivity; lia. }
  split; [apply Hrun|].
  intros p1 p2 s1 s2 H1 H2 Hstart Ha Hb.
  rewrite Hrun in Ha.
  destruct (Z.ltb_spec (r_end heap) (heapPtr s + size1)); [discriminate|].
  injection Ha as <- <-.
  rewrite Hrun in Hb. cbn [heapPtr set_heapPtr] in Hb.
  destruct (Z.ltb_spec (r_end heap) (heapPtr s + size1 + size2)); [discriminate|].
  injection Hb as <- <-. cbn [heapPtr set_heapPtr]. lia.
Qed.

(** Sixteen bytes, then eight, from the reset state. *)
Lemma heap_allocations_are_adjacent_and_bounded_witness :
  0x00400000 = heapPtr reset /\ 0x00400010 = 0x00400000 + 16.
Proof.
  destruct (proj2 (heap_allocations_are_adjacent_and_bounded reset 16 8)
              0x00400000 0x00400010
              (set_heapPtr 0x00400010 reset) (set_heapPtr 0x00400018 reset))
    as (H1 & H2 & _).
  - lia.
  - lia.
  - cbn. lia.
  - vm_compute. reflexivity.
  - vm_compute. reflexivity.
  - split; assumption.
Defined.

(** ** The instruction cursor *)

Lemma find_index_from_exact instrs addr :
  forall k i ins,
    instrs !! i = Some ins -> address ins = addr ->
    addresses_below_before instrs i addr ->
    find_index_from instrs addr k = k + Z.of_nat i.
Proof.
  induction instrs as [|x rest IH]; intros k i ins Hi Ha Hbelow; [discriminate|].
  cbn [find_index_from]. destruct i as [|i].
  - injection Hi as ->. rewrite Ha, Z.eqb_refl. lia.
  - pose proof (Hbelow 0%nat x ltac:(lia) eq_refl) as Hx.
    destruct (Z.eqb_spec (address x) addr); [lia|].
    destruct (Z.ltb_spec addr (address x)); [lia|].
    rewrite (IH (k + 1) i ins Hi Ha); [lia|].
    intros j insj Hj Hl. apply (Hbelow (S j) insj); [lia|exact Hl].
Qed.

Lemma find_index_from_above instrs addr :
  forall k, (forall ins, In ins instrs -> address ins < addr) ->
            find_index_from instrs addr k = 0.
Proof.
  induction instrs as [|x rest IH]; intros k Hall; [reflexivity|].
  cbn [find_index_from].
  pose proof (Hall x (or_introl eq_refl)) as Hx.
  destruct (Z.eqb_spec (address x) addr); [lia|].
  destruct (Z.ltb_spec addr (address x)); [lia|].
  apply IH. intros ins Hin. apply Hall. now right.
Qed.

(** X17.  [findInstructionIndexByAddress] returns the index of the
    instruction at the address it is given whenever every earlier
    instruction has a lower address; for an address above those of all
    instructions it returns 0, the index of the first instruction; and
    in a non-empty program its result is always the index of an
    instruction. *)
Theorem instruction_lookup_by_address :
  forall (s : Simulator) (addr : Z),
    (forall i ins,
        instructions s !! i = Some ins -> address ins = addr ->
        addresses_below_before (instructions s) i addr ->
        findInstructionIndexByAddress s addr = Z.of_nat i)
    /\ ((forall ins, In ins (instructions s) -> address ins < addr) ->
        findInstructionIndexByAddress s addr = 0)
    /\ (instructions s <> [] ->
        0 <= findInstructionIndexByAddress s addr < Z.of_nat (length (instructions s))).
Proof.
  intros s addr. unfold findInstructionIndexByAddress. split; [|split].
  - intros i ins Hi Ha Hbelow.
    now rewrite (find_index_from_exact _ _ 0 i ins Hi Ha Hbelow).
  - apply find_index_from_above.
  - apply findInstructionIndexByAddress_in_range.
Qed.

(** The second instruction of [helper_program], at address 4. *)
Lemma instruction_lookup_by_address_witness :
  findInstructionIndexByAddress helper_loaded 4 = Z.of_nat 1.
Proof.
  refine (proj1 (instruction_lookup_by_address helper_loaded 4) 1%nat
            (mkInstruction "ret" 4 (Some ret_parsed)) _ _ _).
  - reflexivity.
  - reflexivity.
  - intros j ins Hj Hl. destruct j as [|j]; [|lia].
    injection Hl as <-. cbn. lia.
Defined.

Section Stepping.

(** The handlers [step] is run with; the properties hold for all. *)
Variable builtin : string -> M unit.
Variables logical shifts : Parsed -> string -> M unit.
Variables adr adrp : Parsed -> Z -> M unit.

Local Abbreviation run_dispatch := (dispatch builtin logical shifts adr adrp).
Local Abbreviation run_step := (step builtin logical shifts adr adrp).

Variable s : Simulator.
Variable i : nat.
Variable ins : Instruction.
Variable p : Parsed.
Hypothesis Hcursor : currentInstructionIndex s = Z.of_nat i.
Hypothesis Hins : instructions s !! i = Some ins.
Hypothesis Hparsed : parsed ins = Some p.
Hypothesis Haddr : address ins <> 0.


End Stepping.





(** X20.  [bl] to a label that is not a built-in function leaves the
    address of the next instruction in x30, sets the PC to the address
    of the label and the cursor to the instruction found for it; and a
    [ret] outside the entry function, in any later state of a
    non-empty program that still has that value in x30, sets the PC
    back to the address after the [bl], when it is positive. *)
Theorem call_then_return_resumes_after_the_call :
  forall (builtin : string -> M unit) (s : Simulator) (p : Parsed)
         (l : string) (info : Symbol) (pcv : Z),
    label p = Some l -> l <> ""%string ->
    existsb (String.eqb l) builtInFunctions = false ->
    symbolTable s !! l = Some info ->
    registers s !! "pc" = Some pcv ->
    exists s1,
      executeBl builtin p s = (Ok true, s1)
      /\ registers s1 !! "x30" = Some (pcv + 4)
      /\ registers s1 !! "pc" = Some (sym_address info)
      /\ currentInstructionIndex s1 = findInstructionIndexByAddress s (sym_address info)
      /\ forall s2 a,
           registers s2 !! "x30" = Some (pcv + 4) ->
           registers s2 !! "pc" = Some a ->
           instructions s2 <> [] ->
           in_entry_function s2 a = false ->
           0 < pcv + 4 ->
           exists s3,
             executeRet ret_parsed s2 = (Ok true, s3)
             /\ registers s3 !! "pc" = Some (pcv + 4)
             /\ currentInstructionIndex s3
                = findInstructionIndexByAddress s2 (pcv + 4).
Proof.
  intros builtin s p l info pcv Hl Hne Hnb Hsym Hpc.
  unfold executeBl. rewrite Hl, (truthy_nonempty l Hne), Hpc, Hnb, Hsym.
  unfold bind. cbn [setRegisterValue]. unfold modify.
  eexists. split; [reflexivity|].
  split; [unfold jump_to, set_pc;
          cbn [registers set_currentInstructionIndex set_registers add_changedRegisters];
          rewrite lookup_insert_ne by discriminate; apply lookup_insert_eq|].
  split; [apply lookup_insert_eq|]. split; [reflexivity|].
  intros s2 a Hx30 Hpc2 Hne2 Hentry Hpos.
  assert (Hra : return_address s2 ret_parsed = pcv + 4).
  { unfold return_address, ret_parsed. cbn [src parsed0 getRegisterValue].
    unfold reg_lookup. change (xname 30) with "x30"%string. rewrite Hx30.
    cbn [JS.or_default]. destruct (Z.eqb_spec (pcv + 4) 0); [lia|reflexivity]. }
  eexists. split.
  - rewrite (executeRet_positive s2 ret_parsed a Hpc2 Hentry Hne2) by lia.
    rewrite Hra. reflexivity.
  - split; [apply lookup_insert_eq|reflexivity].
Qed.

(** [bl helper] at the start of [helper_loaded]. *)
Lemma call_then_return_resumes_after_the_call_witness :
  exists s1,
    executeBl no_builtins
      (mkParsed "bl" None None None None None (Some "helper"%string)
                None None None None None None) helper_loaded = (Ok true, s1)
    /\ registers s1 !! "x30" = Some (0 + 4).
Proof.
  destruct (call_then_return_resumes_after_the_call no_builtins helper_loaded
              (mkParsed "bl" None None None None None (Some "helper"%string)
                        None None None None None None)
              "helper" (mkSymbol 8 "text" "code" false) 0)
    as (s1 & H1 & H2 & _).
  - reflexivity.
  - discriminate.
  - reflexivity.
  - vm_compute. reflexivity.
  - vm_compute. reflexivity.
  - exists s1. split; assumption.
Defined.

(** ** Pass 1 of the assembler *)

Section Pass1Facts.

Import Parser.

Lemma run_lines_app {S : Type} (step : S -> string -> Res S) (a b : list string) :
  forall st,
    run_lines step st (a ++ b)
    = match run_lines step st a with
      | Ok st' => run_lines step st' b
      | Throw e => Throw e
      end.
Proof.
  induction a as [|x a IH]; intros st; cbn [run_lines app]; [reflexivity|].
  destruct (step st x); [apply IH|reflexivity].
Qed.

(** A line that starts with a label is neither empty nor a section or
    [.global] directive. *)
Lemma labelMatch_not_directive t name rest :
  labelMatch t = Some (name, rest) ->
  t <> [] /\ sectionMatch t = None /\ globalMatch t = None.
Proof.
  unfold labelMatch. destruct t as [|c l]; [discriminate|].
  destruct (is_ident_start c) eqn:Hc; [|discriminate]. intros _.
  split; [discriminate|].
  assert (Hdot : Nat.eqb (code c) 46 = false /\ Ascii.eqb "." (lower c) = false).
  { clear -Hc. destruct c as [[] [] [] [] [] [] [] []]; try discriminate Hc;
      split; reflexivity. }
  destruct Hdot as [H1 H2]. split.
  - unfold sectionMatch. now rewrite H1.
  - unfold globalMatch. cbn [of_string String.list_ascii_of_string strip_prefix_ci].
    now rewrite H2.
Qed.

(** What Pass 1 does with a line that starts with a label. *)
Lemma pass1_line_label st line name :
  label_of line = Some name ->
  (is_Some (p1_symbolTable st !! name) ->
   pass1_line st line = Throw (DuplicateLabel name))
  /\ forall st', pass1_line st line = Ok st' ->
       p1_symbolTable st'
       = <[name := mkSymbol (counter (p1_sectionCounters st) (p1_currentSection st))
                            (sect_name (p1_currentSection st))
                            (match p1_currentSection st with
                             | SText => "code" | _ => "data"
                             end)
                            (bool_decide (name ∈ p1_globalSymbols st))]>
           (p1_symbolTable st).
Proof.
  unfold label_of, pass1_line.
  set (t := trim (removeComments (of_string line))).
  destruct (labelMatch t) as [[nm rest]|] eqn:Hm; [|discriminate].
  intros [= <-].
  destruct (labelMatch_not_directive _ _ _ Hm) as (Hne & Hs & Hg).
  destruct t as [|c l]; [congruence|]. rewrite Hs, Hg.
  destruct (p1_symbolTable st !! to_string nm) eqn:Hl.
  - split; [reflexivity|discriminate].
  - split; [now intros [x Hx]|].
    intros st'. destruct (trim rest); intros [= <-]; reflexivity.
Qed.

Lemma pass1_line_throws st line e :
  pass1_line st line = Throw e -> exists name, e = DuplicateLabel name.
Proof.
  unfold pass1_line.
  repeat match goal with
         | |- context [match ?x with _ => _ end] => destruct x
         end; try discriminate; intros [= <-]; eauto.
Qed.

Lemma pass1_from_throws lines :
  forall st e, pass1_from st lines = Throw e -> exists name, e = DuplicateLabel name.
Proof.
  unfold pass1_from.
  induction lines as [|x lines IH]; intros st e; cbn [run_lines]; [discriminate|].
  destruct (pass1_line st x) as [st1|e1] eqn:E.
  - apply IH.
  - intros [= <-]. eapply pass1_line_throws; eauto.
Qed.

(** Pass 1 only adds to the symbol table. *)
Lemma pass1_line_keeps st line st' name info :
  pass1_line st line = Ok st' ->
  p1_symbolTable st !! name = Some info ->
  p1_symbolTable st' !! name = Some info.
Proof.
  unfold pass1_line.
  destruct (trim (removeComments (of_string line))) as [|c l] eqn:Et;
    [now intros [= <-]|].
  destruct (sectionMatch (c :: l)); [now intros [= <-]|].
  destruct (globalMatch (c :: l)); [now intros [= <-]|].
  destruct (labelMatch (c :: l)) as [[nm rest]|]; [|now intros [= <-]].
  destruct (p1_symbolTable st !! to_string nm) eqn:Hl; [discriminate|].
  intros Hst' Hname.
  assert (Hne : to_string nm <> name) by congruence.
  destruct (trim rest); injection Hst' as <-; cbn [p1_symbolTable pass1_advance];
    now rewrite lookup_insert_ne.
Qed.

Lemma pass1_from_keeps lines :
  forall st st' name info,
    pass1_from st lines = Ok st' ->
    p1_symbolTable st !! name = Some info ->
    p1_symbolTable st' !! name = Some info.
Proof.
  unfold pass1_from.
  induction lines as [|x lines IH]; intros st st' name info; cbn [run_lines].
  - now intros [= <-].
  - destruct (pass1_line st x) as [st1|e] eqn:E; [|discriminate].
    intros Hrun Hname. eapply IH; [exact Hrun|].
    eapply pass1_line_keeps; eauto.
Qed.

End Pass1Facts.

(** X21.  A program in which two lines define the same label is
    rejected by Pass 1: [buildSymbolTable] throws the duplicate-label
    error, whatever else the program contains. *)
Theorem duplicate_label_is_rejected :
  forall (lines : list string) (i j : nat) (l1 l2 name : string),
    (i < j)%nat ->
    lines !! i = Some l1 -> lines !! j = Some l2 ->
    label_of l1 = Some name -> label_of l2 = Some name ->
    exists n, Parser.buildSymbolTable lines = Throw (DuplicateLabel n).
Proof.
  intros lines i j l1 l2 name Hij H1 H2 Hl1 Hl2.
  assert (Hthrow : forall e, Parser.buildSymbolTable lines = Throw e ->
                             exists n, Parser.buildSymbolTable lines = Throw (DuplicateLabel n)).
  { intros e He. destruct (pass1_from_throws _ _ _ He) as [n ->]. eauto. }
  destruct (Parser.buildSymbolTable lines) as [st|e] eqn:Hrun; [exfalso|eauto].
  clear Hthrow. unfold Parser.buildSymbolTable in Hrun.
  rewrite <- (take_drop_middle lines i l1 H1) in Hrun.
  rewrite run_lines_app in Hrun.
  destruct (Parser.run_lines Parser.pass1_line Parser.pass1_init (take i lines))
    as [st0|] eqn:E0; [|discriminate].
  cbn [Parser.run_lines] in Hrun.
  destruct (Parser.pass1_line st0 l1) as [st1|] eqn:E1; [|discriminate].
  assert (Hin1 : is_Some (Parser.p1_symbolTable st1 !! name)).
  { rewrite (proj2 (pass1_line_label st0 l1 name Hl1) st1 E1), lookup_insert_eq. eauto. }
  assert (H2' : drop (S i) lines !! (j - S i)%nat = Some l2).
  { rewrite lookup_drop. rewrite <- H2. f_equal. lia. }
  rewrite <- (take_drop_middle _ _ _ H2') in Hrun.
  rewrite run_lines_app in Hrun.
  destruct (Parser.run_lines Parser.pass1_line st1 (take (j - S i) (drop (S i) lines)))
    as [st2|] eqn:E2; [|discriminate].
  cbn [Parser.run_lines] in Hrun.
  destruct Hin1 as [info Hinfo].
  pose proof (pass1_from_keeps _ _ _ _ _ E2 Hinfo) as Hin2.
  rewrite (proj1 (pass1_line_label st2 l2 name Hl2) (ex_intro _ info Hin2)) in Hrun.
  discriminate.
Qed.

(** The label [msg] on the second and the fourth line. *)
Lemma duplicate_label_is_rejected_witness :
  exists n, Parser.buildSymbolTable twice_msg = Throw (DuplicateLabel n).
Proof.
  refine (duplicate_label_is_rejected twice_msg 1 3 "msg: .quad 1" "msg: .quad 3"
            "msg" _ _ _ _ _).
  - lia.
  - reflexivity.
  - reflexivity.
  - vm_compute. reflexivity.
  - vm_compute. reflexivity.
Defined.

(** X22.  The entry Pass 1 makes for a label holds the location
    counter of the current section at the line that defines it, that
    section, and the type [code] in the text section and [data]
    elsewhere; the label is marked global exactly when a [.global]
    directive named it before that line; and no later line changes the
    entry. *)
Theorem label_records_the_counter_at_its_definition :
  forall (pre post : list string) (line name : string) (st1 st : Parser.Pass1),
    pass1_from Parser.pass1_init pre = Ok st1 ->
    label_of line = Some name ->
    Parser.buildSymbolTable (pre ++ line :: post) = Ok st ->
    Parser.p1_symbolTable st !! name
    = Some (mkSymbol
              (Parser.counter (Parser.p1_sectionCounters st1) (Parser.p1_currentSection st1))
              (Parser.sect_name (Parser.p1_currentSection st1))
              (match Parser.p1_currentSection st1 with
               | Parser.SText => "code" | _ => "data"
               end)
              (bool_decide (name ∈ Parser.p1_globalSymbols st1))).
Proof.
  intros pre post line name st1 st Hpre Hlabel Hrun.
  unfold Parser.buildSymbolTable in Hrun. rewrite run_lines_app in Hrun.
  unfold pass1_from in Hpre. rewrite Hpre in Hrun. cbn [Parser.run_lines] in Hrun.
  destruct (Parser.pass1_line st1 line) as [st2|] eqn:E; [|discriminate].
  eapply pass1_from_keeps; [exact Hrun|].
  rewrite (proj2 (pass1_line_label st1 line name Hlabel) st2 E).
  apply lookup_insert_eq.
Qed.

(** [main:] before [.global main]: the entry is not marked global. *)
Lemma label_records_the_counter_at_its_definition_witness :
  match Parser.buildSymbolTable global_after_label with
  | Ok st => Parser.p1_symbolTable st !! "main" = Some (mkSymbol 0 "text" "code" false)
  | Throw _ => False
  end.
Proof.
  destruct (Parser.buildSymbolTable global_after_label) as [st|e] eqn:Hrun.
  - exact (label_records_the_counter_at_its_definition [] [".global main"; "ret"]%string
             "main:" "main" Parser.pass1_init st eq_refl eq_refl Hrun).
  - vm_compute in Hrun. discriminate.
Defined.

(** ** The two passes *)

Section PassAgreement.

Import Parser.

Variable parseOperands : string -> list string -> Res Parsed.
Variable table : gmap string Symbol.

(** A pattern that matches fixes the first character of the text. *)
Lemma strip_prefix_ci_head p pat l rest :
  strip_prefix_ci (p :: pat) l = Some rest ->
  exists c l', l = c :: l' /\ lower c = p.
Proof.
  destruct l as [|c l']; [discriminate|]. cbn [strip_prefix_ci].
  destruct (Ascii.eqb_spec p (lower c)); [|discriminate]. eauto.
Qed.

Lemma strip_prefix_ci_other p q pat pat' l rest :
  p <> q ->
  strip_prefix_ci (p :: pat) l = Some rest ->
  strip_prefix_ci (q :: pat') l = None.
Proof.
  intros Hpq H. destruct (strip_prefix_ci_head _ _ _ _ H) as (c & l' & -> & Hc).
  cbn [strip_prefix_ci]. rewrite Hc.
  destruct (Ascii.eqb_spec q p); [congruence|reflexivity].
Qed.

(** The directives of Pass 1 are found by Pass 2 as well, and the only
    other directive Pass 2 finds is [global]. *)
Lemma pass2_finds_pass1_directives l :
  match first_prefix_ci pass1_directives l with
  | Some found => first_prefix_ci pass2_directives l = Some found
  | None =>
      match first_prefix_ci pass2_directives l with
      | Some (name, _) => name = "global"%string
      | None => True
      end
  end.
Proof.
  unfold pass1_directives, pass2_directives. cbn [first_prefix_ci].
  repeat match goal with
         | |- context [strip_prefix_ci (of_string ?n) l] =>
             let E := fresh "E" in
             destruct (strip_prefix_ci (of_string n) l) eqn:E
         end; try reflexivity; try exact I;
    exfalso;
    match goal with
    | H1 : strip_prefix_ci (of_string "global") l = Some _,
      H2 : strip_prefix_ci (of_string _) l = Some _ |- _ =>
        cbn [of_string String.list_ascii_of_string] in H1, H2;
        eapply strip_prefix_ci_other in H2;
        [rewrite H2 in H1; discriminate|discriminate]
    end.
Qed.

(** A [.global] line of Pass 1 is a [global] directive for Pass 2. *)
Lemma globalMatch_is_directive t symbols :
  globalMatch t = Some symbols ->
  startsWith_dot t = true
  /\ labelMatch t = None
  /\ exists rest, directiveMatch pass2_directives t = Some ("global"%string, rest).
Proof.
  unfold globalMatch.
  destruct (strip_prefix_ci (of_string ".global") t) as [rest|] eqn:E; [|discriminate].
  intros _.
  destruct (strip_prefix_ci_head _ _ _ _ E) as (c & l & -> & Hc).
  assert (Hcode : Nat.eqb (code c) 46 = true /\ is_ident_start c = false).
  { clear -Hc. destruct c as [[] [] [] [] [] [] [] []]; try discriminate Hc;
      split; reflexivity. }
  destruct Hcode as [Hdot Hid].
  split; [exact Hdot|]. split; [unfold labelMatch; now rewrite Hid|].
  unfold directiveMatch. rewrite Hdot.
  cbn [of_string String.list_ascii_of_string strip_prefix_ci] in E.
  rewrite Hc in E. cbn [Ascii.eqb Bool.eqb andb] in E.
  change (strip_prefix_ci (of_string "global") l = Some rest) in E.
  unfold pass2_directives. cbn [first_prefix_ci].
  repeat match goal with
         | |- context [strip_prefix_ci (of_string ?n) l] =>
             first
               [ rewrite E
               | let H := fresh in
                 assert (H : strip_prefix_ci (of_string n) l = None)
                   by (cbn [of_string String.list_ascii_of_string] in *;
                       eapply strip_prefix_ci_other; [|exact E]; discriminate);
                 rewrite H; clear H ]
         end.
  cbn [option_map]. eauto.
Qed.

Lemma set_counter_same cs sec : set_counter cs sec (counter cs sec) = cs.
Proof. destruct cs, sec; reflexivity. Qed.

Lemma value_inits_end sec size vs :
  forall addr inits addr',
    value_inits table sec size vs addr = Ok (inits, addr') ->
    addr' = addr + Z.of_nat (length vs) * size.
Proof.
  induction vs as [|v vs IH]; intros addr inits addr'; cbn [value_inits length].
  - intros [= <- <-]. lia.
  - destruct (parseValue table v); [|discriminate].
    destruct (value_inits table sec size vs (addr + size)) as [[inits0 addr0]|] eqn:E;
      [|discriminate].
    intros [= <- <-]. rewrite (IH _ _ _ E). lia.
Qed.

(** A directive moves the counter of the current section in Pass 2 as
    it does in Pass 1, when Pass 2 accepts it. *)
Lemma pass2_directive_counter st directive rest st' :
  pass2_directive table st directive rest = Ok st' ->
  p2_currentSection st' = p2_currentSection st
  /\ p2_sectionCounters st'
     = set_counter (p2_sectionCounters st) (p2_currentSection st)
         (pass1_data directive rest
            (counter (p2_sectionCounters st) (p2_currentSection st))).
Proof.
  unfold pass2_directive, pass1_data. cbv zeta.
  set (sec := p2_currentSection st). set (cs := p2_sectionCounters st).
  destruct (String.eqb_spec directive "global") as [->|];
    [intros [= <-]; cbn [String.eqb Ascii.eqb Bool.eqb andb orb];
     now rewrite set_counter_same|].
  destruct (String.eqb directive "align"); [now intros [= <-]|].
  destruct (String.eqb directive "asciz" || String.eqb directive "string").
  { destruct (stringMatch rest); [|discriminate]. intros [= <-].
    split; [reflexivity|]. cbn [p2_sectionCounters]. f_equal. lia. }
  destruct (String.eqb directive "quad") eqn:Eq.
  { cbn [orb]. destruct (value_inits table sec 8 (values_of rest) (counter cs sec))
      as [[inits c']|] eqn:E; [|discriminate].
    intros [= <-]. split; [reflexivity|]. cbn [p2_sectionCounters].
    now rewrite (value_inits_end _ _ _ _ _ _ E). }
  destruct (String.eqb directive "word") eqn:Ew.
  { cbn [orb]. destruct (value_inits table sec 4 (values_of rest) (counter cs sec))
      as [[inits c']|] eqn:E; [|discriminate].
    intros [= <-]. split; [reflexivity|]. cbn [p2_sectionCounters].
    now rewrite (value_inits_end _ _ _ _ _ _ E). }
  destruct (String.eqb directive "hword") eqn:Eh.
  { cbn [orb]. destruct (value_inits table sec 2 (values_of rest) (counter cs sec))
      as [[inits c']|] eqn:E; [|discriminate].
    intros [= <-]. split; [reflexivity|]. cbn [p2_sectionCounters].
    now rewrite (value_inits_end _ _ _ _ _ _ E). }
  destruct (String.eqb directive "byte") eqn:Eb.
  { cbn [orb]. destruct (value_inits table sec 1 (values_of rest) (counter cs sec))
      as [[inits c']|] eqn:E; [|discriminate].
    intros [= <-]. split; [reflexivity|]. cbn [p2_sectionCounters].
    rewrite (value_inits_end _ _ _ _ _ _ E). f_equal. lia. }
  cbn [orb].
  destruct (String.eqb directive "skip").
  { destruct (parseInt false rest) as [size|];
      [|intros [= <-]; now rewrite set_counter_same].
    destruct (0 <? size); intros [= <-]; [now split|now rewrite set_counter_same]. }
  intros [= <-]. now rewrite set_counter_same.
Qed.

Lemma data_counters_set_text cs v :
  data_counters (set_counter cs SText v) = data_counters cs.
Proof. reflexivity. Qed.

Lemma data_counters_set cs1 cs2 sec v :
  data_counters cs2 = data_counters cs1 ->
  data_counters (set_counter cs2 sec v) = data_counters (set_counter cs1 sec v).
Proof.
  destruct cs1, cs2, sec; unfold data_counters; cbn; intros [= -> -> ->]; reflexivity.
Qed.

Lemma data_counter_agree cs1 cs2 sec :
  data_counters cs2 = data_counters cs1 -> sec <> SText ->
  counter cs2 sec = counter cs1 sec.
Proof.
  destruct cs1, cs2, sec; unfold data_counters; cbn; intros [= -> -> ->] H;
    congruence.
Qed.

(** What the part of a line after its label does to the section and
    the data counters in Pass 1. *)
Lemma pass1_advance_effect st trimmed lineAfterLabel :
  p1_currentSection (pass1_advance st trimmed lineAfterLabel) = p1_currentSection st
  /\ data_counters (p1_sectionCounters (pass1_advance st trimmed lineAfterLabel))
     = match p1_currentSection st, directiveMatch pass1_directives lineAfterLabel with
       | SText, _ => data_counters (p1_sectionCounters st)
       | sec, Some (directive, rest) =>
           data_counters
             (set_counter (p1_sectionCounters st) sec
                (pass1_data directive rest (counter (p1_sectionCounters st) sec)))
       | _, None => data_counters (p1_sectionCounters st)
       end.
Proof.
  unfold pass1_advance. cbn [p1_currentSection p1_sectionCounters].
  split; [reflexivity|].
  destruct (p1_currentSection st); [reflexivity| | |];
    (destruct (directiveMatch pass1_directives lineAfterLabel) as [[d r]|];
     [reflexivity|destruct (negb _); reflexivity]).
Qed.

(** The same for Pass 2, when it accepts the line. *)
Lemma pass2_after_label_effect st trimmed lineAfterLabel st' :
  (if startsWith_dot lineAfterLabel then
     match directiveMatch pass2_directives lineAfterLabel with
     | Some (directive, rest) => pass2_directive table st directive rest
     | None => Ok st
     end
   else
     match p2_currentSection st with
     | SText =>
         match parseInstruction parseOperands trimmed with
         | Throw e => Throw e
         | Ok None => Ok st
         | Ok (Some p) =>
             let cs := p2_sectionCounters st in
             Ok (mkPass2
                   (p2_instructions st
                    ++ [mkInstruction (to_string trimmed) (c_text cs) (Some p)])
                   (p2_dataInitializations st) SText
                   (set_counter cs SText (c_text cs + 4)))
         end
     | _ => Ok st
     end) = Ok st' ->
  p2_currentSection st' = p2_currentSection st
  /\ data_counters (p2_sectionCounters st')
     = match p2_currentSection st, directiveMatch pass1_directives lineAfterLabel with
       | SText, _ => data_counters (p2_sectionCounters st)
       | sec, Some (directive, rest) =>
           data_counters
             (set_counter (p2_sectionCounters st) sec
                (pass1_data directive rest (counter (p2_sectionCounters st) sec)))
       | _, None => data_counters (p2_sectionCounters st)
       end.
Proof.
  destruct (startsWith_dot lineAfterLabel) eqn:Hdot.
  - pose proof (pass2_finds_pass1_directives
                  (match lineAfterLabel with _ :: l => l | [] => [] end)) as Hfind.
    unfold directiveMatch, startsWith_dot in *.
    destruct lineAfterLabel as [|c l]; [discriminate|]. rewrite Hdot.
    destruct (first_prefix_ci pass1_directives l) as [[d1 r1]|] eqn:E1.
    + rewrite Hfind. cbn [option_map]. intros H2.
      destruct (pass2_directive_counter _ _ _ _ H2) as [Hs' Hc'].
      rewrite Hs', Hc'. split; [reflexivity|].
      destruct (p2_currentSection st); reflexivity.
    + destruct (first_prefix_ci pass2_directives l) as [[d2 r2]|] eqn:E2;
        cbn [option_map].
      * subst d2. intros H2.
        destruct (pass2_directive_counter _ _ _ _ H2) as [Hs' Hc'].
        rewrite Hs', Hc'. change (pass1_data "global" (trim r2) ?c) with c.
        rewrite set_counter_same. split; [reflexivity|].
        destruct (p2_currentSection st); reflexivity.
      * intros [= <-]. split; [reflexivity|].
        destruct (p2_currentSection st); reflexivity.
  - assert (Hnone : directiveMatch pass1_directives lineAfterLabel = None).
    { unfold directiveMatch, startsWith_dot in *.
      destruct lineAfterLabel as [|c l]; [reflexivity|]. now rewrite Hdot. }
    rewrite Hnone.
    destruct (p2_currentSection st) eqn:Es; try (intros [= <-]; now rewrite Es).
    destruct (parseInstruction parseOperands trimmed) as [[p|]|]; [| |discriminate];
      intros [= <-]; cbn [p2_currentSection p2_sectionCounters];
      rewrite ?Es; split; reflexivity.
Qed.

(** One line keeps the two passes in agreement. *)
Lemma passes_agree_line st1 st2 line st1' st2' :
  passes_agree st1 st2 ->
  pass1_line st1 line = Ok st1' ->
  pass2_line parseOperands table st2 line = Ok st2' ->
  passes_agree st1' st2'.
Proof.
  intros [Hsec Hcs]. unfold pass1_line, pass2_line.
  destruct (trim (removeComments (of_string line))) as [|c l] eqn:Et.
  { intros [= <-] [= <-]. now split. }
  set (t := c :: l).
  destruct (sectionMatch t) as [sec|].
  { intros [= <-] [= <-]. now split. }
  assert (Hagree : forall (st : Pass1) lal,
            p1_currentSection st = p1_currentSection st1 ->
            p1_sectionCounters st = p1_sectionCounters st1 ->
            (if startsWith_dot lal then
               match directiveMatch pass2_directives lal with
               | Some (directive, rest) => pass2_directive table st2 directive rest
               | None => Ok st2
               end
             else
               match p2_currentSection st2 with
               | SText =>
                   match parseInstruction parseOperands t with
                   | Throw e => Throw e
                   | Ok None => Ok st2
                   | Ok (Some p) =>
                       let cs := p2_sectionCounters st2 in
                       Ok (mkPass2
                             (p2_instructions st2
                              ++ [mkInstruction (to_string t) (c_text cs) (Some p)])
                             (p2_dataInitializations st2) SText
                             (set_counter cs SText (c_text cs + 4)))
                   end
               | _ => Ok st2
               end) = Ok st2' ->
            passes_agree (pass1_advance st t lal) st2'
            /\ (lal = [] -> passes_agree st st2')).
  { intros st lal Hs Hc H2.
    destruct (pass2_after_label_effect _ _ _ _ H2) as [Hs2 Hc2].
    destruct (pass1_advance_effect st t lal) as [Hs1 Hc1].
    unfold passes_agree. rewrite Hs1, Hc1, Hs2, Hc2, Hs, Hc, Hsec. split.
    - split; [reflexivity|].
      destruct (p1_currentSection st1) eqn:Es; [exact Hcs| | |];
        (destruct (directiveMatch pass1_directives lal) as [[d r]|]; [|exact Hcs]; cbv zeta;
         rewrite (data_counter_agree _ _ _ Hcs) by discriminate;
         now apply data_counters_set).
    - intros ->. cbn [directiveMatch]. split; [reflexivity|].
      destruct (p1_currentSection st1); exact Hcs. }
  destruct (globalMatch t) as [symbols|] eqn:Eg.
  { destruct (globalMatch_is_directive t symbols Eg) as (Hdot & Hlm & rest & Hd).
    rewrite Hlm, Hdot, Hd. cbn [pass2_directive String.eqb Ascii.eqb Bool.eqb andb].
    intros [= <-] [= <-]. now split. }
  destruct (labelMatch t) as [[name rest]|].
  - destruct (p1_symbolTable st1 !! to_string name); [discriminate|].
    intros H1 H2.
    set (st := mkPass1 _ _ _ _) in H1.
    destruct (Hagree st (trim rest) eq_refl eq_refl H2) as [Ha Hb].
    destruct (trim rest); injection H1 as <-; [now apply Hb|exact Ha].
  - intros [= <-] H2. exact (proj1 (Hagree st1 t eq_refl eq_refl H2)).
Qed.

Lemma passes_agree_run lines :
  forall st1 st2 st1' st2',
    passes_agree st1 st2 ->
    run_lines pass1_line st1 lines = Ok st1' ->
    run_lines (pass2_line parseOperands table) st2 lines = Ok st2' ->
    passes_agree st1' st2'.
Proof.
  induction lines as [|x lines IH]; intros st1 st2 st1' st2' Hagree; cbn [run_lines].
  - now intros [= <-] [= <-].
  - destruct (pass1_line st1 x) as [s1|] eqn:E1; [|discriminate].
    destruct (pass2_line parseOperands table st2 x) as [s2|] eqn:E2; [|discriminate].
    apply IH. eapply passes_agree_line; eauto.
Qed.

(** The first datum a directive places lies at the counter of the
    current section. *)
Lemma pass2_directive_first_datum st directive rest st' init more :
  pass2_directive table st directive rest = Ok st' ->
  p2_dataInitializations st' = p2_dataInitializations st ++ init :: more ->
  di_address init = counter (p2_sectionCounters st) (p2_currentSection st).
Proof.
  unfold pass2_directive. cbv zeta.
  set (sec := p2_currentSection st). set (cs := p2_sectionCounters st).
  assert (Hnil : forall st0 : Pass2,
            p2_dataInitializations st0 = p2_dataInitializations st ->
            p2_dataInitializations st0 = p2_dataInitializations st ++ init :: more ->
            di_address init = counter cs sec).
  { intros st0 -> H. apply (f_equal (@length _)) in H.
    rewrite length_app in H. cbn [length] in H. lia. }
  assert (Hfirst : forall st0 : Pass2, forall inits,
            p2_dataInitializations st0 = p2_dataInitializations st ++ inits ->
            (forall i0 m0, inits = i0 :: m0 -> di_address i0 = counter cs sec) ->
            p2_dataInitializations st0 = p2_dataInitializations st ++ init :: more ->
            di_address init = counter cs sec).
  { intros st0 inits -> Hi H. apply app_inv_head in H. eauto. }
  destruct (String.eqb directive "global"); [intros [= <-]; now apply Hnil|].
  destruct (String.eqb directive "align").
  { intros [= <-]. apply (Hfirst _ []); [reflexivity|discriminate]. }
  destruct (String.eqb directive "asciz" || String.eqb directive "string").
  { destruct (stringMatch rest) as [raw|]; [|discriminate]. intros [= <-].
    apply (Hfirst _ (string_inits sec (charCodes (processEscapes raw)) (counter cs sec)));
      [reflexivity|].
    intros i0 m0. destruct (processEscapes raw); cbn [string_inits charCodes map];
      intros [= <- _]; reflexivity. }
  destruct (_ || _).
  { match goal with
    | |- context [value_inits table sec ?size ?vs ?c] =>
        destruct (value_inits table sec size vs c) as [[inits c']|] eqn:E;
        [|discriminate]
    end.
    intros [= <-]. apply (Hfirst _ inits); [reflexivity|].
    intros i0 m0 ->. destruct (values_of rest) as [|v vs]; cbn [value_inits] in E;
      [discriminate|].
    destruct (parseValue table v); [|discriminate].
    destruct (value_inits table sec _ vs _) as [[i1 a1]|]; [|discriminate].
    now injection E as <- _ _. }
  destruct (String.eqb directive "skip"); [|intros [= <-]; now apply Hnil].
  destruct (parseInt false rest) as [size|]; [|intros [= <-]; now apply Hnil].
  destruct (0 <? size); [|intros [= <-]; now apply Hnil].
  intros [= <-].
  apply (Hfirst _ (match sec with SBss => [mkDataInit (counter cs sec) 0 size sec true]
                                | _ => [] end)); [reflexivity|].
  intros i0 m0. destruct sec; try discriminate. now intros [= <- _].
Qed.

End PassAgreement.

(** X23.  The two passes of the assembler stay in step on everything
    but the text counter: after any program that both accept, Pass 2
    ends in the section in which Pass 1 ended and with the same
    location counters for rodata, data and bss, whatever the operand
    parser and the symbol table Pass 2 is given. *)
Theorem passes_agree_on_sections_and_data_counters :
  forall (parseOperands : string -> list string -> Res Parsed)
         (table : gmap string Symbol) (lines : list string)
         (st1 : Parser.Pass1) (st2 : Parser.Pass2),
    Parser.buildSymbolTable lines = Ok st1 ->
    Parser.parseProgram parseOperands lines table = Ok st2 ->
    passes_agree st1 st2.
Proof.
  intros parseOperands table lines st1 st2 H1 H2.
  eapply passes_agree_run; [|exact H1|exact H2].
  split; reflexivity.
Qed.

(** A data section with values, a string, an alignment and a gap. *)
Lemma passes_agree_on_sections_and_data_counters_witness :
  match Parser.buildSymbolTable data_lines,
        Parser.parseProgram no_operands data_lines ∅ with
  | Ok st1, Ok st2 => passes_agree st1 st2
  | _, _ => False
  end.
Proof.
  destruct (Parser.buildSymbolTable data_lines) as [st1|] eqn:E1;
    [|vm_compute in E1; discriminate].
  destruct (Parser.parseProgram no_operands data_lines ∅) as [st2|] eqn:E2;
    [|vm_compute in E2; discriminate].
  exact (passes_agree_on_sections_and_data_counters no_operands ∅ data_lines
           st1 st2 E1 E2).
Defined.

(** X24.  A label on a line of a data section points at the first
    datum of that line: when Pass 1 accepts the program and Pass 2
    accepts it up to and including the line of the label, the address
    Pass 1 recorded for the label is the address of the first data
    initialisation Pass 2 made for that line. *)
Theorem data_label_points_at_its_first_datum :
  forall (parseOperands : string -> list string -> Res Parsed)
         (table : gmap string Symbol) (pre post : list string) (line name : string)
         (st : Parser.Pass1) (st2 st2' : Parser.Pass2) (info : Symbol)
         (init : Parser.DataInit) (more : list Parser.DataInit),
    Parser.buildSymbolTable (pre ++ line :: post) = Ok st ->
    Parser.parseProgram parseOperands pre table = Ok st2 ->
    Parser.pass2_line parseOperands table st2 line = Ok st2' ->
    Parser.p2_currentSection st2 <> Parser.SText ->
    label_of line = Some name ->
    Parser.p1_symbolTable st !! name = Some info ->
    Parser.p2_dataInitializations st2'
    = Parser.p2_dataInitializations st2 ++ init :: more ->
    Parser.di_address init = sym_address info.
Proof.
  intros parseOperands table pre post line name st st2 st2' info init more
         Hrun1 Hrun2 Hline Hsec Hlabel Hinfo Hinits.
  pose proof Hrun1 as Hrun1'.
  unfold Parser.buildSymbolTable in Hrun1'. rewrite run_lines_app in Hrun1'.
  destruct (Parser.run_lines Parser.pass1_line Parser.pass1_init pre) as [st1|] eqn:E1;
    [|discriminate].
  cbn [Parser.run_lines] in Hrun1'.
  destruct (Parser.pass1_line st1 line) as [st1a|] eqn:E1a; [|discriminate].
  assert (Hentry : Parser.p1_symbolTable st1a !! name
                   = Some (mkSymbol
                             (Parser.counter (Parser.p1_sectionCounters st1)
                                             (Parser.p1_currentSection st1))
                             (Parser.sect_name (Parser.p1_currentSection st1))
                             (match Parser.p1_currentSection st1 with
                              | Parser.SText => "code" | _ => "data"
                              end)
                             (bool_decide (name ∈ Parser.p1_globalSymbols st1)))).
  { rewrite (proj2 (pass1_line_label st1 line name Hlabel) st1a E1a).
    apply lookup_insert_eq. }
  rewrite (pass1_from_keeps _ _ _ _ _ Hrun1' Hentry) in Hinfo.
  injection Hinfo as <-. cbn [sym_address].
  destruct (passes_agree_run parseOperands table pre Parser.pass1_init Parser.pass2_init
              st1 st2 (conj eq_refl eq_refl) E1 Hrun2) as [Hs Hc].
  rewrite <- Hs, <- (data_counter_agree _ _ _ Hc Hsec).
  clear Hrun1 Hrun1' E1 Hrun2 E1a Hentry.
  unfold label_of in Hlabel. unfold Parser.pass2_line in Hline.
  set (t := Parser.trim (Parser.removeComments (Parser.of_string line))) in *.
  destruct (Parser.labelMatch t) as [[nm rest]|] eqn:Hm; [|discriminate].
  destruct (labelMatch_not_directive _ _ _ Hm) as (Hne & Hsm & _).
  destruct t as [|c l]; [congruence|]. rewrite Hsm in Hline.
  destruct (Parser.startsWith_dot (Parser.trim rest)).
  - destruct (Parser.directiveMatch Parser.pass2_directives (Parser.trim rest))
      as [[d r]|].
    + eapply pass2_directive_first_datum; eauto.
    + injection Hline as <-. apply (f_equal (@length _)) in Hinits.
      rewrite length_app in Hinits. cbn [length] in Hinits. lia.
  - destruct (Parser.p2_currentSection st2); [congruence| | |];
      injection Hline as <-; apply (f_equal (@length _)) in Hinits;
      rewrite length_app in Hinits; cbn [length] in Hinits; lia.
Qed.

(** The label [nums] and the first of its two values, at the start of
    the data region. *)
Lemma data_label_points_at_its_first_datum_witness :
  match Parser.buildSymbolTable nums_lines with
  | Ok st =>
      match Parser.p1_symbolTable st !! "nums" with
      | Some info => 0x00200000 = sym_address info
      | None => False
      end
  | Throw _ => False
  end.
Proof.
  destruct (Parser.buildSymbolTable nums_lines) as [st|] eqn:E1;
    [|vm_compute in E1; discriminate].
  destruct (Parser.p1_symbolTable st !! "nums") as [info|] eqn:Hinfo.
  - refine (data_label_points_at_its_first_datum no_operands ∅ [".data"%string] []
              "nums: .quad 7, 8" "nums" st
              (Parser.mkPass2 [] [] Parser.SData Parser.initialCounters)
              (Parser.mkPass2 [] [Parser.mkDataInit 0x00200000 7 8 Parser.SData false;
                                  Parser.mkDataInit 0x00200008 8 8 Parser.SData false]
                              Parser.SData
                              (Parser.mkCounters 0x00100000 0x00200010 0x00300000 0))
              info
              (Parser.mkDataInit 0x00200000 7 8 Parser.SData false)
              [Parser.mkDataInit 0x00200008 8 8 Parser.SData false]
              E1 _ _ _ _ Hinfo _).
    + vm_compute. reflexivity.
    + vm_compute. reflexivity.
    + discriminate.
    + vm_compute. reflexivity.
    + reflexivity.
  - vm_compute in E1. injection E1 as <-. vm_compute in Hinfo. discriminate.
Defined.

(** ** Pass 2 on programs without directives, and [.align] *)

Section PlainPrograms.

Import Parser.

Variable parseOperands : string -> list string -> Res Parsed.
Variable table : gmap string Symbol.

(** What Pass 2 keeps on such programs: the text section, a text
    counter of four times the number of instructions, instruction [i]
    at address [4 * i] with a parsed record, and no data. *)
Local Abbreviation plain_state := (fun st : Pass2 =>
  p2_currentSection st = SText
  /\ c_text (p2_sectionCounters st) = 4 * Z.of_nat (length (p2_instructions st))
  /\ (forall i ins, p2_instructions st !! i = Some ins ->
        address ins = 4 * Z.of_nat i /\ parsed ins <> None)
  /\ p2_dataInitializations st = []).

Lemma sectionMatch_starts_with_dot t sec :
  sectionMatch t = Some sec -> startsWith_dot t = true /\ labelMatch t = None.
Proof.
  unfold sectionMatch, startsWith_dot, labelMatch.
  destruct t as [|c l]; [discriminate|].
  destruct (Nat.eqb (code c) 46) eqn:Hdot; [|discriminate]. intros _.
  split; [reflexivity|].
  assert (Hid : is_ident_start c = false).
  { clear -Hdot. destruct c as [[] [] [] [] [] [] [] []]; try discriminate Hdot;
      reflexivity. }
  now rewrite Hid.
Qed.

Lemma pass2_line_plain st line st' :
  without_directive line = true ->
  pass2_line parseOperands table st line = Ok st' ->
  plain_state st -> plain_state st'.
Proof.
  unfold without_directive, line_after_label, pass2_line.
  set (t := trim (removeComments (of_string line))).
  intros Hplain Hline (Hsec & Hc & Hins & Hdata).
  destruct t as [|c l] eqn:Et; [injection Hline as <-; auto|].
  destruct (sectionMatch (c :: l)) as [sec|] eqn:Hs.
  { destruct (sectionMatch_starts_with_dot _ _ Hs) as [Hdot Hlm].
    rewrite Hlm, Hdot in Hplain. discriminate. }
  destruct (startsWith_dot _); [discriminate|].
  rewrite Hsec in Hline.
  destruct (parseInstruction parseOperands (c :: l)) as [[p|]|]; [| |discriminate];
    injection Hline as <-; [|auto].
  cbn [p2_currentSection p2_sectionCounters p2_instructions p2_dataInitializations
       set_counter c_text].
  split; [reflexivity|]. split; [rewrite length_app, Hc; cbn [length]; lia|].
  split; [|exact Hdata].
  intros i ins Hi. apply lookup_app_Some in Hi as [Hi|[Hlen Hi]].
  - now apply Hins.
  - destruct (i - length (p2_instructions st))%nat as [|k] eqn:Ek; [|discriminate].
    injection Hi as <-. cbn [address parsed]. split; [|discriminate].
    rewrite Hc. f_equal. lia.
Qed.

Lemma run_lines_plain lines :
  forall st st',
    forallb without_directive lines = true ->
    run_lines (pass2_line parseOperands table) st lines = Ok st' ->
    plain_state st -> plain_state st'.
Proof.
  induction lines as [|x lines IH]; intros st st'; cbn [run_lines forallb].
  - now intros _ [= <-].
  - intros Hall. apply andb_true_iff in Hall as [Hx Hall].
    destruct (pass2_line parseOperands table st x) as [st1|] eqn:E; [|discriminate].
    intros Hrun Hst. apply (IH st1 st' Hall Hrun).
    eapply pass2_line_plain; eauto.
Qed.

End PlainPrograms.

(** X25.  In a program without directives every instruction that Pass
    2 emits lies four bytes after the previous one: instruction [i] has
    address [4 * i] and a parsed record, the text counter ends at four
    times the number of instructions, and no data is initialised.  In
    a simulator loaded with these instructions
    [findInstructionIndexByAddress] finds instruction [i] at address
    [4 * i]. *)
Theorem instructions_of_plain_programs_are_four_bytes_apart :
  forall (parseOperands : string -> list string -> Res Parsed)
         (table : gmap string Symbol) (lines : list string) (st : Parser.Pass2),
    forallb without_directive lines = true ->
    Parser.parseProgram parseOperands lines table = Ok st ->
    Parser.c_text (Parser.p2_sectionCounters st)
    = 4 * Z.of_nat (length (Parser.p2_instructions st))
    /\ Parser.p2_dataInitializations st = []
    /\ forall i ins,
         Parser.p2_instructions st !! i = Some ins ->
         address ins = 4 * Z.of_nat i
         /\ parsed ins <> None
         /\ forall s, instructions s = Parser.p2_instructions st ->
                      findInstructionIndexByAddress s (4 * Z.of_nat i) = Z.of_nat i.
Proof.
  intros parseOperands table lines st Hall Hrun.
  destruct (run_lines_plain parseOperands table lines Parser.pass2_init st Hall Hrun)
    as (_ & Hc & Hins & Hdata).
  { cbv beta. split; [reflexivity|]. split; [reflexivity|]. split; [|reflexivity].
    intros j insj Hj. discriminate. }
  split; [exact Hc|]. split; [exact Hdata|].
  intros i ins Hi. destruct (Hins i ins Hi) as [Ha Hp].
  split; [exact Ha|]. split; [exact Hp|].
  intros s Hs. unfold findInstructionIndexByAddress. rewrite Hs.
  rewrite (find_index_from_exact _ _ 0 i ins Hi Ha); [lia|].
  intros j insj Hj Hl. destruct (Hins j insj Hl) as [Haj _]. lia.
Qed.

(** Three instructions with a label line and a comment. *)
Lemma instructions_of_plain_programs_are_four_bytes_apart_witness :
  match Parser.parseProgram any_operands three_instructions ∅ with
  | Ok st => Parser.c_text (Parser.p2_sectionCounters st)
             = 4 * Z.of_nat (length (Parser.p2_instructions st))
  | Throw _ => False
  end.
Proof.
  destruct (Parser.parseProgram any_operands three_instructions ∅) as [st|] eqn:E;
    [|vm_compute in E; discriminate].
  refine (proj1 (instructions_of_plain_programs_are_four_bytes_apart any_operands ∅
                   three_instructions st _ E)).
  vm_compute. reflexivity.
Defined.

(** X26.  [.align n] moves a location counter up to the next multiple
    of [2^n], leaving a counter that already is one where it is;
    without a number, or with the number 0, the power is 3, so
    [.align 0] aligns to 8 bytes; and with a negative number the
    counter becomes 0. *)
Theorem align_rounds_the_counter_up :
  forall (rest : Parser.chars) (c : Z),
    (0 <= align_power rest ->
       Parser.align_counter rest c
       = 2 ^ align_power rest * ((c + 2 ^ align_power rest - 1) / 2 ^ align_power rest)
       /\ c <= Parser.align_counter rest c < c + 2 ^ align_power rest
       /\ (c mod 2 ^ align_power rest = 0 -> Parser.align_counter rest c = c))
    /\ (align_power rest < 0 -> Parser.align_counter rest c = 0)
    /\ (Parser.parseInt false rest = None \/ Parser.parseInt false rest = Some 0 ->
        align_power rest = 3).
Proof.
  intros rest c. unfold Parser.align_counter. fold (align_power rest).
  set (p := align_power rest). cbv zeta. split; [|split].
  - intros Hp.
    assert (H2p : 0 < 2 ^ p) by (apply Z.pow_pos_nonneg; lia).
    rewrite Z.shiftl_1_l.
    replace (2 ^ p - 1) with (Z.ones p) by (rewrite Z.ones_equiv; lia).
    rewrite land_lnot_sub, Z.land_ones by lia.
    rewrite Z.ones_equiv.
    replace (c + Z.pred (2 ^ p)) with (c + 2 ^ p - 1) by lia.
    pose proof (Z.div_mod (c + 2 ^ p - 1) (2 ^ p) ltac:(lia)) as Hdm.
    pose proof (Z.mod_pos_bound (c + 2 ^ p - 1) (2 ^ p) H2p) as Hm.
    split; [lia|]. split; [lia|].
    intros Hc.
    assert (E : (c + 2 ^ p - 1) mod 2 ^ p = 2 ^ p - 1).
    { apply Z.div_exact in Hc; [|lia].
      symmetry. apply Z.mod_unique with (c / 2 ^ p); lia. }
    lia.
  - intros Hp. rewrite Z.shiftl_1_l, Z.pow_neg_r by lia.
    change (0 - 1) with (-1). change (Z.lnot (-1)) with 0. apply Z.land_0_r.
  - unfold p, align_power. intros [-> | ->]; reflexivity.
Qed.

(** A counter of 0x00200003 aligned by [.align 2]. *)
Lemma align_rounds_the_counter_up_witness :
  0x00200003 <= Parser.align_counter (Parser.of_string "2") 0x00200003
              < 0x00200003 + 2 ^ align_power (Parser.of_string "2").
Proof.
  refine (proj1 (proj2 (proj1 (align_rounds_the_counter_up (Parser.of_string "2")
                                 0x00200003) _))).
  vm_compute. discriminate.
Defined.

(** ** Strings: from the data initialisations to [readString] *)

Lemma byte_address_in_a_region a :
  0x00100000 <= a <= 0x07FFFFFF -> within_one_region a 1.
Proof.
  intros Ha. unfold within_one_region.
  destruct (Z_le_gt_dec a (r_end rodata)); [exists rodata; cbn in *; intuition lia|].
  destruct (Z_le_gt_dec a (r_end data)); [exists data; cbn in *; intuition lia|].
  destruct (Z_le_gt_dec a (r_end bss)); [exists bss; cbn in *; intuition lia|].
  destruct (Z_le_gt_dec a (r_end heap)); [exists heap; cbn in *; intuition lia|].
  exists stack; cbn in *; intuition lia.
Qed.

Lemma low_byte_range c : 0 <= low_byte c < 256.
Proof. unfold low_byte. apply Z.mod_pos_bound. lia. Qed.

(** A write of size 1 stores the low byte of the value. *)
Lemma write_byte a v s :
  0x00100000 <= a <= 0x07FFFFFF ->
  writeMemory a v 1 true s = (Ok tt, set_memory (fun m => <[a := low_byte v]> m) s).
Proof.
  intros Ha. pose proof (low_byte_range v) as Hv. unfold low_byte in *.
  destruct (byte_address_in_a_region a Ha) as (r & Hin & Hlo & Hhi).
  unfold writeMemory, bind, validateInitWrite, throw, ret, modify. cbn [negb].
  destruct (Z.eqb_spec a 0); [lia|].
  destruct (Z.ltb_spec a 1048576); [lia|]. cbn [orb andb].
  destruct (Z.ltb_spec 134217727 (a + (1 - 1))); [lia|].
  rewrite (getMemoryRegion_unique a r Hin) by lia.
  destruct (Z.ltb_spec (r_end r) (a + (1 - 1))); [lia|].
  f_equal. change (Z.to_nat 1) with 1%nat. cbn [store_bytes].
  unfold JS.nadd. rewrite (Number_small a), Z.add_0_r, (Number_small a) by lia.
  change (0 * 8) with 0. rewrite Z.shiftr_0_r.
  change 0xFF with (Z.ones 8). rewrite Z.land_ones by lia.
  change (2 ^ 8) with 256. now rewrite Number_small by lia.
Qed.

Lemma read_byte a v s :
  0x00100000 <= a <= 0x07FFFFFF ->
  memory s !! a = Some v ->
  readMemory a 1 s = (Ok v, s).
Proof.
  intros Ha Hm.
  destruct (validate_read_ok a 1 s ltac:(lia) (byte_address_in_a_region a Ha)) as [r Hv].
  unfold readMemory, bind, get. rewrite Hv.
  change (Z.to_nat 1) with 1%nat. cbn [load_bytes andb Z.eqb].
  unfold JS.nadd. rewrite (Number_small a), Z.add_0_r, (Number_small a) by lia.
  rewrite Hm. change (0 * 8) with 0. rewrite Z.shiftl_0_r, Z.lor_0_l.
  cbn [JS.or_default]. destruct (Z.eqb_spec v 0); subst; reflexivity.
Qed.

Lemma initialize_string sec cs :
  forall a s,
    0x00100000 <= a -> a + Z.of_nat (length cs) <= 0x07FFFFFF ->
    initializeMemoryRegions (Parser.string_inits sec cs a) s
    = (Ok tt, set_memory (write_string (map low_byte cs) a) s).
Proof.
  induction cs as [|c cs IH]; intros a s Hlo Hhi;
    cbn [Parser.string_inits initializeMemoryRegions write_string map
         Parser.di_address Parser.di_value Parser.di_size length] in *.
  - unfold bind. rewrite write_byte by lia. reflexivity.
  - unfold bind. rewrite write_byte by lia.
    rewrite IH by lia. reflexivity.
Qed.

Lemma write_string_below bytes :
  forall a m b, b < a -> write_string bytes a m !! b = m !! b.
Proof.
  induction bytes as [|c bytes IH]; intros a m b Hb; cbn [write_string].
  - apply lookup_insert_ne. lia.
  - rewrite IH by lia. apply lookup_insert_ne. lia.
Qed.

(** Reading bytes that lie in memory with a zero byte behind them: the
    loop stops at the first zero byte. *)
Lemma readString_from_stored s bytes :
  forall fuel a acc,
    (length bytes < fuel)%nat ->
    Forall (fun b => 0 <= b < 256) bytes ->
    0x00100000 <= a -> a + Z.of_nat (length bytes) <= 0x07FFFFFF ->
    (forall i b, bytes !! i = Some b -> memory s !! (a + Z.of_nat i) = Some b) ->
    memory s !! (a + Z.of_nat (length bytes)) = Some 0 ->
    readString_from fuel a acc s = (Ok (Some (acc ++ until_nul bytes)), s).
Proof.
  induction bytes as [|b bytes IH]; intros fuel a acc Hfuel Hrange Hlo Hhi Hbytes Hend;
    (destruct fuel as [|fuel]; [cbn [length] in Hfuel; lia|]);
    cbn [readString_from length until_nul] in *.
  - unfold bind. rewrite Z.add_0_r in Hend.
    rewrite (read_byte a 0 s) by (assumption || lia). cbn [Z.eqb].
    now rewrite app_nil_r.
  - inversion Hrange as [|? ? Hb Hrest]; subst.
    pose proof (Hbytes 0%nat b eq_refl) as H0. rewrite Z.add_0_r in H0.
    unfold bind.
    rewrite (read_byte a b s) by (assumption || lia).
    destruct (Z.eqb_spec b 0) as [E|Hne]; [now rewrite app_nil_r|].
    rewrite Number_small, Z.mod_small by lia.
    rewrite (IH fuel (a + 1) (acc ++ [b])); try lia; auto.
    + now rewrite <- app_assoc.
    + intros i b' Hi. replace (a + 1 + Z.of_nat i) with (a + Z.of_nat (S i)) by lia.
      now apply Hbytes.
    + replace (a + 1 + Z.of_nat (length bytes)) with (a + Z.of_nat (S (length bytes)))
        by lia.
      exact Hend.
Qed.

Lemma write_string_lookup bytes :
  forall a m,
    (forall i b, bytes !! i = Some b ->
                 write_string bytes a m !! (a + Z.of_nat i) = Some b)
    /\ write_string bytes a m !! (a + Z.of_nat (length bytes)) = Some 0.
Proof.
  induction bytes as [|c bytes IH]; intros a m; cbn [write_string length].
  - split; [intros i c Hi; discriminate|].
    rewrite Z.add_0_r. apply lookup_insert_eq.
  - destruct (IH (a + 1) (<[a := c]> m)) as [Hc Hend].
    split.
    + intros [|i] c' Hi.
      * injection Hi as <-. rewrite Z.add_0_r, write_string_below by lia.
        apply lookup_insert_eq.
      * replace (a + Z.of_nat (S i)) with (a + 1 + Z.of_nat i) by lia.
        now apply Hc.
    + replace (a + Z.of_nat (S (length bytes))) with (a + 1 + Z.of_nat (length bytes))
        by lia.
      exact Hend.
Qed.

Lemma until_nul_of_bytes cs :
  Forall (fun c => 0 < c < 256) cs -> until_nul (map low_byte cs) = cs.
Proof.
  induction 1 as [|c cs Hc Hcs IH]; cbn [map until_nul]; [reflexivity|].
  cbv beta in Hc. change (low_byte c) with (c mod 256). rewrite Z.mod_small by lia.
  destruct (Z.eqb_spec c 0); [lia|]. now rewrite IH.
Qed.

(** X27.  What [readString] reads where the data initialisations of an
    [.asciz] or [.string] directive have been written.  For any code
    units of a string whose bytes and terminator lie between
    0x00100000 and 0x07FFFFFF, [initializeMemoryRegions] succeeds on
    the initialisations Pass 2 emits for them (also in the read-only
    region): each code unit is written with size 1, which keeps its low
    byte.  [readString] at the address of the string then returns the
    low bytes of the code units up to the first that is zero, as soon
    as it may read one byte more than the string is long.  So a string
    whose code units all lie between 1 and 255 reads back as it is,
    and a code unit above 255 reads back as its low byte or, when that
    is zero, ends the string. *)
Theorem initialized_string_reads_back :
  forall (s : Simulator) (sec : Parser.Sect) (codeUnits : list Z) (a : Z) (fuel : nat),
    0x00100000 <= a -> a + Z.of_nat (length codeUnits) <= 0x07FFFFFF ->
    (length codeUnits < fuel)%nat ->
    exists s',
      initializeMemoryRegions (Parser.string_inits sec codeUnits a) s = (Ok tt, s')
      /\ readString fuel a s' = (Ok (Some (until_nul (map low_byte codeUnits))), s')
      /\ (Forall (fun c => 0 < c < 256) codeUnits ->
          readString fuel a s' = (Ok (Some codeUnits), s')).
Proof.
  intros s sec cs a fuel Hlo Hhi Hfuel.
  exists (set_memory (write_string (map low_byte cs) a) s).
  split; [now apply initialize_string|].
  assert (Hread : readString fuel a (set_memory (write_string (map low_byte cs) a) s)
                  = (Ok (Some (until_nul (map low_byte cs))),
                     set_memory (write_string (map low_byte cs) a) s)).
  { unfold readString.
    destruct (write_string_lookup (map low_byte cs) a (memory s)) as [Hbytes Hend].
    assert (Hrange : Forall (fun b => 0 <= b < 256) (map low_byte cs)).
    { clear. induction cs as [|c cs IH]; cbn [map]; constructor;
        [apply low_byte_range|exact IH]. }
    rewrite length_map in Hend.
    rewrite (readString_from_stored _ (map low_byte cs) fuel a []);
      rewrite ?length_map; auto. }
  split; [exact Hread|].
  intros Hsmall. rewrite Hread. now rewrite until_nul_of_bytes.
Qed.

(** The string [hi] at the start of the read-only data. *)
Lemma initialized_string_reads_back_witness :
  exists s',
    initializeMemoryRegions
      (Parser.string_inits Parser.SRodata [0x68; 0x69] 0x00100000) reset
    = (Ok tt, s')
    /\ readString 3 0x00100000 s' = (Ok (Some [0x68; 0x69]), s').
Proof.
  destruct (initialized_string_reads_back reset Parser.SRodata [0x68; 0x69]
              0x00100000 3) as (s' & Hinit & _ & Hread).
  - lia.
  - cbn. lia.
  - cbn. lia.
  - exists s'. split; [exact Hinit|]. apply Hread.
    repeat constructor; lia.
Defined.

(** Code units above 255, evaluated: of [H], U+0100, [i] the string
    read back is [H], because the low byte of U+0100 is zero; of [H],
    U+0161 it is [H], [a]. *)
Lemma code_units_above_255_are_cut :
  (let s' := snd (initializeMemoryRegions
                    (Parser.string_inits Parser.SRodata [0x48; 0x100; 0x69] 0x00100000)
                    reset) in
   fst (readString 4 0x00100000 s') = Ok (Some [0x48]))
  /\ (let s' := snd (initializeMemoryRegions
                       (Parser.string_inits Parser.SRodata [0x48; 0x161] 0x00100000)
                       reset) in
      fst (readString 3 0x00100000 s') = Ok (Some [0x48; 0x61])).
Proof. split; vm_compute; reflexivity. Qed.

(** ** [mov]: refused immediates and the register form *)

Lemma mov_refuses_zero_and_all_ones is64Bit :
  isMovImmediateEncodable 0 is64Bit = false
  /\ isMovImmediateEncodable (mov_mask is64Bit) is64Bit = false.
Proof. destruct is64Bit; split; vm_compute; reflexivity. Qed.

(** X28.  [mov] with an immediate whose bit pattern at the width of
    the destination is zero or all ones is refused, for every
    destination and in every state: [mov x0, #0] and [mov x0, #-1]
    throw and leave the simulator as it was.  The register form of
    [mov] writes what the source reads: between general registers of
    the same width it copies a 64-bit value unchanged and copies the
    low 32 bits of a w register, leaving the upper half of the
    destination zero. *)
Theorem mov_refuses_zero_and_copies_registers :
  forall (s : Simulator) (d : Register) (v : Z) (n m : nat),
    (let u := Z.land v (mov_mask (negb (is_w (Some d)))) in
     u = 0 \/ u = mov_mask (negb (is_w (Some d))) ->
     executeMov (mov_imm d v) s = (Throw (MovNotEncodable u), s))
    /\ (let out := executeMov (mov_reg (RObj x_type n) (RObj x_type m)) s in
        fst out = Ok tt
        /\ registers (snd out) !! xname n = Some (stored m s))
    /\ (let out := executeMov (mov_reg (RObj w_type n) (RObj w_type m)) s in
        fst out = Ok tt
        /\ registers (snd out) !! xname n = Some (stored m s mod 2 ^ 32)).
Proof.
  intros s d v n m. split; [|split].
  - cbv zeta. intros Hu. unfold executeMov, mov_imm. cbn [dest immediate].
    destruct (mov_refuses_zero_and_all_ones (negb (is_w (Some d)))) as [H0 H1].
    destruct Hu as [-> | ->]; [rewrite H0|rewrite H1]; reflexivity.
  - cbv zeta. unfold executeMov, mov_reg. cbn [dest immediate src].
    unfold bind, get. cbn [setRegisterValue getRegisterValue]. unfold modify.
    cbn [fst snd registers add_changedRegisters set_registers].
    split; [reflexivity|]. apply lookup_insert_eq.
  - cbv zeta. unfold executeMov, mov_reg. cbn [dest immediate src].
    unfold bind, get. rewrite w_write_stores, w_read_value.
    cbn [fst snd registers add_changedRegisters set_registers].
    split; [reflexivity|]. rewrite lookup_insert_eq. f_equal.
    assert (Hl : 0 <= stored m s mod 2 ^ 32 < 2 ^ 32) by (apply Z.mod_pos_bound; lia).
    destruct (Z.testbit (stored m s) 31).
    + symmetry. apply Z.mod_unique with (2 ^ 32 - 1); lia.
    + rewrite Z.add_0_r. apply Z.mod_mod. lia.
Qed.

(** [mov x0, #0] at the reset state. *)
Lemma mov_refuses_zero_and_copies_registers_witness :
  executeMov (mov_imm (RObj x_type 0) 0) reset = (Throw (MovNotEncodable 0), reset).
Proof.
  refine (proj1 (mov_refuses_zero_and_copies_registers reset (RObj x_type 0) 0 0 0) _).
  left. reflexivity.
Defined.

(** ** Register names *)

(** X29.  [parseRegister] reads the name of every general register
    back as that register: any text that, trimmed and in lower case,
    is [x] or [w] followed by the decimal number of a register from 0
    to 30 gives the register of that type and number, and [sp], [lr]
    and [pc] in any case give the stack pointer, the link register and
    the PC.  It never returns a register numbered above 30. *)
Theorem parseRegister_reads_register_names :
  forall (str : string),
    (forall type n, (n <= 30)%nat ->
       spelling str = Parser.of_string (reg_name type n) ->
       parseRegister (Parser.of_string str) = Some (RObj type n))
    /\ (spelling str = Parser.of_string "sp" ->
        parseRegister (Parser.of_string str) = Some RSp)
    /\ (spelling str = Parser.of_string "lr" ->
        parseRegister (Parser.of_string str) = Some RLr)
    /\ (spelling str = Parser.of_string "pc" ->
        parseRegister (Parser.of_string str) = Some RPc)
    /\ (forall type n, parseRegister (Parser.of_string str) = Some (RObj type n) ->
                       (n <= 30)%nat).
Proof.
  intros str. unfold spelling, parseRegister. cbv zeta.
  set (t := Parser.toLowerCase (Parser.trim (Parser.of_string str))).
  split; [|split; [|split; [|split]]].
  - intros type n Hn Ht. rewrite Ht. clear Ht t.
    destruct type;
      do 31 (destruct n as [|n]; [vm_compute; reflexivity|]); lia.
  - intros ->. reflexivity.
  - intros ->. reflexivity.
  - intros ->. reflexivity.
  - intros type n.
    repeat match goal with
           | |- context [if ?b then _ else _] => destruct b eqn:?
           | |- context [match ?x with _ => _ end] => destruct x eqn:?
           end; try discriminate; intros [= <- <-];
      match goal with
      | H : (_ && _) = true |- _ => apply andb_true_iff in H as [H1 H2]
      end; lia.
Qed.

(** The spelling [" X17 "] of register x17. *)
Lemma parseRegister_reads_register_names_witness :
  parseRegister (Parser.of_string " X17 ") = Some (RObj x_type 17).
Proof.
  refine (proj1 (parseRegister_reads_register_names " X17 ") x_type 17%nat _ _).
  - lia.
  - vm_compute. reflexivity.
Defined.

(** ** Code labels *)

Section CodeLabels.

Import Parser.

Variable parseOperands : string -> list string -> Res Parsed.
Variable table : gmap string Symbol.

(** Both passes are in the text section with the same text counter,
    four times the number of instructions emitted. *)
Local Abbreviation in_step := (fun (st1 : Pass1) (st2 : Pass2) =>
  p1_currentSection st1 = SText
  /\ p2_currentSection st2 = SText
  /\ c_text (p1_sectionCounters st1) = 4 * Z.of_nat (length (p2_instructions st2))
  /\ c_text (p2_sectionCounters st2) = 4 * Z.of_nat (length (p2_instructions st2))).

Lemma code_line_in_step st1 st2 line st1' st2' :
  code_line parseOperands line = true ->
  pass1_line st1 line = Ok st1' ->
  pass2_line parseOperands table st2 line = Ok st2' ->
  in_step st1 st2 -> in_step st1' st2'.
Proof.
  unfold code_line, pass1_line, pass2_line. cbv zeta.
  set (t := trim (removeComments (of_string line))).
  intros Hcode H1 H2 (Hs1 & Hs2 & Hc1 & Hc2).
  destruct t as [|c l] eqn:Et.
  { injection H1 as <-. injection H2 as <-. auto. }
  destruct (labelMatch (c :: l)) as [[name rest]|] eqn:Hm.
  - destruct (labelMatch_not_directive _ _ _ Hm) as (_ & Hsm & Hgm).
    rewrite Hsm, Hgm in H1. rewrite Hsm in H2.
    destruct (trim rest); [|discriminate].
    destruct (parseInstruction parseOperands (c :: l)) as [[p|]|]; try discriminate.
    cbn [startsWith_dot] in H2. rewrite Hs2 in H2. injection H2 as <-.
    destruct (p1_symbolTable st1 !! to_string name); [discriminate|].
    injection H1 as <-. cbn [p1_currentSection p1_sectionCounters]. auto.
  - apply andb_true_iff in Hcode as [Hdot Hp]. apply negb_true_iff in Hdot.
    assert (Hsm : sectionMatch (c :: l) = None).
    { destruct (sectionMatch (c :: l)) as [sec|] eqn:E; [|reflexivity].
      destruct (sectionMatch_starts_with_dot _ _ E) as [Hd _]. congruence. }
    assert (Hgm : globalMatch (c :: l) = None).
    { destruct (globalMatch (c :: l)) as [g|] eqn:E; [|reflexivity].
      destruct (globalMatch_is_directive _ _ E) as [Hd _]. congruence. }
    rewrite Hsm, Hgm in H1. rewrite Hsm, Hdot, Hs2 in H2.
    destruct (parseInstruction parseOperands (c :: l)) as [[p|]|]; try discriminate.
    injection H1 as <-. injection H2 as <-.
    unfold pass1_advance. rewrite Hs1.
    cbn [p1_currentSection p1_sectionCounters p2_currentSection p2_sectionCounters
         p2_instructions set_counter c_text].
    rewrite length_app. cbn [length]. repeat split; lia.
Qed.

Lemma code_lines_in_step lines :
  forall st1 st2 st1' st2',
    forallb (code_line parseOperands) lines = true ->
    pass1_from st1 lines = Ok st1' ->
    pass2_from parseOperands table st2 lines = Ok st2' ->
    in_step st1 st2 -> in_step st1' st2'.
Proof.
  unfold pass1_from, pass2_from.
  induction lines as [|x lines IH]; intros st1 st2 st1' st2'; cbn [run_lines forallb].
  - intros _ [= <-] [= <-]. auto.
  - intros Hall. apply andb_true_iff in Hall as [Hx Hall].
    destruct (pass1_line st1 x) as [s1|] eqn:E1; [|discriminate].
    destruct (pass2_line parseOperands table st2 x) as [s2|] eqn:E2; [|discriminate].
    intros H1 H2 Hstep. apply (IH s1 s2 st1' st2' Hall H1 H2).
    eapply code_line_in_step; eauto.
Qed.

Lemma code_line_without_directive line :
  code_line parseOperands line = true -> without_directive line = true.
Proof.
  unfold code_line, without_directive, line_after_label. cbv zeta.
  destruct (trim (removeComments (of_string line))) as [|c l]; [reflexivity|].
  destruct (labelMatch (c :: l)) as [[name rest]|].
  - destruct (trim rest); [reflexivity|discriminate].
  - intros H. now apply andb_true_iff in H as [H _].
Qed.

End CodeLabels.

(** X30.  In a program that consists of labels on lines of their own
    and of instructions without labels, code labels point at the next
    instruction: when both passes accept the program, they end with
    the same text counter, and the address Pass 1 recorded for a label
    is four times the number of instructions Pass 2 emitted before the
    label's line, which is the address of the instruction Pass 2 emits
    next, if there is one. *)
Theorem code_label_points_at_the_next_instruction :
  forall (parseOperands : string -> list string -> Res Parsed)
         (table : gmap string Symbol) (pre post : list string) (line name : string)
         (st1 : Parser.Pass1) (st2pre st2 : Parser.Pass2) (info : Symbol),
    forallb (code_line parseOperands) (pre ++ line :: post) = true ->
    Parser.buildSymbolTable (pre ++ line :: post) = Ok st1 ->
    Parser.parseProgram parseOperands pre table = Ok st2pre ->
    Parser.parseProgram parseOperands (pre ++ line :: post) table = Ok st2 ->
    label_of line = Some name ->
    Parser.p1_symbolTable st1 !! name = Some info ->
    Parser.c_text (Parser.p1_sectionCounters st1)
    = Parser.c_text (Parser.p2_sectionCounters st2)
    /\ sym_address info = 4 * Z.of_nat (length (Parser.p2_instructions st2pre))
    /\ forall ins,
         Parser.p2_instructions st2 !! length (Parser.p2_instructions st2pre) = Some ins ->
         address ins = sym_address info.
Proof.
  intros parseOperands table pre post line name st1 st2pre st2 info
         Hall Hrun1 Hpre2 Hrun2 Hlabel Hinfo.
  assert (Hinit : Parser.p1_currentSection Parser.pass1_init = Parser.SText
                  /\ Parser.p2_currentSection Parser.pass2_init = Parser.SText
                  /\ Parser.c_text (Parser.p1_sectionCounters Parser.pass1_init)
                     = 4 * Z.of_nat (length (Parser.p2_instructions Parser.pass2_init))
                  /\ Parser.c_text (Parser.p2_sectionCounters Parser.pass2_init)
                     = 4 * Z.of_nat (length (Parser.p2_instructions Parser.pass2_init)))
    by (repeat split; reflexivity).
  destruct (code_lines_in_step parseOperands table _ _ _ _ _ Hall Hrun1 Hrun2 Hinit)
    as (_ & _ & Hc1 & Hc2).
  split; [lia|].
  pose proof Hrun1 as Hrun1'.
  unfold Parser.buildSymbolTable in Hrun1'. rewrite run_lines_app in Hrun1'.
  destruct (Parser.run_lines Parser.pass1_line Parser.pass1_init pre) as [st1pre|] eqn:E1;
    [|discriminate].
  rewrite forallb_app in Hall. apply andb_true_iff in Hall as [Hallpre Hallrest].
  destruct (code_lines_in_step parseOperands table pre _ _ _ _ Hallpre E1 Hpre2 Hinit)
    as (Hs1 & _ & Hcpre & _).
  cbn [Parser.run_lines] in Hrun1'.
  destruct (Parser.pass1_line st1pre line) as [st1a|] eqn:E1a; [|discriminate].
  assert (Hentry : Parser.p1_symbolTable st1a !! name
                   = Some (mkSymbol
                             (Parser.counter (Parser.p1_sectionCounters st1pre)
                                             (Parser.p1_currentSection st1pre))
                             (Parser.sect_name (Parser.p1_currentSection st1pre))
                             (match Parser.p1_currentSection st1pre with
                              | Parser.SText => "code" | _ => "data"
                              end)
                             (bool_decide (name ∈ Parser.p1_globalSymbols st1pre)))).
  { rewrite (proj2 (pass1_line_label st1pre line name Hlabel) st1a E1a).
    apply lookup_insert_eq. }
  rewrite (pass1_from_keeps _ _ _ _ _ Hrun1' Hentry) in Hinfo.
  injection Hinfo as <-. cbn [sym_address]. rewrite Hs1. cbn [Parser.counter].
  split; [exact Hcpre|].
  intros ins Hins.
  assert (Hplain : forallb without_directive (pre ++ line :: post) = true).
  { rewrite forallb_app. apply andb_true_iff. split.
    - apply forallb_forall. intros x Hx.
      apply (code_line_without_directive parseOperands).
      eapply forallb_forall in Hallpre; eauto.
    - apply forallb_forall. intros x Hx.
      apply (code_line_without_directive parseOperands).
      eapply forallb_forall in Hallrest; eauto. }
  destruct (run_lines_plain parseOperands table _ Parser.pass2_init st2 Hplain Hrun2)
    as (_ & _ & Haddr & _).
  { cbv beta. split; [reflexivity|]. split; [reflexivity|]. split; [|reflexivity].
    intros j insj Hj. discriminate. }
  destruct (Haddr _ _ Hins) as [Ha _]. lia.
Qed.

(** The label [loop] of [three_instructions], before its second
    instruction. *)
Lemma code_label_points_at_the_next_instruction_witness :
  match Parser.buildSymbolTable three_instructions with
  | Ok st1 =>
      match Parser.p1_symbolTable st1 !! "loop" with
      | Some info => sym_address info = 4 * Z.of_nat 1
      | None => False
      end
  | Throw _ => False
  end.
Proof.
  destruct (Parser.buildSymbolTable three_instructions) as [st1|] eqn:E1;
    [|vm_compute in E1; discriminate].
  destruct (Parser.p1_symbolTable st1 !! "loop") as [info|] eqn:Hinfo.
  - destruct (Parser.parseProgram any_operands three_instructions ∅) as [st2|] eqn:E2;
      [|vm_compute in E2; discriminate].
    refine (proj1 (proj2 (code_label_points_at_the_next_instruction any_operands ∅
                            ["mov x0, #5"%string]
                            ["add x0, x0, #1 // count"; "b loop"]%string
                            "loop:" "loop" st1
                            (Parser.mkPass2
                               [mkInstruction "mov x0, #5" 0 (Some (parsed0 "mov"))] []
                               Parser.SText (Parser.mkCounters 0x00100000 0x00200000
                                                               0x00300000 4))
                            st2 info _ E1 _ E2 _ Hinfo))).
    + vm_compute. reflexivity.
    + vm_compute. reflexivity.
    + vm_compute. reflexivity.
  - vm_compute in E1. injection E1 as <-. vm_compute in Hinfo. discriminate.
Defined.
